(** * Cutthroat Companies companion: resource graph, state engine, noise,
      contracts, persistence and settings, embedded from the JavaScript
      sources.

    Modelling conventions.
    - Resource values are JavaScript numbers that the program keeps
      integral (steps of one, [Math.floor], [Math.ceil]); they are modelled
      by [Z].  A value of type [option Z] is a JavaScript value read where a
      number is expected: [None] stands for [undefined] or [NaN], which the
      code treats alike at every place modelled here (arithmetic yields
      [NaN], every comparison is false, the number test rejects it).
    - Objects used as dictionaries are [gmap string _]; reading an absent key
      gives [undefined], that is [None].  The tier derivation of
      [constants/resources.js] also models the properties that every object
      inherits ([constructor], [toString], ...): reading such a name from
      [tierCache] or [rawMap] finds the inherited function.  In the hooks,
      keys are names of resources and are assumed not to be such names.
    - The products with 0.05 and 1.1 (completion, decay, escalator) and the
      reward of a contract are evaluated in binary64, as JavaScript
      evaluates them; the rational settings and the rational draw that enter
      the reward stand for the doubles nearest to them.  The draws that only
      select (a branch, an index) are rationals.  Target and difficulty are
      rationals, and [generateRandomContract] takes their product exactly,
      which is what the source computes whenever that product is a double;
      the accumulation loops take the scaled target as a parameter, and
      their termination and their bound are shown for every scaled target.
    - [Math.random()] is a parameter: each draw is an argument.
    - A loop of the source whose bound is not syntactic takes a [fuel]
      argument and returns [None] when it is exhausted; every such loop is
      shown to end within an explicit bound.
    - React state setters that receive an updater are applied in the order
      they are issued, each to the state left by the previous one; values a
      callback takes from its closure (the last rendered snapshot) are
      explicit arguments.
    - The keys of an object that are integers are enumerated in ascending
      order, before any other key; the columns of [byTier] are kept in that
      order.
    - The handlers of the two reward multipliers only compare and clamp
      them: there the settings are exact rationals.
    - The storage hook is generic in the type of the value it keeps; its
      serialiser and deserialiser are parameters. *)

From Stdlib Require Import ZArith QArith Qround Qminmax Lia Lqa.
From Stdlib Require Import Floats.PrimFloat Floats.FloatOps Floats.SpecFloat
  Floats.FloatAxioms.
From stdpp Require Import base option list relations gmap sets strings pretty sorting.

Local Open Scope string_scope.
Local Open Scope list_scope.

(* 0.05 and 1.1 denote the nearest doubles, as in JavaScript. *)
#[local] Set Warnings "-inexact-float".
(* [set_solver] clears hypotheses by name. *)
#[local] Set Warnings "-clear-no-such-hyp".

(** ** JavaScript numbers read from dictionaries *)

Module Js.

(** [a + b] where either side may be [undefined] or [NaN]. *)
Definition add (a b : option Z) : option Z :=
  match a, b with
  | Some x, Some y => Some (x + y)%Z
  | _, _ => None
  end.

(** [a < b]; false as soon as one side is [undefined] or [NaN]. *)
Definition ltb (a b : option Z) : bool :=
  match a, b with
  | Some x, Some y => (x <? y)%Z
  | _, _ => false
  end.

(** [a > b]. *)
Definition gtb (a b : option Z) : bool := ltb b a.

(** [a >= b] as JavaScript evaluates it. *)
Definition geb (a b : option Z) : bool :=
  match a, b with
  | Some x, Some y => (y <=? x)%Z
  | _, _ => false
  end.

End Js.

(** ** src/constants/resources.js *)

Module Graph.

(** A raw resource declaration.  An absent [components] field behaves like
    the empty array everywhere it is read, so it is the empty list here;
    [min] is optional. *)
Record resource := Resource {
  name : string;
  label : string;
  components : list string;
  min : option Z
}.

Definition rawResources : list resource :=
  [ Resource "iron" "Iron Ore" [] (Some 5%Z);
    Resource "coal" "Coal" [] (Some 10%Z);
    Resource "oil" "Crude Oil" [] (Some 5%Z);
    Resource "steel" "Steel" ["iron"; "coal"] None;
    Resource "plastics" "Plastics" ["oil"; "coal"] None;
    Resource "consumer_goods" "Consumer Goods" ["steel"; "plastics"] None ].

(** [Object.fromEntries(rs.map(r => [r.name, r]))]: a later entry
    overwrites an earlier one with the same key. *)
Definition fromEntries (rs : list resource) : gmap string resource :=
  foldl (fun m r => <[name r := r]> m) ∅ rs.

Inductive error :=
| UnknownResource (n : string)
| CircularDependency (n : string).

(** Result of a call that may throw; [OutOfFuel] marks a recursion bound
    of the model that was too small (shown below never to happen). *)
Inductive outcome (A : Type) :=
| Ok (a : A)
| Throw (e : error)
| OutOfFuel.
Arguments Ok {A} a.
Arguments Throw {A} e.
Arguments OutOfFuel {A}.

(** The names that every object inherits from [Object.prototype].  Reading
    one of them from an object that has no entry of its own under that name
    gives the inherited function (the prototype itself for [__proto__])
    where an absent key would give [undefined]. *)
Definition inheritedKeys : list string :=
  [ "constructor"; "hasOwnProperty"; "isPrototypeOf"; "propertyIsEnumerable";
    "toLocaleString"; "toString"; "valueOf"; "__proto__";
    "__defineGetter__"; "__defineSetter__";
    "__lookupGetter__"; "__lookupSetter__" ].

Definition inherited (n : string) : bool := bool_decide (n ∈ inheritedKeys).

(** A value met where a tier is expected: a number, [NaN], or the property
    that [Object.prototype] has under the given name. *)
Inductive tierValue :=
| Tier (t : nat)
| NotANumber
| Inherited (key : string).

(** Truthiness: 0 and [NaN] are falsy, a function or an object is truthy. *)
Definition truthy (v : tierValue) : bool :=
  match v with
  | Tier (S _) | Inherited _ => true
  | Tier O | NotANumber => false
  end.

(** [Number(v)] where it is a number. *)
Definition number (v : tierValue) : option nat :=
  match v with
  | Tier t => Some t
  | NotANumber | Inherited _ => None
  end.

(** [Math.max(...compTiers) + 1] for a list that is not empty: [NaN] as
    soon as one element is not a number. *)
Definition maxPlusOne (compTiers : list tierValue) : tierValue :=
  match mapM number compTiers with
  | Some ts => Tier (max_list ts + 1)
  | None => NotANumber
  end.

(** The module-level [tierCache] object, as its own entries, and the
    [visiting] set. *)
Record tstate := TState {
  tierCache : gmap string tierValue;
  visiting : gset string
}.

(** [tierCache[name]]: the own entry, else the inherited property, else
    [undefined]. *)
Definition readTier (st : tstate) (n : string) : option tierValue :=
  match tierCache st !! n with
  | Some v => Some v
  | None => if inherited n then Some (Inherited n) else None
  end.

(** The first line of [computeTier],
    [if (tierCache[name]) return tierCache[name]]: the value returned, if
    any. *)
Definition cached (st : tstate) (n : string) : option tierValue :=
  match readTier st n with
  | Some v => if truthy v then Some v else None
  | None => None
  end.

(** [cs.map(c => f(c))] for a callback that reads and writes the module
    state and may throw. *)
Fixpoint mapTiers (f : string -> tstate -> outcome (tierValue * tstate))
    (cs : list string) (st : tstate) : outcome (list tierValue * tstate) :=
  match cs with
  | [] => Ok ([], st)
  | c :: cs' =>
      match f c st with
      | Ok (t, st1) =>
          match mapTiers f cs' st1 with
          | Ok (ts, st2) => Ok (t :: ts, st2)
          | Throw e => Throw e
          | OutOfFuel => OutOfFuel
          end
      | Throw e => Throw e
      | OutOfFuel => OutOfFuel
      end
  end.

Section WithMap.
Variable rawMap : gmap string resource.

(** [rawMap[name]] followed by [res.components]: [None] when the name gives
    [undefined].  An inherited property is truthy and has no components. *)
Definition readComponents (n : string) : option (list string) :=
  match rawMap !! n with
  | Some res => Some (components res)
  | None => if inherited n then Some [] else None
  end.

(** [computeTier(name)].  From the empty cache no inherited name is ever
    written to it, so the setter behind [__proto__] never runs. *)
Fixpoint computeTier (fuel : nat) (n : string) (st : tstate)
    : outcome (tierValue * tstate) :=
  match fuel with
  | O => OutOfFuel
  | S fuel' =>
      match cached st n with
      | Some v => Ok (v, st)
      | None =>
          match readComponents n with
          | None => Throw (UnknownResource n)
          | Some comps =>
              if decide (n ∈ visiting st) then Throw (CircularDependency n)
              else
                match comps with
                | [] => Ok (Tier 1, TState (<[n := Tier 1]> (tierCache st))
                                           (visiting st))
                | _ :: _ =>
                    match mapTiers (computeTier fuel') comps
                            (TState (tierCache st) ({[n]} ∪ visiting st)) with
                    | Ok (compTiers, st1) =>
                        let t := maxPlusOne compTiers in
                        Ok (t, TState (<[n := t]> (tierCache st1))
                                      (visiting st1 ∖ {[n]}))
                    | Throw e => Throw e
                    | OutOfFuel => OutOfFuel
                    end
                end
          end
      end
  end.

(** [rs.forEach(r => computeTier(r.name))] *)
Fixpoint forEachTier (fuel : nat) (rs : list resource) (st : tstate)
    : outcome tstate :=
  match rs with
  | [] => Ok st
  | r :: rs' =>
      match computeTier fuel (name r) st with
      | Ok (_, st1) => forEachTier fuel rs' st1
      | Throw e => Throw e
      | OutOfFuel => OutOfFuel
      end
  end.
End WithMap.

(** Module initialisation: build [rawMap], start from an empty cache and an
    empty [visiting] set, compute every tier.  The recursion of
    [computeTier] is bounded by the number of declarations plus one. *)
Definition initTiers (rs : list resource) : outcome tstate :=
  forEachTier (fromEntries rs) (S (length rs)) rs (TState ∅ ∅).

(** The [tier] field of the exported [resources]: [tierCache[r.name]]. *)
Definition tierOf (st : tstate) (n : string) : option tierValue := readTier st n.

(** [a] lists [b] as a direct component. *)
Definition edge (rawMap : gmap string resource) (a b : string) : Prop :=
  exists r, rawMap !! a = Some r /\ b ∈ components r.

(** Every component named by a declaration is itself declared. *)
Definition closed (rawMap : gmap string resource) : Prop :=
  forall a b, edge rawMap a b -> is_Some (rawMap !! b).

(** Some resource depends on itself through one or more steps. *)
Definition cyclic (rawMap : gmap string resource) : Prop :=
  exists n, tc (edge rawMap) n n.

(** No declaration is named, and none lists a component named, like a
    property that every object inherits. *)
Definition ordinaryNames (rs : list resource) : Prop :=
  Forall (fun r => inherited (name r) = false /\
                   Forall (fun c => inherited c = false) (components r)) rs.

End Graph.


(** ** src/hooks/useResources.js *)

Module Engine.
Import Graph.

(** One record of a change-group: [{ name, prevValue, nextValue, cascading }].
    [prevValue] is [undefined] when the resource had no value yet. *)
Record change := Change {
  ch_name : string;
  prevValue : option Z;
  nextValue : Z;
  cascading : bool
}.

(** The three pieces of persisted state of the hook.  An entry of the action
    log is [{ changes: [...] }], kept here as the list of its changes. *)
Record state := State {
  values : gmap string Z;
  histories : gmap string (list Z);
  actionLog : list (list change)
}.

(** The second argument of [setResourceValue]: a value, or a function of the
    previous value.  Either may produce something that is not a number
    ([None]).  String arguments, which the source converts with [Number],
    are not modelled: every caller in the repository passes a number or an
    updater. *)
Inductive valueOrUpdater :=
| Direct (v : option Z)
| Updater (f : option Z -> option Z).

(** [computeMin(resource, currentValues)].  [currentValues] may be absent as a
    whole ([None]); a key absent from a present dictionary reads as
    [undefined] and turns the sum into [NaN]. *)
Definition computeMin (resource : resource)
    (currentValues : option (gmap string Z)) : option Z :=
  match components resource with
  | [] =>
      Some (match min resource with
            | Some m => if (m =? 0)%Z then 5%Z else m
            | None => 5%Z
            end)
  | _ :: _ =>
      foldl (fun sum c =>
               Js.add sum (match currentValues with
                           | Some vs => vs !! c
                           | None => Some 0%Z
                           end))
            (Some 0%Z) (components resource)
  end.

(** Working state of the cascade loop of [setResourceValue]. *)
Record cascadeState := CascadeState {
  newVals : gmap string Z;
  cascadeAdjustments : list change;
  queue : list string;
  visited : gset string
}.

(** [{ ...a, cascading: true }] *)
Definition markCascading (a : change) : change :=
  Change (ch_name a) (prevValue a) (nextValue a) true.

(** [[...arr, x]] for every change of a group, in order. *)
Definition appendHistory (h : gmap string (list Z)) (ch : change)
    : gmap string (list Z) :=
  <[ch_name ch := default [] (h !! ch_name ch) ++ [nextValue ch]]> h.

(** The loop below on the array read from its last element. *)
Fixpoint popWhile (nexts : list Z) (fromLast : list Z) : list Z :=
  match fromLast with
  | [] => []
  | x :: rest =>
      if bool_decide (x ∈ nexts) then popWhile nexts rest else fromLast
  end.

(** [while (arr.length && nexts.has(arr[arr.length - 1])) arr = arr.slice(0, -1)] *)
Definition popMatching (nexts : list Z) (arr : list Z) : list Z :=
  reverse (popWhile nexts (reverse arr)).

(** Iteration order of [new Set(names)]: first occurrences. *)
Fixpoint setOrder (seen : list string) (names : list string) : list string :=
  match names with
  | [] => []
  | n :: rest =>
      if bool_decide (n ∈ seen) then setOrder seen rest
      else n :: setOrder (n :: seen) rest
  end.

Section WithData.
(** The exported [resources]; the hook never reads their [tier]. *)
Variable resourceData : list resource.

Definition resourceMap : gmap string resource := fromEntries resourceData.

(** [dependentsMap[c].push(r.name)] for each resource and each component. *)
Definition dependentsMap : gmap string (list string) :=
  foldl (fun m r =>
           foldl (fun m c => <[c := default [] (m !! c) ++ [name r]]> m)
                 m (components r))
        ∅ resourceData.

(** The body of [for (const depName of dependents)]. *)
Definition cascadeStep (cs : cascadeState) (depName : string) : cascadeState :=
  match resourceMap !! depName with
  | None => cs
  | Some depResource =>
      let depMin := computeMin depResource (Some (newVals cs)) in
      let depPrev := newVals cs !! depName in
      match depMin with
      | Some m =>
          if Js.ltb depPrev depMin then
            CascadeState
              (<[depName := m]> (newVals cs))
              (cascadeAdjustments cs ++ [Change depName depPrev m false])
              (if decide (depName ∈ visited cs) then queue cs
               else queue cs ++ [depName])
              (if decide (depName ∈ visited cs) then visited cs
               else {[depName]} ∪ visited cs)
          else cs
      | None => cs
      end
  end.

(** [while (queue.length) { const current = queue.shift(); ... }].  [fuel]
    bounds the number of iterations; [None] means it was too small. *)
Fixpoint cascade (fuel : nat) (cs : cascadeState) : option cascadeState :=
  match queue cs with
  | [] => Some cs
  | current :: rest =>
      match fuel with
      | O => None
      | S fuel' =>
          cascade fuel'
            (foldl cascadeStep
               (CascadeState (newVals cs) (cascadeAdjustments cs) rest (visited cs))
               (default [] (dependentsMap !! current)))
      end
  end.

(** [setResourceValue(name, valueOrUpdater)].  [rendered] is the [values]
    captured by the callback through [getBounds]; [st] is the state the
    queued updater finds. *)
Definition setResourceValue (ignoreMin : bool)
    (rendered : option (gmap string Z))
    (n : string) (arg : valueOrUpdater) (st : state) : option state :=
  match resourceMap !! n with
  | None => Some st
  | Some resource =>
      let min := computeMin resource rendered in
      let prevVals := values st in
      let prevValue := prevVals !! n in
      match (match arg with Direct v => v | Updater f => f prevValue end) with
      | None => Some st
      | Some proposed =>
          let nextValue :=
            match min with
            | Some m => if negb ignoreMin && (proposed <? m)%Z then m else proposed
            | None => proposed
            end in
          let primaryChange := Change n prevValue nextValue false in
          let start := CascadeState (<[n := nextValue]> prevVals) [] [n] {[n]} in
          match (if negb ignoreMin && Js.gtb (Some nextValue) prevValue
                 then cascade (S (length resourceData)) start
                 else Some (CascadeState (<[n := nextValue]> prevVals) [] [] ∅)) with
          | None => None
          | Some cs =>
              let grouped :=
                primaryChange ::
                map markCascading (cascadeAdjustments cs) in
              Some (State (newVals cs)
                          (foldl appendHistory (histories st) grouped)
                          (actionLog st ++ [grouped]))
          end
      end
  end.

(** [undoLastChange()].  Writing [undefined] back as a previous value is
    modelled by removing the key: both read as [undefined]. *)
Definition undoLastChange (st : state) : state :=
  match last (actionLog st) with
  | None => st
  | Some lastGroup =>
      let newLog := take (length (actionLog st) - 1) (actionLog st) in
      let changes := reverse lastGroup in
      let vals :=
        foldl (fun updated ch =>
                 match prevValue ch with
                 | Some v => <[ch_name ch := v]> updated
                 | None => delete (ch_name ch) updated
                 end)
              (values st) changes in
      let hist :=
        foldl (fun updated n =>
                 let relevant := filter (fun c => ch_name c = n) changes in
                 let lastAppliedNextValues := map nextValue relevant in
                 <[n := popMatching lastAppliedNextValues
                          (default [] (updated !! n))]> updated)
              (histories st) (setOrder [] (map ch_name changes)) in
      State vals hist newLog
  end.

(** [buildInitial()]: every resource at its minimum, in declaration order;
    a minimum that is not a number leaves the entry unreadable. *)
Definition buildInitial : state :=
  let initVals :=
    foldl (fun vs r => match computeMin r (Some vs) with
                       | Some m => <[name r := m]> vs
                       | None => vs
                       end) ∅ resourceData in
  State initVals ((fun v => [v]) <$> initVals) [].

(** The floor every resource with components must respect. *)
Definition floorInvariant (vals : gmap string Z) : Prop :=
  forall r, r ∈ resourceData -> components r <> [] ->
    Js.geb (vals !! name r) (computeMin r (Some vals)) = true.

End WithData.

End Engine.

(** ** src/hooks/useEconomicNoise.js *)

Module Noise.
Import Graph Engine.

(** An entry of [byTier[t].resources] as the noise reads it. *)
Record res := Res {
  res_name : string;
  res_min : option Z;
  res_value : option Z
}.

(** [rand < base + slope * (num / den)] for a positive [slope], with the
    division of JavaScript: a zero denominator gives plus or minus infinity,
    or [NaN] when the numerator is zero too. *)
Definition randBelow (rand base slope : Q) (num den : Z) : bool :=
  if (den =? 0)%Z then (0 <? num)%Z
  else negb (Qle_bool (base + slope * (inject_Z num / inject_Z den)) rand).

(** [computeAdjustment(res)]; [rand1] and [rand2] are the two results of
    [Math.random()], the second one drawn only when the first is at least
    0.4.  The result is [null] ([None]) or [{ name, next }]. *)
Definition computeAdjustment (ignoreMin : bool) (rand1 rand2 : Q) (r : res)
    : option (string * option Z) :=
  if negb (Qle_bool (4 # 10) rand1) then Some (res_name r, res_value r)
  else
    match res_value r, res_min r with
    | Some value, Some min =>
        if ignoreMin then
          let towardsMin := if (min <? value)%Z then (-1)%Z else 1%Z in
          let direction :=
            if randBelow rand2 (5 # 10) (4 # 10) (Z.abs (value - min)) min
            then towardsMin else (- towardsMin)%Z in
          let target := (value + direction)%Z in
          let target := if (target <? 1)%Z then 1%Z else target in
          if (target =? value)%Z then None else Some (res_name r, Some target)
        else
          let direction :=
            if randBelow rand2 (1 # 10) (8 # 10) (value - min) min
            then (-1)%Z else 1%Z in
          let target := (value + direction)%Z in
          let target := if (target <? min)%Z then min else target in
          if (target =? value)%Z then None else Some (res_name r, Some target)
    | Some value, None =>
        (* every comparison with [NaN] is false *)
        let direction := if ignoreMin then (-1)%Z else 1%Z in
        let target := (value + direction)%Z in
        let target := if ignoreMin && (target <? 1)%Z then 1%Z else target in
        if (target =? value)%Z then None else Some (res_name r, Some target)
    | None, _ => Some (res_name r, None)
    end.

Section WithData.
Variable resourceData : list resource.

(** [tick()]: one adjustment per resource of the last render, each applied
    through the captured [setResourceValue], whose own snapshot is
    [captured].  [draws i] holds the random numbers for the resource met at
    position [i]. *)
Fixpoint tick (ignoreMin : bool) (captured : option (gmap string Z))
    (draws : nat -> Q * Q) (i : nat) (resources : list res) (st : state)
    : option state :=
  match resources with
  | [] => Some st
  | r :: resources' =>
      match computeAdjustment ignoreMin (draws i).1 (draws i).2 r with
      | Some (n, next) =>
          match setResourceValue resourceData ignoreMin captured n (Direct next) st with
          | Some st' => tick ignoreMin captured draws (S i) resources' st'
          | None => None
          end
      | None => tick ignoreMin captured draws (S i) resources' st
      end
  end.

(** The [{ min, value, name }] part of the entries of [byTier], for a list
    of resources already in tier order. *)
Definition renderResources (vals : gmap string Z) (rs : list resource) : list res :=
  map (fun r => Res (name r) (computeMin r (Some vals)) (vals !! name r)) rs.

End WithData.

End Noise.


(** ** src/hooks/useContracts.js *)

Module Contracts.
Import Graph Engine.

(** *** Double-precision arithmetic of completion, decay and the escalator

    These three expressions multiply by 0.05 and 1.1, which are not exact in
    binary; they are evaluated here in IEEE binary64, as JavaScript does. *)

(** The double nearest to an integer (exact below 2^53). *)
Definition toDouble (z : Z) : float :=
  SF2Prim (binary_normalize prec emax z 0 false).

(** [Math.floor] of a double, when the result is a finite number. *)
Definition floorDouble (f : float) : option Z :=
  match Prim2SF f with
  | S754_zero _ => Some 0%Z
  | S754_finite s m e =>
      let n := if s then Z.neg m else Z.pos m in
      Some (if (0 <=? e)%Z then n * 2 ^ e else n / 2 ^ (- e))%Z
  | _ => None
  end.

(** [Math.ceil] of a double, when the result is a finite number. *)
Definition ceilDouble (f : float) : option Z :=
  match Prim2SF f with
  | S754_zero _ => Some 0%Z
  | S754_finite s m e =>
      let n := if s then Z.neg m else Z.pos m in
      Some (if (0 <=? e)%Z then n * 2 ^ e else - ((- n) / 2 ^ (- e)))%Z
  | _ => None
  end.

(** [Math.max(2, Math.floor(v * (1 - 0.05 * qty)))] *)
Definition completionValue (v : option Z) (qty : nat) : option Z :=
  match v with
  | None => None
  | Some v =>
      match floorDouble
              (toDouble v * (1 - 0.05 * toDouble (Z.of_nat qty)))%float with
      | Some x => Some (Z.max 2 x)
      | None => None
      end
  end.

(** [Math.ceil(v * (1 + 0.05 * qty))] *)
Definition decayValue (v : option Z) (qty : nat) : option Z :=
  match v with
  | None => None
  | Some v => ceilDouble (toDouble v * (1 + 0.05 * toDouble (Z.of_nat qty)))%float
  end.

(** *** Contracts *)

(** A contract.  [c_value] and [c_reward] are [NaN] ([None]) when the bundle
    was drawn from a name without a value; [c_maxResources] is [None] for
    [Infinity]. *)
Record contract := Contract {
  c_value : option Z;
  c_reward : option Z;
  c_resources : list (string * nat);
  c_id : Z;
  c_label : string;
  c_difficulty : Q;
  c_rewardRange : Q * Q;
  c_maxResources : option nat
}.

(** State of the hook together with the resource state it writes to. *)
Record hook := Hook {
  contracts : list contract;
  currentTargetValue : float;
  engine : state
}.

(** [obj[key] = (obj[key] || 0) + 1] on a dictionary kept in insertion
    order. *)
Fixpoint bump (selected : list (string * nat)) (key : string)
    : list (string * nat) :=
  match selected with
  | [] => [(key, 1)]
  | (k, q) :: rest =>
      if decide (k = key) then (k, q + 1) :: rest else (k, q) :: bump rest key
  end.

(** [dict[key]] on ordered entries. *)
Definition entryOf {A} (dict : list (string * A)) (key : string) : option A :=
  snd <$> List.find (fun e => bool_decide (fst e = key)) dict.

(** [Math.floor(rand * n)] for a draw [rand] of [Math.random()], which lies
    in the interval from 0 (included) to 1 (excluded). *)
Definition randomIndex (rand : Q) (n : nat) : nat :=
  Z.to_nat (Qfloor (rand * inject_Z (Z.of_nat n))).

(** [currentValue < scaledTarget] *)
Definition belowTarget (currentValue : option Z) (scaledTarget : Q) : bool :=
  match currentValue with
  | Some v => negb (Qle_bool scaledTarget (inject_Z v))
  | None => false
  end.

(** [x > scaledTarget] *)
Definition aboveTarget (x : option Z) (scaledTarget : Q) : bool :=
  match x with
  | Some v => negb (Qle_bool (inject_Z v) scaledTarget)
  | None => false
  end.

Section Generate.
(** The [values] dictionary as its entries in [Object.entries] order. *)
Variable values : list (string * Z).
Variable scaledTarget : Q.
Variable maxResources : option nat.
(** The draws of [Math.random()] made by the accumulation loop, by
    iteration. *)
Variable draws : nat -> Q.

(** The loop of specialist mode.  An index past the end of the array, and a
    name without a value, read as [undefined]. *)
Fixpoint specialistLoop (specialistResource : list string) (fuel : nat)
    (i : nat) (currentValue : option Z) (selectedResources : list (string * nat))
    : option (option Z * list (string * nat)) :=
  if belowTarget currentValue scaledTarget then
    match fuel with
    | O => None
    | S fuel' =>
        let resName :=
          nth (randomIndex (draws i) (length specialistResource))
              specialistResource "undefined" in
        let resValue := entryOf values resName in
        if aboveTarget (Js.add resValue currentValue) scaledTarget
        then Some (currentValue, selectedResources)
        else specialistLoop specialistResource fuel' (S i)
               (Js.add currentValue resValue) (bump selectedResources resName)
    end
  else Some (currentValue, selectedResources).

(** [Object.keys(selectedResources).length < maxResources] *)
Definition underCap (selectedResources : list (string * nat)) : bool :=
  match maxResources with
  | Some cap => Nat.ltb (length selectedResources) cap
  | None => true
  end.

(** The filter of general mode. *)
Definition eligible (currentValue : Z) (selectedResources : list (string * nat))
    : list (string * Z) :=
  List.filter
    (fun e => Qle_bool (inject_Z (snd e + currentValue)) scaledTarget
              && (underCap selectedResources
                  || bool_decide (is_Some (entryOf selectedResources (fst e)))))
    values.

(** The loop of general mode. *)
Fixpoint generalLoop (fuel : nat) (i : nat) (currentValue : Z)
    (selectedResources : list (string * nat))
    : option (Z * list (string * nat)) :=
  if belowTarget (Some currentValue) scaledTarget then
    match fuel with
    | O => None
    | S fuel' =>
        match eligible currentValue selectedResources with
        | [] => Some (currentValue, selectedResources)
        | (e0 :: _) as resourceEntries =>
            let '(resourceName, resourceValue) :=
              nth (randomIndex (draws i) (length resourceEntries))
                  resourceEntries e0 in
            generalLoop fuel' (S i) (currentValue + resourceValue)%Z
              (bump selectedResources resourceName)
        end
    end
  else Some (currentValue, selectedResources).
End Generate.

(** The double that a rational setting or draw stands for: the quotient of
    its numerator by its denominator as binary64 rounds it, which is the
    number itself when it is a double (of magnitude above 2^-970). *)
Definition ofQ (q : Q) : float :=
  let r := Qred q in
  (toDouble (Qnum r) / toDouble (Zpos (Qden r)))%float.

(** [minMult] and [maxMult]: comparisons only, exact on the rationals. *)
Definition minMult (rewardMinMultiplier rewardMaxMultiplier : Q) : Q :=
  Qmax (1 # 10) (Qmin rewardMinMultiplier rewardMaxMultiplier).

Definition maxMult (rewardMinMultiplier rewardMaxMultiplier : Q) : Q :=
  Qmax (minMult rewardMinMultiplier rewardMaxMultiplier) rewardMaxMultiplier.

(** [minMult + Math.random() * (maxMult - minMult)], in binary64. *)
Definition multiplier (rewardMinMultiplier rewardMaxMultiplier rand : Q)
    : float :=
  let minMult := ofQ (minMult rewardMinMultiplier rewardMaxMultiplier) in
  let maxMult := ofQ (maxMult rewardMinMultiplier rewardMaxMultiplier) in
  (minMult + ofQ rand * (maxMult - minMult))%float.

(** [Math.floor(currentValue * (minMult + Math.random() * (maxMult - minMult)))],
    in binary64; [None] when the result is not a finite number. *)
Definition rewardOf (currentValue : option Z)
    (rewardMinMultiplier rewardMaxMultiplier rand : Q) : option Z :=
  match currentValue with
  | Some v =>
      floorDouble
        (toDouble v * multiplier rewardMinMultiplier rewardMaxMultiplier rand)%float
  | None => None
  end.

(** Every call of [Math.random()] of one contract generation.  [shuffled] is
    the key array after [sort(() => 0.5 - Math.random())]. *)
Record randomness := Randomness {
  specialistDraw : Q;
  countDraw : Q;
  shuffled : list string;
  loopDraws : nat -> Q;
  labelDraw : Q;
  rewardDraw : Q
}.

(** The label of a new contract. *)
Definition pickLabel (ContractLabels : list string) (existing : list contract)
    (rand : Q) (id : Z) : string :=
  let existingLabels := map c_label existing in
  match List.filter (fun l => negb (bool_decide (l ∈ existingLabels)))
                    ContractLabels with
  | [] => String.append "Contract " (pretty (id + 1)%Z)
  | (l0 :: _) as availableLabels =>
      nth (randomIndex rand (length availableLabels)) availableLabels l0
  end.

(** [generateRandomContract(targetValue, id)].  The first arguments are what
    the callback captures; [ContractLabels] comes from a module outside the
    sources at hand; [fuel] bounds the accumulation loop. *)
Definition generateRandomContract (values : list (string * Z))
    (existing : list contract) (contractDifficulty : Q)
    (rewardMinMultiplier rewardMaxMultiplier : Q) (maxResources : option nat)
    (ContractLabels : list string)
    (rnd : randomness) (fuel : nat) (targetValue : Q) (id : Z)
    : option contract :=
  let scaledTarget := (targetValue * contractDifficulty)%Q in
  let isSpecialist := negb (Qle_bool (1 # 2) (specialistDraw rnd)) in
  match
    (if isSpecialist then
       let numSpecialists :=
         if negb (Qle_bool (1 # 2) (countDraw rnd)) then 1 else 2 in
       let specialistResource :=
         take (match maxResources with
               | Some cap => Nat.min numSpecialists cap
               | None => numSpecialists
               end) (shuffled rnd) in
       specialistLoop values scaledTarget (loopDraws rnd)
         specialistResource fuel 0 (Some 0%Z) []
     else
       match generalLoop values scaledTarget maxResources (loopDraws rnd)
               fuel 0 0%Z [] with
       | Some (v, sel) => Some (Some v, sel)
       | None => None
       end)
  with
  | None => None
  | Some (currentValue, selectedResources) =>
      Some (Contract currentValue
              (rewardOf currentValue rewardMinMultiplier rewardMaxMultiplier
                        (rewardDraw rnd))
              selectedResources id
              (pickLabel ContractLabels existing (labelDraw rnd) id)
              contractDifficulty
              (minMult rewardMinMultiplier rewardMaxMultiplier,
               maxMult rewardMinMultiplier rewardMaxMultiplier)
              maxResources)
  end.

Section WithData.
Variable resourceData : list resource.

(** [Object.entries(contract.resources).forEach(([name, qty]) =>
      setResourceValue(name, f(values[name], qty)))] *)
Fixpoint applyBundle (ignoreMin : bool) (rendered : gmap string Z)
    (f : option Z -> nat -> option Z)
    (bundle : list (string * nat)) (e : state) : option state :=
  match bundle with
  | [] => Some e
  | (n, qty) :: rest =>
      match setResourceValue resourceData ignoreMin (Some rendered) n
              (Direct (f (rendered !! n) qty)) e with
      | Some e' => applyBundle ignoreMin rendered f rest e'
      | None => None
      end
  end.

(** [completeContract(contractId)].  [rendered] and [renderedContracts] are
    the [values] and [contracts] of the render that created the callback. *)
Definition completeContract (ignoreMin : bool) (rendered : gmap string Z)
    (renderedContracts : list contract) (contractId : Z) (st : hook)
    : option hook :=
  let contract :=
    List.find (fun c => bool_decide (c_id c = contractId)) renderedContracts in
  let contracts' :=
    List.filter (fun c => negb (bool_decide (c_id c = contractId))) (contracts st) in
  let target' := (currentTargetValue st * 1.1)%float in
  match contract with
  | Some c =>
      match applyBundle ignoreMin rendered completionValue
              (c_resources c) (engine st) with
      | Some e => Some (Hook contracts' target' e)
      | None => None
      end
  | None => Some (Hook contracts' target' (engine st))
  end.

(** [onContractDecay(contractId)] *)
Definition onContractDecay (ignoreMin : bool) (rendered : gmap string Z)
    (renderedContracts : list contract) (contractId : Z) (st : hook)
    : option hook :=
  let contract :=
    List.find (fun c => bool_decide (c_id c = contractId)) renderedContracts in
  let contracts' :=
    List.filter (fun c => negb (bool_decide (c_id c = contractId))) (contracts st) in
  match contract with
  | Some c =>
      match applyBundle ignoreMin rendered decayValue
              (c_resources c) (engine st) with
      | Some e => Some (Hook contracts' (currentTargetValue st) e)
      | None => None
      end
  | None => Some (Hook contracts' (currentTargetValue st) (engine st))
  end.

End WithData.

End Contracts.


(** ** src/constants/resources.js: tier labels and the exported list *)

Module Catalog.
Import Graph.

(** [resourceTiers] as declared. *)
Definition resourceTiers : gmap nat string :=
  {[ 1 := "Basic"; 2 := "Intermediate"; 3 := "Advanced" ]}.

(** [Math.max(...Object.values(tierCache))]: [NaN] ([None]) as soon as one
    entry is not a number.  The maximum of no value, minus infinity, is 0
    here: the loop below runs in neither case. *)
Definition maxTier (st : tstate) : option nat :=
  max_list <$> mapM number (snd <$> map_to_list (tierCache st)).

(** [for (let t = 4; t <= maxTier; t++)
      if (!resourceTiers[t]) resourceTiers[t] = `Tier ${t}`];
    an absent label and the empty string are both falsy. *)
Definition expandStep (labels : gmap nat string) (t : nat) : gmap nat string :=
  match labels !! t with
  | Some (String _ _) => labels
  | _ => <[t := "Tier " +:+ pretty t]> labels
  end.

Definition expandTiers (labels : gmap nat string) (maxTier : nat)
    : gmap nat string :=
  foldl expandStep labels (seq 4 (maxTier - 3)).

(** A resource as the hooks take it, [{ ...r, tier }], with a tier that is
    a number or [undefined]. *)
Record tiered := Tiered {
  raw : resource;
  tier : option nat
}.

(** [rawResources.map(r => ({ ...r, tier: tierCache[r.name] }))]: each
    declaration with the value read for its tier. *)
Definition resources (rs : list resource) (st : tstate)
    : list (resource * option tierValue) :=
  map (fun r => (r, tierOf st (name r))) rs.

(** What the module exports once its top-level statements have run:
    the labels and the resources, or the error that stopped it.  No label
    is added when [maxTier] is [NaN]. *)
Definition exports (rs : list resource)
    : outcome (gmap nat string * list (resource * option tierValue)) :=
  match initTiers rs with
  | Ok st =>
      Ok (match maxTier st with
          | Some m => expandTiers resourceTiers m
          | None => resourceTiers
          end, resources rs st)
  | Throw e => Throw e
  | OutOfFuel => OutOfFuel
  end.

End Catalog.

(** ** src/hooks/useResources.js: effects, reset and the grouping by tier *)

Module Effects.
Import Graph Engine Catalog.

(** An entry of [byTier[t].resources]; [setValue] is
    [v => setResourceValue(r.name, v)] and is not kept here. *)
Record entry := Entry {
  e_resource : tiered;
  e_min : option Z;
  e_value : option Z;
  e_history : list Z;
  e_canUndo : bool
}.

(** [{ tier, label, resources }] *)
Record column := Column {
  col_tier : option nat;
  col_label : option string;
  col_resources : list entry
}.

(** Enumeration order of the keys of [tiers]: integer keys in ascending
    order, then the string key that an [undefined] tier gives. *)
Definition keyBefore (a b : option nat) : bool :=
  match a, b with
  | Some x, Some y => Nat.ltb x y
  | Some _, None => true
  | None, _ => false
  end.

(** [if (!tiers[t]) tiers[t] = { tier: t, label, resources: [] };
    tiers[t].resources.push(e)] on an object kept in enumeration order. *)
Fixpoint pushEntry (labels : gmap nat string) (tiers : list column)
    (e : entry) : list column :=
  let t := tier (e_resource e) in
  match tiers with
  | [] => [Column t (t ≫= fun k => labels !! k) [e]]
  | col :: rest =>
      if decide (col_tier col = t)
      then Column (col_tier col) (col_label col) (col_resources col ++ [e]) :: rest
      else if keyBefore t (col_tier col)
           then Column t (t ≫= fun k => labels !! k) [e] :: col :: rest
           else col :: pushEntry labels rest e
  end.

(** The entry rendered for one resource. *)
Definition render (st : state) (r : tiered) : entry :=
  let history := default [] (histories st !! name (raw r)) in
  Entry r (computeMin (raw r) (Some (values st))) (values st !! name (raw r))
        history (Nat.ltb 1 (length history)).

(** [byTier], as the list of its values in enumeration order.  The
    minimum of each entry comes from [getBounds] of the same render. *)
Definition byTier (labels : gmap nat string) (resourceData : list tiered)
    (st : state) : list column :=
  foldl (pushEntry labels) [] (map (render st) resourceData).

(** [Object.values(byTier).flatMap(t => t.resources || [])] *)
Definition flatResources (tiers : list column) : list entry :=
  flat_map col_resources tiers.

(** What the noise reads of an entry. *)
Definition toRes (e : entry) : Noise.res :=
  Noise.Res (name (raw (e_resource e))) (e_min e) (e_value e).

Section WithData.
Variable resourceData : list resource.

(** The effect that sets up the initial values: nothing to do when the
    dictionary has as many keys as there are resources; otherwise every
    resource without a number gets its minimum, in declaration order.  A
    minimum that is not a number leaves the entry unreadable. *)
Definition initialValues (prevVals : gmap string Z) : gmap string Z :=
  if decide (size prevVals = length resourceData) then prevVals
  else
    foldl (fun newVals r =>
             match newVals !! name r with
             | Some _ => newVals
             | None =>
                 match computeMin r (Some newVals) with
                 | Some m => <[name r := m]> newVals
                 | None => newVals
                 end
             end) prevVals resourceData.

(** The body of the loop of the effect that runs when [ignoreMin] changes.
    [rendered] is the [values] that [getBounds] captured, [prevVals] the
    dictionary the updater received; the state carries [newVals], the
    histories and the log as the three setters leave them. *)
Definition enforceStep (rendered : option (gmap string Z))
    (prevVals : gmap string Z) (st : state) (r : resource) : state :=
  let min := computeMin r rendered in
  let v := prevVals !! name r in
  match min with
  | Some m =>
      if Js.ltb v min then
        State (<[name r := m]> (values st))
              (let arr := default [] (histories st !! name r) in
               if decide (last arr = Some m) then histories st
               else <[name r := arr ++ [m]]> (histories st))
              (actionLog st ++ [[Change (name r) v m false]])
      else st
  | None => st
  end.

(** The effect itself: [if (ignoreMin) return; setValues(prevVals => ...)]. *)
Definition enforceMinimums (ignoreMin : bool)
    (rendered : option (gmap string Z)) (st : state) : state :=
  if ignoreMin then st
  else foldl (enforceStep rendered (values st)) st resourceData.

(** [resetResources()] *)
Definition resetResources (st : state) : state := buildInitial resourceData.

(** [canUndoLastChange] *)
Definition canUndoLastChange (st : state) : bool :=
  Nat.ltb 0 (length (actionLog st)).

End WithData.

End Effects.

(** ** components/Contract.jsx, which follows the hook in
       src/hooks/useWebStorage.ts *)

Module ContractCard.

(** [currentMarketValue]: [resourceEntries] are the entries of the bundle in
    display order. *)
Definition currentMarketValue (currentValues : option (gmap string Z))
    (resourceEntries : list (string * nat)) : Z :=
  match currentValues with
  | None => 0%Z
  | Some vs =>
      foldl (fun sum r => (sum + default 0 (vs !! r.1) * Z.of_nat r.2)%Z)
            0%Z resourceEntries
  end.

End ContractCard.

(** ** src/hooks/useContracts.js: the pool of active contracts *)

Module Pool.
Import Graph Engine Contracts.

(** [prev.slice(0, k)] for an integer [k]: a negative [k] counts from the
    end. *)
Definition slice0 {A} (k : Z) (prev : list A) : list A :=
  if (k <? 0)%Z then take (Z.to_nat (Z.of_nat (length prev) + k)) prev
  else take (Z.to_nat k) prev.

Section WithRender.
(** What [generateRandomContract] captured at the last render. *)
Variable values : list (string * Z).
Variable renderedContracts : list contract.
Variable contractDifficulty : Q.
Variable rewardMinMultiplier rewardMaxMultiplier : Q.
Variable maxResources : option nat.
Variable ContractLabels : list string.
(** [Date.now()], the draw of the identifier and the draws of the
    generation, by iteration of the loop of [addNewContract]. *)
Variable now : nat -> Z.
Variable idDraws : nat -> Q.
Variable rnds : nat -> randomness.
Variable fuel : nat.

(** The loop of [addNewContract], from iteration [i] on, with [left]
    iterations to go. *)
Fixpoint newContracts (targetValue : Q) (i : nat) (left : nat)
    : option (list contract) :=
  match left with
  | O => Some []
  | S left' =>
      let id := (now i + Qfloor (idDraws i * 1000) + Z.of_nat i)%Z in
      match generateRandomContract values renderedContracts contractDifficulty
              rewardMinMultiplier rewardMaxMultiplier maxResources
              ContractLabels (rnds i) fuel targetValue id with
      | Some c =>
          match newContracts targetValue (S i) left' with
          | Some cs => Some (c :: cs)
          | None => None
          end
      | None => None
      end
  end.

(** [addNewContract(targetValue, repeat)] for an integer [repeat]. *)
Definition addNewContract (targetValue : Q) (repeat : Z)
    (prev : list contract) : option (list contract) :=
  match newContracts targetValue 0 (Z.to_nat repeat) with
  | Some new => Some (new ++ prev)
  | None => None
  end.

(** The effect that maintains the number of contracts.  [targetValue] is
    the rendered [currentTargetValue]; [contractCount] is [None] for [null]
    or [undefined]. *)
Definition maintainCount (paused : bool) (contractCount : option Z)
    (targetValue : Q) (prev : list contract) : option (list contract) :=
  if paused then Some prev
  else
    match contractCount with
    | None => Some prev
    | Some k =>
        let len := Z.of_nat (length renderedContracts) in
        if (len <? k)%Z then addNewContract targetValue (k - len) prev
        else if (k <? len)%Z then Some (slice0 k prev)
        else Some prev
    end.

(** [reset()]: the contracts and the escalator of the hook after it. *)
Definition reset (paused : bool) (contractCount : option Z) (startValue : Z)
    (st : hook) : option hook :=
  let truthy := match contractCount with
                | Some k => negb (k =? 0)%Z
                | None => false
                end in
  match (if negb paused && truthy
         then addNewContract (inject_Z startValue) (default 0%Z contractCount) []
         else Some []) with
  | Some cs => Some (Hook cs (toDouble startValue) (engine st))
  | None => None
  end.

End WithRender.

End Pool.

(** ** src/hooks/useWebStorage.ts *)

Module WebStorage.

(** [`${primaryKey}:${entryKey}:${version}`] *)
Definition createStorageKey (primaryKey entryKey version : string) : string :=
  primaryKey +:+ ":" +:+ entryKey +:+ ":" +:+ version.

(** A [StorageEvent]: whether [event.storageArea] is the storage of the
    hook, the key and the new value, [None] for [null]. *)
Record StorageEvent := Event {
  sameArea : bool;
  key : option string;
  newValue : option string
}.

Section Hook.
Context {S : Type}.
Variable serializer : S -> string.
Variable deserializer : string -> S.

Record StorageState := Stored {
  value : S;
  propagateToStorage : bool
}.

(** The argument of the setter: a value, or a function of the old value. *)
Inductive update :=
| Value (s : S)
| Function (f : S -> S).

(** The initialiser of the state of the hook; a [Storage] object is a
    dictionary of strings. *)
Definition initialState (storage : gmap string string) (storageKey : string)
    (defaultValue : S) : StorageState :=
  match storage !! storageKey with
  | None => Stored defaultValue false
  | Some storedValue => Stored (deserializer storedValue) false
  end.

(** [createStateUpdater(propagateToStorage)(state)] *)
Definition updateState (propagate : bool) (state : update)
    (oldState : StorageState) : StorageState :=
  match state with
  | Function f => Stored (f (value oldState)) propagate
  | Value s => Stored s propagate
  end.

(** The effect that follows a change of the state:
    [if (state.propagateToStorage) updateStorage(state.value)]. *)
Definition propagate (storageKey : string) (state : StorageState)
    (storage : gmap string string) : gmap string string :=
  if propagateToStorage state
  then <[storageKey := serializer (value state)]> storage
  else storage.

(** [createStorageEventHandler(...)(event)]; the handler updates the state
    through [updateStateNoPropagation]. *)
Definition storageEventHandler (storageKey : string) (defaultValue : S)
    (currentState : S) (event : StorageEvent) (st : StorageState)
    : StorageState :=
  if sameArea event && bool_decide (key event = Some storageKey) then
    if bool_decide (newValue event = Some (serializer currentState)) then st
    else
      match newValue event with
      | None => updateState false (Value defaultValue) st
      | Some s => updateState false (Value (deserializer s)) st
      end
  else st.

End Hook.

End WebStorage.

(** ** src/App.jsx: the handlers of the two reward multipliers *)

Module Settings.

(** The two persisted settings. *)
Record payout := Payout {
  minPayoutMult : Q;
  maxPayoutMult : Q
}.

(** [onChangeRewardMinMultiplier(v)]; [rendered] holds the settings of the
    render that created the handler. *)
Definition onChangeRewardMinMultiplier (rendered : payout) (v : Q)
    (st : payout) : payout :=
  let clamped := Qmax (1 # 10) (Qmin 5 v) in
  let st1 := if Qle_bool clamped (maxPayoutMult rendered) then st
             else Payout (minPayoutMult st) clamped in
  Payout clamped (maxPayoutMult st1).

(** [onChangeRewardMaxMultiplier(v)] *)
Definition onChangeRewardMaxMultiplier (rendered : payout) (v : Q)
    (st : payout) : payout :=
  let clamped := Qmax (1 # 10) (Qmin 6 v) in
  let st1 := if Qle_bool (minPayoutMult rendered) clamped then st
             else Payout clamped (maxPayoutMult st) in
  Payout (minPayoutMult st1) clamped.

End Settings.


(** ** Tier derivation: memoised depth-first search with cycle detection *)

Module GraphFacts.
Import Graph.

(** *** Configurations with ordinary names

    When no name that the derivation meets is a property every object
    inherits, each read of [tierCache] and of [rawMap] finds an own entry or
    [undefined], and every tier is a number.  The derivation then is the
    walk below over dictionaries of numbers (lemma [initTiers_walk]); the
    facts about the derivation are shown on the walk and carried over. *)

Record walk := Walk {
  found : gmap string nat;
  path : gset string
}.

Fixpoint walkTiers (f : string -> walk -> outcome (nat * walk))
    (cs : list string) (st : walk) : outcome (list nat * walk) :=
  match cs with
  | [] => Ok ([], st)
  | c :: cs' =>
      match f c st with
      | Ok (t, st1) =>
          match walkTiers f cs' st1 with
          | Ok (ts, st2) => Ok (t :: ts, st2)
          | Throw e => Throw e
          | OutOfFuel => OutOfFuel
          end
      | Throw e => Throw e
      | OutOfFuel => OutOfFuel
      end
  end.

Fixpoint walkTier (rawMap : gmap string resource) (fuel : nat) (n : string)
    (st : walk) : outcome (nat * walk) :=
  match fuel with
  | O => OutOfFuel
  | S fuel' =>
      match found st !! n with
      | Some (S t) => Ok (S t, st)
      | _ =>
          match rawMap !! n with
          | None => Throw (UnknownResource n)
          | Some res =>
              if decide (n ∈ path st) then Throw (CircularDependency n)
              else
                match components res with
                | [] => Ok (1, Walk (<[n := 1]> (found st)) (path st))
                | _ :: _ =>
                    match walkTiers (walkTier rawMap fuel') (components res)
                            (Walk (found st) ({[n]} ∪ path st)) with
                    | Ok (compTiers, st1) =>
                        let t := max_list compTiers + 1 in
                        Ok (t, Walk (<[n := t]> (found st1))
                                    (path st1 ∖ {[n]}))
                    | Throw e => Throw e
                    | OutOfFuel => OutOfFuel
                    end
                end
          end
      end
  end.

Fixpoint walkAll (rawMap : gmap string resource) (fuel : nat)
    (rs : list resource) (st : walk) : outcome walk :=
  match rs with
  | [] => Ok st
  | r :: rs' =>
      match walkTier rawMap fuel (name r) st with
      | Ok (_, st1) => walkAll rawMap fuel rs' st1
      | Throw e => Throw e
      | OutOfFuel => OutOfFuel
      end
  end.

Definition walkInit (rs : list resource) : outcome walk :=
  walkAll (fromEntries rs) (S (length rs)) rs (Walk ∅ ∅).

Section Tiers.
Variable rawMap : gmap string resource.

(** What a cache entry must say about its resource. *)
Definition entry_ok (cache : gmap string nat) (n : string) (t : nat) : Prop :=
  exists r, rawMap !! n = Some r /\
    match components r with
    | [] => t = 1
    | _ :: _ =>
        exists ts, Forall2 (fun c tc => cache !! c = Some tc) (components r) ts
                   /\ t = max_list ts + 1
    end.

Definition consistent (cache : gmap string nat) : Prop :=
  forall n t, cache !! n = Some t -> entry_ok cache n t.

Lemma entry_ok_weaken cache cache' n t :
  cache ⊆ cache' -> entry_ok cache n t -> entry_ok cache' n t.
Proof.
  intros Hsub (r & Hr & Hc). exists r. split; [done|].
  destruct (components r) as [|c cs]; [done|].
  destruct Hc as (ts & Hall & ->). exists ts. split; [|done].
  eapply Forall2_impl; [exact Hall|].
  intros x y Hxy. simpl in *. by eapply lookup_weaken.
Qed.

Lemma entry_ok_pos cache n t : entry_ok cache n t -> 1 <= t.
Proof.
  intros (r & _ & Hc). destruct (components r); [lia|].
  destruct Hc as (ts & _ & ->). lia.
Qed.

Lemma consistent_empty : consistent ∅.
Proof. intros n t H. by rewrite lookup_empty in H. Qed.

(** A cached resource has every component cached, at a smaller tier. *)
Lemma consistent_edge cache a b t :
  consistent cache -> cache !! a = Some t -> edge rawMap a b ->
  exists t', cache !! b = Some t' /\ t' < t.
Proof.
  intros Hc Ha (r & Hr & Hb).
  destruct (Hc _ _ Ha) as (r' & Hr' & Hm).
  assert (r' = r) as -> by congruence.
  destruct (components r) as [|c cs] eqn:E; [by apply elem_of_nil in Hb|].
  destruct Hm as (ts & Hall & ->).
  destruct (proj1 (list_elem_of_lookup _ _) Hb) as [i Hi].
  destruct (Forall2_lookup_l _ _ _ _ _ Hall Hi) as (t' & Hts & Hl).
  exists t'. split; [done|].
  assert (t' <= max_list ts); [|lia].
  apply max_list_elem_of_le. by eapply list_elem_of_lookup_2.
Qed.

Lemma consistent_tc cache a b t :
  consistent cache -> tc (edge rawMap) a b -> cache !! a = Some t ->
  exists t', cache !! b = Some t' /\ t' < t.
Proof.
  intros Hc Htc. revert t. induction Htc as [x y H|x y z H _ IH]; intros t Hx.
  - by eapply consistent_edge.
  - destruct (consistent_edge _ _ _ _ Hc Hx H) as (ty & Hy & Hlt).
    destruct (IH _ Hy) as (tz & Hz & Hlt'). exists tz. split; [done|lia].
Qed.

(** No cached resource lies on a cycle. *)
Lemma consistent_acyclic cache n t :
  consistent cache -> cache !! n = Some t -> ~ tc (edge rawMap) n n.
Proof.
  intros Hc Hn Htc.
  destruct (consistent_tc _ _ _ _ Hc Htc Hn) as (t' & Hn' & Hlt).
  assert (t' = t) by congruence. lia.
Qed.

(** Postcondition of a successful [walkTier name]. *)
Definition tier_post (st st' : walk) (n : string) (t : nat) : Prop :=
  consistent (found st') /\
  found st ⊆ found st' /\
  found st' !! n = Some t /\
  path st' = path st /\
  (forall v, v ∈ path st -> found st' !! v = found st !! v).

(** What each outcome of [walkTier fuel n st] guarantees. *)
Definition tier_spec (n : string) (st : walk)
    (o : outcome (nat * walk)) : Prop :=
  match o with
  | Ok (t, st') => tier_post st st' n t
  | Throw (UnknownResource m) =>
      rawMap !! m = None /\ (m = n \/ exists a, edge rawMap a m)
  | Throw (CircularDependency m) => tc (edge rawMap) m m
  | OutOfFuel => False
  end.

Definition tiers_spec (cs : list string) (st : walk)
    (o : outcome (list nat * walk)) : Prop :=
  match o with
  | Ok (ts, st') =>
      consistent (found st') /\
      found st ⊆ found st' /\
      Forall2 (fun c t => found st' !! c = Some t) cs ts /\
      path st' = path st /\
      (forall v, v ∈ path st -> found st' !! v = found st !! v)
  | Throw (UnknownResource m) =>
      rawMap !! m = None /\ (m ∈ cs \/ exists a, edge rawMap a m)
  | Throw (CircularDependency m) => tc (edge rawMap) m m
  | OutOfFuel => False
  end.

Lemma walkTiers_spec (f : string -> walk -> outcome (nat * walk)) (k : nat) :
  (forall c st,
      consistent (found st) ->
      (forall v, v ∈ path st -> tc (edge rawMap) v c) ->
      size (dom rawMap ∖ path st) < k ->
      tier_spec c st (f c st)) ->
  forall cs st,
    consistent (found st) ->
    (forall c v, c ∈ cs -> v ∈ path st -> tc (edge rawMap) v c) ->
    size (dom rawMap ∖ path st) < k ->
    tiers_spec cs st (walkTiers f cs st).
Proof.
  intros Hf cs. induction cs as [|c cs IH]; intros st Hc Hv Hk; simpl.
  - repeat split; auto.
  - pose proof (Hf c st Hc (fun v Hvin => Hv c v (list_elem_of_here _ _) Hvin) Hk) as H1.
    destruct (f c st) as [[t st1]|[m|m]|]; simpl in H1; [| |done|done].
    + destruct H1 as (Hc1 & Hsub1 & Hn1 & Hvis1 & Hkeep1).
      assert (Hv1 : forall c' v, c' ∈ cs -> v ∈ path st1 -> tc (edge rawMap) v c').
      { intros c' v Hc' Hvin. rewrite Hvis1 in Hvin.
        apply Hv; [by apply list_elem_of_further|done]. }
      assert (Hk1 : size (dom rawMap ∖ path st1) < k) by (by rewrite Hvis1).
      pose proof (IH st1 Hc1 Hv1 Hk1) as H2.
      destruct (walkTiers f cs st1) as [[ts st2]|[m|m]|]; simpl in H2 |- *;
        [| |done|done].
      * destruct H2 as (Hc2 & Hsub2 & Hall2 & Hvis2 & Hkeep2).
        split; [done|]. split; [by etrans|].
        split; [constructor; [by eapply lookup_weaken|done]|].
        split; [congruence|].
        intros v Hvin. rewrite Hkeep2; [by apply Hkeep1|by rewrite Hvis1].
      * destruct H2 as [Hm [Hin|Hex]]; (split; [done|]);
          [left; by apply list_elem_of_further|by right].
    + destruct H1 as [Hm [->|Hex]]; (split; [done|]);
        [left; apply list_elem_of_here|by right].
Qed.

Lemma walkTier_spec fuel : forall n st,
  consistent (found st) ->
  (forall v, v ∈ path st -> tc (edge rawMap) v n) ->
  size (dom rawMap ∖ path st) < fuel ->
  tier_spec n st (walkTier rawMap fuel n st).
Proof.
  induction fuel as [|fuel IH]; intros n st Hc Hv Hk; [lia|].
  simpl.
  destruct (found st !! n) as [t0|] eqn:Hcache.
  { pose proof (entry_ok_pos _ _ _ (Hc _ _ Hcache)) as Hpos.
    destruct t0 as [|t0]; [lia|]. simpl. unfold tier_post. auto 10. }
  assert (Hgoal : tier_spec n st
    match rawMap !! n with
    | Some res =>
        if decide (n ∈ path st) then Throw (CircularDependency n)
        else match components res with
             | [] => Ok (1, Walk (<[n:=1]> (found st)) (path st))
             | _ :: _ =>
                 match walkTiers (walkTier rawMap fuel) (components res)
                         (Walk (found st) ({[n]} ∪ path st)) with
                 | Ok (compTiers, st1) =>
                     Ok (max_list compTiers + 1,
                         Walk (<[n:=max_list compTiers + 1]> (found st1))
                                (path st1 ∖ {[n]}))
                 | Throw e => Throw e
                 | OutOfFuel => OutOfFuel
                 end
             end
    | None => Throw (UnknownResource n)
    end); [|exact Hgoal].
  destruct (rawMap !! n) as [res|] eqn:Hres; [|simpl; auto].
  destruct (decide (n ∈ path st)) as [Hin|Hnin]; [simpl; auto|].
  destruct (components res) as [|c0 cs0] eqn:Hcomp.
  { simpl. unfold tier_post; simpl.
    assert (Hsub : found st ⊆ <[n:=1]> (found st)) by (by apply insert_subseteq).
    split.
    { intros m t Hm. destruct (decide (m = n)) as [->|Hne].
      - rewrite lookup_insert_eq in Hm. injection Hm as <-.
        exists res. by rewrite Hcomp.
      - rewrite lookup_insert_ne in Hm by done.
        eapply entry_ok_weaken; [exact Hsub|by apply Hc]. }
    split; [done|]. split; [by rewrite lookup_insert_eq|]. split; [done|].
    intros v Hvin. rewrite lookup_insert_ne; [done|]. intros ->. done. }
  rewrite <- Hcomp.
  set (st0 := Walk (found st) ({[n]} ∪ path st)).
  assert (Hsize : size (dom rawMap ∖ path st0) < fuel).
  { simpl. assert (size (dom rawMap ∖ ({[n]} ∪ path st))
                   < size (dom rawMap ∖ path st)); [|lia].
    apply subset_size. apply elem_of_dom_2 in Hres. set_solver. }
  assert (Hstack : forall c v, c ∈ components res -> v ∈ path st0 ->
                               tc (edge rawMap) v c).
  { intros c v Hcin Hvin. simpl in Hvin.
    assert (He : edge rawMap n c) by (by exists res).
    apply elem_of_union in Hvin as [Hvn|Hvin].
    - apply elem_of_singleton in Hvn as ->. by apply tc_once.
    - eapply tc_r; [by apply Hv|done]. }
  pose proof (walkTiers_spec (walkTier rawMap fuel) fuel IH
                (components res) st0 Hc Hstack Hsize) as Hmap.
  destruct (walkTiers (walkTier rawMap fuel) (components res) st0)
    as [[ts st1]|[m|m]|]; simpl in Hmap |- *; [| |done|done].
  - destruct Hmap as (Hc1 & Hsub1 & Hall1 & Hvis1 & Hkeep1).
    assert (Hn1 : found st1 !! n = None).
    { rewrite Hkeep1; [done|set_solver]. }
    assert (Hsub : found st1 ⊆ <[n:=max_list ts + 1]> (found st1))
      by (by apply insert_subseteq).
    unfold tier_post; simpl. split.
    { intros m t Hm. destruct (decide (m = n)) as [->|Hne].
      - rewrite lookup_insert_eq in Hm. injection Hm as <-.
        exists res. split; [done|]. rewrite Hcomp. rewrite <- Hcomp.
        exists ts. split; [|done].
        eapply Forall2_impl; [exact Hall1|].
        intros x y Hxy. simpl in *. by eapply lookup_weaken.
      - rewrite lookup_insert_ne in Hm by done.
        eapply entry_ok_weaken; [exact Hsub|by apply Hc1]. }
    split; [by etrans|]. split; [by rewrite lookup_insert_eq|].
    split; [rewrite Hvis1; set_solver|].
    intros v Hvin. rewrite lookup_insert_ne; [|by intros ->].
    apply Hkeep1. set_solver.
  - destruct Hmap as [Hm [Hin|Hex]]; (split; [done|]); right; [|done].
    exists n. by exists res.
Qed.

Lemma walkAll_spec fuel : forall rs st,
  consistent (found st) ->
  path st = ∅ ->
  size (dom rawMap) < fuel ->
  match walkAll rawMap fuel rs st with
  | Ok st' =>
      consistent (found st') /\ found st ⊆ found st' /\
      path st' = ∅ /\
      (forall r, r ∈ rs -> is_Some (found st' !! name r))
  | Throw (UnknownResource m) =>
      rawMap !! m = None /\ (m ∈ map name rs \/ exists a, edge rawMap a m)
  | Throw (CircularDependency m) => tc (edge rawMap) m m
  | OutOfFuel => False
  end.
Proof.
  intros rs. induction rs as [|r rs IH]; intros st Hc Hvis Hk; simpl.
  - repeat split; auto. intros r Hr. by apply elem_of_nil in Hr.
  - assert (Hstack : forall v, v ∈ path st -> tc (edge rawMap) v (name r)).
    { intros v Hv. rewrite Hvis in Hv. by apply elem_of_empty in Hv. }
    assert (Hsize : size (dom rawMap ∖ path st) < fuel).
    { rewrite Hvis. rewrite difference_empty_L. done. }
    pose proof (walkTier_spec fuel (name r) st Hc Hstack Hsize) as H1.
    destruct (walkTier rawMap fuel (name r) st) as [[t st1]|[m|m]|];
      simpl in H1; [| |done|done].
    + destruct H1 as (Hc1 & Hsub1 & Hn1 & Hvis1 & _).
      assert (Hvis1' : path st1 = ∅) by congruence.
      pose proof (IH st1 Hc1 Hvis1' Hk) as H2.
      destruct (walkAll rawMap fuel rs st1) as [st2|[m|m]|]; [| |done|done].
      * destruct H2 as (Hc2 & Hsub2 & Hvis2 & Hall2).
        split; [done|]. split; [by etrans|]. split; [done|].
        intros r' Hr'. apply elem_of_cons in Hr' as [->|Hr']; [|by apply Hall2].
        exists t. by eapply lookup_weaken.
      * destruct H2 as [Hm [Hin|Hex]]; (split; [done|]); [left|by right].
        by apply list_elem_of_further.
    + destruct H1 as [Hm [->|Hex]]; (split; [done|]); [left|by right].
      apply list_elem_of_here.
Qed.

End Tiers.

(** *** The dictionary built by [Object.fromEntries] *)

Lemma fromEntries_snoc rs r :
  fromEntries (rs ++ [r]) = <[name r := r]> (fromEntries rs).
Proof. unfold fromEntries. by rewrite foldl_app. Qed.

Lemma fromEntries_lookup_Some rs n r :
  fromEntries rs !! n = Some r -> r ∈ rs /\ name r = n.
Proof.
  induction rs as [|r' rs IH] using rev_ind; intros H.
  - change (fromEntries []) with (∅ : gmap string resource) in H.
    by rewrite lookup_empty in H.
  - rewrite fromEntries_snoc in H.
    destruct (decide (name r' = n)) as [<-|Hne].
    + rewrite lookup_insert_eq in H. injection H as <-.
      split; [|done]. apply elem_of_app. right. apply list_elem_of_here.
    + rewrite lookup_insert_ne in H by done.
      destruct (IH H) as [Hin Hn]. split; [|done]. apply elem_of_app. by left.
Qed.

Lemma fromEntries_declared rs r :
  r ∈ rs -> is_Some (fromEntries rs !! name r).
Proof.
  induction rs as [|r' rs IH] using rev_ind; intros H.
  - by apply elem_of_nil in H.
  - rewrite fromEntries_snoc.
    destruct (decide (name r' = name r)) as [E|Hne].
    + rewrite E, lookup_insert_eq. by eexists.
    + rewrite lookup_insert_ne by done. apply IH.
      apply elem_of_app in H as [H|H]; [done|].
      apply list_elem_of_singleton in H. congruence.
Qed.

Lemma fromEntries_NoDup rs r :
  NoDup (map name rs) -> r ∈ rs -> fromEntries rs !! name r = Some r.
Proof.
  intros Hnd Hin.
  destruct (fromEntries_declared rs r Hin) as [r' Hr'].
  destruct (fromEntries_lookup_Some _ _ _ Hr') as [Hin' Hname].
  rewrite Hr'. f_equal.
  apply list_elem_of_lookup in Hin as [i Hi].
  apply list_elem_of_lookup in Hin' as [j Hj].
  assert (i = j) as ->; [|congruence].
  eapply NoDup_lookup; [exact Hnd| |].
  - rewrite list_lookup_fmap, Hi. reflexivity.
  - rewrite list_lookup_fmap, Hj. simpl. by rewrite Hname.
Qed.

Lemma fromEntries_size rs : size (dom (fromEntries rs)) <= length rs.
Proof.
  induction rs as [|r rs IH] using rev_ind.
  - unfold fromEntries. simpl. rewrite dom_empty_L, size_empty. lia.
  - rewrite fromEntries_snoc, dom_insert_L, length_app. simpl.
    pose proof (size_union_alt (C:=gset string) {[name r]} (dom (fromEntries rs))) as E.
    rewrite E, size_singleton.
    assert (size (dom (fromEntries rs) ∖ {[name r]}) <= size (dom (fromEntries rs)))
      by (apply subseteq_size; set_solver).
    lia.
Qed.

(** What module initialisation guarantees, whatever the declarations. *)
Lemma walkInit_spec rs :
  match walkInit rs with
  | Ok st =>
      consistent (fromEntries rs) (found st) /\
      (forall r, r ∈ rs -> is_Some (found st !! name r))
  | Throw (UnknownResource m) =>
      fromEntries rs !! m = None /\ exists a, edge (fromEntries rs) a m
  | Throw (CircularDependency m) => tc (edge (fromEntries rs)) m m
  | OutOfFuel => False
  end.
Proof.
  unfold walkInit.
  pose proof (walkAll_spec (fromEntries rs) (S (length rs)) rs (Walk ∅ ∅)
                (consistent_empty _) eq_refl) as H.
  simpl in H. specialize (H ltac:(pose proof (fromEntries_size rs); lia)).
  destruct (walkAll _ _ rs _) as [st|[m|m]|]; [| |done|done].
  - destruct H as (Hc & _ & _ & Hall). by split.
  - destruct H as [Hm [Hin|Hex]]; [|by split].
    apply list_elem_of_fmap in Hin as (r & -> & Hr).
    destruct (fromEntries_declared rs r Hr) as [x Hx]. congruence.
Qed.

Lemma tc_edge_declared rawMap a b :
  tc (edge rawMap) a b -> is_Some (rawMap !! a).
Proof. intros [x y (r & Hr & _)|x y z (r & Hr & _) _]; by exists r. Qed.

(** A ranking that strictly decreases along every edge rules out cycles. *)
Lemma ranked_acyclic rawMap (rank : string -> nat) :
  (forall a b, edge rawMap a b -> rank b < rank a) -> ~ cyclic rawMap.
Proof.
  intros Hrank [n Hn].
  assert (H : forall a b, tc (edge rawMap) a b -> rank b < rank a).
  { intros a b Htc. induction Htc as [x y H|x y z H _ IH].
    - by apply Hrank.
    - apply Hrank in H. lia. }
  specialize (H _ _ Hn). lia.
Qed.

(** *** The shipped declarations *)

Lemma rawResources_NoDup : NoDup (map name rawResources).
Proof. apply (bool_decide_unpack _). vm_compute. reflexivity. Qed.

Lemma rawResources_edges a b :
  edge (fromEntries rawResources) a b ->
  (a = "steel" /\ (b = "iron" \/ b = "coal")) \/
  (a = "plastics" /\ (b = "oil" \/ b = "coal")) \/
  (a = "consumer_goods" /\ (b = "steel" \/ b = "plastics")).
Proof.
  intros (r & Hr & Hb).
  apply fromEntries_lookup_Some in Hr as [Hin <-].
  unfold rawResources in Hin.
  repeat (apply elem_of_cons in Hin as [->|Hin]); simpl in Hb;
    try (by apply elem_of_nil in Hb); try (by apply elem_of_nil in Hin);
    repeat (apply elem_of_cons in Hb as [->|Hb]);
    try (by apply elem_of_nil in Hb); auto 10.
Qed.

Lemma rawResources_closed : closed (fromEntries rawResources).
Proof.
  intros a b H.
  destruct (rawResources_edges a b H) as [[_ [->| ->]]|[[_ [->| ->]]|[_ [->| ->]]]];
    vm_compute; eauto.
Qed.

(** One less than the tier: 0 for raw materials, 1 for steel and plastics,
    2 for consumer goods. *)
Definition shippedRank (n : string) : nat :=
  if decide (n = "consumer_goods") then 2
  else if decide (n = "steel" \/ n = "plastics") then 1 else 0.

Lemma rawResources_acyclic : ~ cyclic (fromEntries rawResources).
Proof.
  apply (ranked_acyclic _ shippedRank). intros a b H.
  destruct (rawResources_edges a b H) as [[-> [->| ->]]|[[-> [->| ->]]|[-> [->| ->]]]];
    vm_compute; lia.
Qed.


(** *** The derivation never runs out of its bound *)

Lemma mapTiers_bounded f (V : gset string) :
  (forall c st, visiting st = V ->
     match f c st with
     | Ok (_, st') => visiting st' = V
     | Throw _ => True
     | OutOfFuel => False
     end) ->
  forall cs st, visiting st = V ->
    match mapTiers f cs st with
    | Ok (_, st') => visiting st' = V
    | Throw _ => True
    | OutOfFuel => False
    end.
Proof.
  intros Hf. induction cs as [|c cs IH]; intros st HV; simpl; [done|].
  pose proof (Hf c st HV) as Hc.
  destruct (f c st) as [[t st1]| |]; [|done|done].
  specialize (IH st1 Hc).
  by destruct (mapTiers f cs st1) as [[ts st2]| |].
Qed.

Lemma computeTier_bounded rawMap fuel : forall n st,
  size (dom rawMap ∖ visiting st) < fuel ->
  match computeTier rawMap fuel n st with
  | Ok (_, st') => visiting st' = visiting st
  | Throw _ => True
  | OutOfFuel => False
  end.
Proof.
  induction fuel as [|fuel IH]; intros n st Hk; [lia|].
  cbn [computeTier]. destruct (cached st n) as [v|]; [done|].
  unfold readComponents.
  destruct (decide (n ∈ visiting st)) as [Hin|Hnin].
  { destruct (rawMap !! n); [done|]. by destruct (inherited n). }
  assert (Hrec : forall comps, is_Some (rawMap !! n) ->
    match mapTiers (computeTier rawMap fuel) comps
            (TState (tierCache st) ({[n]} ∪ visiting st)) with
    | Ok (_, st1) => visiting st1 = {[n]} ∪ visiting st
    | Throw _ => True
    | OutOfFuel => False
    end).
  { intros comps Hdecl.
    assert (Hsize : size (dom rawMap ∖ ({[n]} ∪ visiting st)) < fuel).
    { assert (size (dom rawMap ∖ ({[n]} ∪ visiting st))
              < size (dom rawMap ∖ visiting st)); [|lia].
      apply subset_size. destruct Hdecl as [res Hres].
      apply elem_of_dom_2 in Hres. set_solver. }
    apply mapTiers_bounded; [|done].
    intros c st0 HV. pose proof (IH c st0) as Hc. rewrite HV in Hc.
    specialize (Hc Hsize).
    by destruct (computeTier rawMap fuel c st0) as [[t st1]| |]. }
  destruct (rawMap !! n) as [res|] eqn:Hres.
  - destruct (components res) as [|c cs]; [done|].
    specialize (Hrec (c :: cs) ltac:(by eexists)).
    destruct (mapTiers _ (c :: cs) _) as [[ts st1]| |]; [|done|done].
    simpl. rewrite Hrec. set_solver.
  - by destruct (inherited n).
Qed.

Lemma initTiers_bounded rs : initTiers rs <> OutOfFuel.
Proof.
  unfold initTiers.
  assert (H : forall l st, visiting st = ∅ ->
            forEachTier (fromEntries rs) (S (length rs)) l st <> OutOfFuel).
  { induction l as [|r l IH]; intros st Hvis; [done|]. cbn [forEachTier].
    pose proof (computeTier_bounded (fromEntries rs) (S (length rs)) (name r) st) as Hb.
    rewrite Hvis, difference_empty_L in Hb.
    specialize (Hb ltac:(pose proof (fromEntries_size rs); lia)).
    destruct (computeTier _ _ (name r) st) as [[t st1]| |]; [|done|done].
    apply IH. by rewrite Hb. }
  by apply H.
Qed.

(** *** From the walk to the derivation *)

Definition lift (w : walk) : tstate := TState (Tier <$> found w) (path w).

Definition lifted {A B} (f : A -> B) (o : outcome A) : outcome B :=
  match o with
  | Ok a => Ok (f a)
  | Throw e => Throw e
  | OutOfFuel => OutOfFuel
  end.

Definition liftTier (p : nat * walk) : tierValue * tstate := (Tier p.1, lift p.2).

Definition liftTiers (p : list nat * walk) : list tierValue * tstate :=
  (Tier <$> p.1, lift p.2).

Lemma readTier_lift w n :
  inherited n = false -> readTier (lift w) n = Tier <$> found w !! n.
Proof.
  intros Hn. unfold readTier, lift. simpl. rewrite lookup_fmap, Hn.
  by destruct (found w !! n).
Qed.

Lemma maxPlusOne_tiers ts : maxPlusOne (Tier <$> ts) = Tier (max_list ts + 1).
Proof.
  unfold maxPlusOne.
  by rewrite (mapM_fmap_Some number Tier ts (fun t => eq_refl)).
Qed.

Section Carry.
Variable rawMap : gmap string resource.
(** Every declaration lists ordinary components only. *)
Hypothesis ordinary : forall n r,
  rawMap !! n = Some r -> Forall (fun c => inherited c = false) (components r).

Lemma mapTiers_walk f g :
  (forall c w, inherited c = false -> f c (lift w) = lifted liftTier (g c w)) ->
  forall cs w, Forall (fun c => inherited c = false) cs ->
    mapTiers f cs (lift w) = lifted liftTiers (walkTiers g cs w).
Proof.
  intros Hfg. induction cs as [|c cs IH]; intros w Hcs; [done|].
  apply Forall_cons in Hcs as [Hc Hcs]. simpl. rewrite (Hfg c w Hc).
  destruct (g c w) as [[t w1]| |]; simpl; [|done|done].
  rewrite (IH w1 Hcs). by destruct (walkTiers g cs w1) as [[ts w2]| |].
Qed.

Lemma computeTier_walk fuel : forall n w,
  inherited n = false ->
  computeTier rawMap fuel n (lift w) = lifted liftTier (walkTier rawMap fuel n w).
Proof.
  induction fuel as [|fuel IH]; intros n w Hn; [done|].
  cbn [computeTier walkTier]. unfold cached. rewrite (readTier_lift w n Hn).
  unfold readComponents. rewrite Hn.
  destruct (found w !! n) as [[|t]|]; simpl; [|done|].
  all: destruct (rawMap !! n) as [res|] eqn:Hres; [|done].
  all: destruct (decide (n ∈ path w)); [done|].
  all: pose proof (ordinary n res Hres) as Hcs.
  all: destruct (components res) as [|c cs] eqn:Hcomp;
    [simpl; unfold liftTier, lift; simpl; by rewrite fmap_insert|].
  all: change (TState (Tier <$> found w) ({[n]} ∪ path w))
         with (lift (Walk (found w) ({[n]} ∪ path w))).
  all: rewrite (mapTiers_walk _ _ IH (c :: cs) _ Hcs).
  all: destruct (walkTiers _ (c :: cs) _) as [[ts w1]| |]; [|done|done].
  all: simpl; rewrite maxPlusOne_tiers; unfold liftTier, lift; simpl.
  all: by rewrite fmap_insert.
Qed.

Lemma forEachTier_walk fuel : forall rs w,
  Forall (fun r => inherited (name r) = false) rs ->
  forEachTier rawMap fuel rs (lift w) = lifted lift (walkAll rawMap fuel rs w).
Proof.
  induction rs as [|r rs IH]; intros w Hrs; [done|].
  apply Forall_cons in Hrs as [Hr Hrs]. simpl.
  rewrite (computeTier_walk fuel (name r) w Hr).
  destruct (walkTier rawMap fuel (name r) w) as [[t w1]| |]; simpl; [|done|done].
  by apply IH.
Qed.

End Carry.

Lemma initTiers_walk rs :
  ordinaryNames rs -> initTiers rs = lifted lift (walkInit rs).
Proof.
  intros Hord. unfold initTiers, walkInit.
  change (TState ∅ ∅) with (TState (Tier <$> ∅) ∅).
  change (TState (Tier <$> ∅) ∅) with (lift (Walk ∅ ∅)).
  apply forEachTier_walk.
  - intros n r Hr. apply fromEntries_lookup_Some in Hr as [Hin _].
    unfold ordinaryNames in Hord. rewrite Forall_forall in Hord.
    by apply Hord.
  - eapply Forall_impl; [exact Hord|]. by intros r [Hr _].
Qed.

(** What module initialisation guarantees when the names are ordinary. *)
Lemma initTiers_spec rs :
  ordinaryNames rs ->
  match initTiers rs with
  | Ok st =>
      exists cache, tierCache st = Tier <$> cache /\
        consistent (fromEntries rs) cache /\
        (forall r, r ∈ rs -> is_Some (cache !! name r))
  | Throw (UnknownResource m) =>
      fromEntries rs !! m = None /\ exists a, edge (fromEntries rs) a m
  | Throw (CircularDependency m) => tc (edge (fromEntries rs)) m m
  | OutOfFuel => False
  end.
Proof.
  intros Hord. rewrite (initTiers_walk rs Hord).
  pose proof (walkInit_spec rs) as H.
  destruct (walkInit rs) as [w|[m|m]|]; simpl; [|done|done|done].
  exists (found w). by split.
Qed.

Lemma ordinary_declared rs r :
  ordinaryNames rs -> r ∈ rs -> inherited (name r) = false.
Proof.
  unfold ordinaryNames. rewrite Forall_forall. intros H Hr. by apply H.
Qed.

Lemma ordinary_component rs a b :
  ordinaryNames rs -> edge (fromEntries rs) a b -> inherited b = false.
Proof.
  unfold ordinaryNames. rewrite Forall_forall.
  intros H (r & Hr & Hb). apply fromEntries_lookup_Some in Hr as [Hin _].
  destruct (H r Hin) as [_ Hcs]. rewrite Forall_forall in Hcs. by apply Hcs.
Qed.

(** The tier read for an ordinary name is the number of the cache. *)
Lemma tierOf_number st cache n :
  tierCache st = Tier <$> cache -> inherited n = false ->
  tierOf st n = Tier <$> cache !! n.
Proof.
  intros Hst Hn. unfold tierOf, readTier. rewrite Hst, lookup_fmap, Hn.
  by destruct (cache !! n).
Qed.

Lemma tierOf_numbers st cache cs ts :
  tierCache st = Tier <$> cache ->
  Forall (fun c => inherited c = false) cs ->
  Forall2 (fun c t => cache !! c = Some t) cs ts ->
  Forall2 (fun c t => tierOf st c = Some (Tier t)) cs ts.
Proof.
  intros Hst Hcs Hall. induction Hall as [|c t cs ts Hct _ IH]; [constructor|].
  apply Forall_cons in Hcs as [Hc Hcs]. constructor; [|by apply IH].
  by rewrite (tierOf_number st cache c Hst Hc), Hct.
Qed.

(** *** The shipped declarations: tiers *)

Lemma rawResources_ordinary : ordinaryNames rawResources.
Proof. apply (bool_decide_unpack _). vm_compute. reflexivity. Qed.

Example shipped_tiers :
  exists st, initTiers rawResources = Ok st /\
    map (tierOf st) ["iron"; "coal"; "oil"; "steel"; "plastics"; "consumer_goods"]
    = [Some (Tier 1); Some (Tier 1); Some (Tier 1);
       Some (Tier 2); Some (Tier 2); Some (Tier 3)].
Proof. eexists. split; vm_compute; reflexivity. Qed.

(** C7 (amended).  In a configuration with unique names, no dangling
    component and no dependency cycle, in which no resource and no component
    is named like a property that every object inherits, tier derivation
    succeeds, and the tier it records for each resource is the number 1
    exactly when the resource has no components and is otherwise one more
    than the greatest tier among its direct components. *)
Theorem tier_correct (rs : list resource) :
  ordinaryNames rs ->
  NoDup (map name rs) ->
  closed (fromEntries rs) ->
  ~ cyclic (fromEntries rs) ->
  exists st, initTiers rs = Ok st /\
    forall r, r ∈ rs ->
      exists t, tierOf st (name r) = Some (Tier t) /\
        (t = 1 <-> components r = []) /\
        (components r <> [] ->
           exists ts,
             Forall2 (fun c tc => tierOf st c = Some (Tier tc)) (components r) ts /\
             t = 1 + max_list ts).
Proof.
  intros Hord Hnd Hclosed Hacyc.
  pose proof (initTiers_spec rs Hord) as H.
  destruct (initTiers rs) as [st|[m|m]|]; [| | |done].
  - destruct H as (cache & Hst & Hc & Hall). exists st. split; [done|].
    intros r Hr. destruct (Hall r Hr) as [t Ht]. exists t.
    split.
    { rewrite (tierOf_number st cache _ Hst (ordinary_declared rs r Hord Hr)).
      by rewrite Ht. }
    destruct (Hc _ _ Ht) as (r' & Hr' & Hm).
    rewrite (fromEntries_NoDup rs r Hnd Hr) in Hr'. injection Hr' as <-.
    assert (Hcomp : forall c, c ∈ components r -> inherited c = false).
    { intros c Hcin. apply (ordinary_component rs (name r) c Hord).
      exists r. split; [by apply fromEntries_NoDup|done]. }
    destruct (components r) as [|c cs] eqn:E.
    + split; [done|]. intros Hne. done.
    + destruct Hm as (ts & Hts & ->).
      assert (Hpos : 1 <= max_list ts).
      { inversion Hts as [|? t1 ? ts' H1 _]; subst.
        pose proof (entry_ok_pos _ _ _ _ (Hc _ _ H1)).
        change (max_list (t1 :: ts')) with (t1 `max` max_list ts'). lia. }
      split; [split; [lia|done]|].
      intros _. exists ts. split; [|lia].
      apply (tierOf_numbers st cache); [done| |done].
      rewrite Forall_forall. exact Hcomp.
  - destruct H as [Hm (a & Ha)]. destruct (Hclosed _ _ Ha) as [x Hx]. congruence.
  - destruct Hacyc. by exists m.
Qed.

Lemma tier_correct_witness :
  exists st, initTiers rawResources = Ok st /\
    forall r, r ∈ rawResources ->
      exists t, tierOf st (name r) = Some (Tier t) /\
        (t = 1 <-> components r = []) /\
        (components r <> [] ->
           exists ts,
             Forall2 (fun c tc => tierOf st c = Some (Tier tc)) (components r) ts /\
             t = 1 + max_list ts).
Proof.
  apply (tier_correct rawResources).
  - exact rawResources_ordinary.
  - exact rawResources_NoDup.
  - exact rawResources_closed.
  - exact rawResources_acyclic.
Defined.

(** A raw material named [constructor] and a product made of it. *)
Definition inheritedPair : list resource :=
  [ Resource "constructor" "Constructor" [] None;
    Resource "gadget" "Gadget" ["constructor"] None ].

(** C7 as stated fails.  This configuration has unique names, declares the
    one component it lists and has no cycle.  The derivation reads
    [tierCache["constructor"]], finds the function every object inherits,
    returns it and records nothing: the tier exported for the raw material
    is that function, not 1, and the tier of the product is [NaN], not 2. *)
Lemma tier_inherited_counterexample :
  NoDup (map name inheritedPair) /\
  closed (fromEntries inheritedPair) /\
  ~ cyclic (fromEntries inheritedPair) /\
  exists st, initTiers inheritedPair = Ok st /\
    tierCache st !! "constructor" = None /\
    tierOf st "constructor" = Some (Inherited "constructor") /\
    tierOf st "gadget" = Some NotANumber.
Proof.
  assert (Hedges : forall a b, edge (fromEntries inheritedPair) a b ->
                     a = "gadget" /\ b = "constructor").
  { intros a b (r & Hr & Hb).
    apply fromEntries_lookup_Some in Hr as [Hin <-].
    unfold inheritedPair in Hin.
    repeat (apply elem_of_cons in Hin as [->|Hin]); simpl in Hb;
      try (by apply elem_of_nil in Hb); try (by apply elem_of_nil in Hin).
    apply list_elem_of_singleton in Hb. by subst. }
  split; [apply (bool_decide_unpack _); vm_compute; reflexivity|].
  split; [intros a b [-> ->]%Hedges; vm_compute; eauto|].
  split.
  - apply (ranked_acyclic _ (fun n => if decide (n = "gadget") then 1 else 0)).
    intros a b [-> ->]%Hedges. vm_compute. lia.
  - eexists. split; [vm_compute; reflexivity|].
    repeat split; vm_compute; reflexivity.
Qed.

(** C8 (amended).  Whenever the declarations contain a dependency cycle and
    no name is a property that every object inherits, initialisation throws
    and exports no tiers.  The error is the circular dependency error,
    naming a resource that lies on a cycle, or the unknown resource error,
    naming a component that no declaration defines; when every component is
    declared it is the circular dependency error. *)
Theorem cycle_fails (rs : list resource) :
  ordinaryNames rs ->
  cyclic (fromEntries rs) ->
  exists e, initTiers rs = Throw e /\
    match e with
    | CircularDependency m => tc (edge (fromEntries rs)) m m
    | UnknownResource m =>
        fromEntries rs !! m = None /\ exists a, edge (fromEntries rs) a m
    end /\
    (closed (fromEntries rs) -> exists m, e = CircularDependency m).
Proof.
  intros Hord [n Hn].
  pose proof (initTiers_spec rs Hord) as H.
  destruct (initTiers rs) as [st|[m|m]|]; [| | |done].
  - destruct H as (cache & _ & Hc & Hall). exfalso.
    destruct (tc_edge_declared _ _ _ Hn) as [r Hr].
    apply fromEntries_lookup_Some in Hr as [Hin <-].
    destruct (Hall r Hin) as [t Ht].
    by apply (consistent_acyclic _ _ _ _ Hc Ht).
  - exists (UnknownResource m). split; [done|]. split; [done|].
    intros Hclosed. destruct H as [Hm (a & Ha)].
    destruct (Hclosed _ _ Ha) as [x Hx]. congruence.
  - exists (CircularDependency m). split; [done|]. split; [done|]. eauto.
Qed.

(** Two resources that list each other. *)
Definition mutualPair : list resource :=
  [ Resource "A" "A" ["B"] None; Resource "B" "B" ["A"] None ].

Lemma mutualPair_cyclic : cyclic (fromEntries mutualPair).
Proof.
  exists "A". apply tc_l with "B"; [|apply tc_once].
  - exists (Resource "A" "A" ["B"] None). split; [reflexivity|]. apply list_elem_of_here.
  - exists (Resource "B" "B" ["A"] None). split; [reflexivity|]. apply list_elem_of_here.
Qed.

Example mutualPair_throws : initTiers mutualPair = Throw (CircularDependency "A").
Proof. vm_compute. reflexivity. Qed.

Lemma cycle_fails_witness :
  exists e, initTiers mutualPair = Throw e /\
    match e with
    | CircularDependency m => tc (edge (fromEntries mutualPair)) m m
    | UnknownResource m =>
        fromEntries mutualPair !! m = None /\
        exists a, edge (fromEntries mutualPair) a m
    end /\
    (closed (fromEntries mutualPair) -> exists m, e = CircularDependency m).
Proof.
  apply (cycle_fails mutualPair).
  - apply (bool_decide_unpack _). vm_compute. reflexivity.
  - exact mutualPair_cyclic.
Defined.

(** A cycle next to a component that nothing declares: the dangling name is
    met before the cycle is. *)
Definition danglingCycle : list resource :=
  [ Resource "alloy" "Alloy" ["ore"] None;
    Resource "A" "A" ["B"] None;
    Resource "B" "B" ["A"] None ].

(** Two resources that list each other and are named like inherited
    properties. *)
Definition inheritedCycle : list resource :=
  [ Resource "constructor" "Constructor" ["valueOf"] None;
    Resource "valueOf" "Value" ["constructor"] None ].

(** C8 as stated fails, in two ways.  The first configuration contains a
    cycle, yet the error raised is the unknown resource error, not a cycle
    error.  The second one contains a cycle between two names that every
    object inherits: both reads of [tierCache] find the inherited functions,
    nothing is thrown, and initialisation ends with these functions as the
    tiers of the two resources. *)
Lemma cycle_error_counterexample :
  (cyclic (fromEntries danglingCycle) /\
   initTiers danglingCycle = Throw (UnknownResource "ore") /\
   ~ exists m, initTiers danglingCycle = Throw (CircularDependency m)) /\
  (cyclic (fromEntries inheritedCycle) /\
   exists st, initTiers inheritedCycle = Ok st /\
     tierOf st "constructor" = Some (Inherited "constructor") /\
     tierOf st "valueOf" = Some (Inherited "valueOf")).
Proof.
  split; [split; [|split]|split].
  - exists "A". apply tc_l with "B"; [|apply tc_once].
    + exists (Resource "A" "A" ["B"] None). split; [reflexivity|]. apply list_elem_of_here.
    + exists (Resource "B" "B" ["A"] None). split; [reflexivity|]. apply list_elem_of_here.
  - vm_compute. reflexivity.
  - intros [m Hm]. vm_compute in Hm. discriminate.
  - exists "constructor". apply tc_l with "valueOf"; [|apply tc_once].
    + exists (Resource "constructor" "Constructor" ["valueOf"] None).
      split; [reflexivity|]. apply list_elem_of_here.
    + exists (Resource "valueOf" "Value" ["constructor"] None).
      split; [reflexivity|]. apply list_elem_of_here.
  - eexists. split; [vm_compute; reflexivity|]. split; vm_compute; reflexivity.
Qed.

End GraphFacts.

(** ** The state engine *)

Module EngineFacts.
Import Graph Engine.

(** The floor of a resource without components: [resource.min || 5]. *)
Definition baseMin (r : resource) : Z :=
  match min r with
  | Some m => if (m =? 0)%Z then 5%Z else m
  | None => 5%Z
  end.

(** Sum of the values of the listed names, an absent name counting for 0. *)
Definition sumOver (vs : gmap string Z) (cs : list string) : Z :=
  foldr (fun c acc => (default 0 (vs !! c) + acc)%Z) 0%Z cs.

(** [computeMin] as the specification words it: [baseMin] without
    components, otherwise the sum of [values[c]], "0 if absent". *)
Definition computeMinAsSpecified (r : resource) (vs : gmap string Z) : Z :=
  match components r with
  | [] => baseMin r
  | _ :: _ => sumOver vs (components r)
  end.

Lemma sum_present (vs : gmap string Z) (cs : list string) (acc : Z) :
  (forall c, c ∈ cs -> is_Some (vs !! c)) ->
  foldl (fun sum c => Js.add sum (vs !! c)) (Some acc) cs
  = Some (acc + sumOver vs cs)%Z.
Proof.
  revert acc. induction cs as [|c cs IH]; intros acc Hall; simpl.
  - f_equal. lia.
  - destruct (Hall c (list_elem_of_here _ _)) as [x Hx]. rewrite Hx. simpl.
    rewrite IH by (intros c' Hc'; apply Hall; by apply list_elem_of_further).
    f_equal. lia.
Qed.

Lemma sum_nan (vs : gmap string Z) (cs : list string) :
  foldl (fun sum c => Js.add sum (vs !! c)) None cs = None.
Proof. induction cs as [|c cs IH]; simpl; [done|exact IH]. Qed.

Lemma sum_absent (vs : gmap string Z) (cs : list string) (c : string) (acc : option Z) :
  c ∈ cs -> vs !! c = None ->
  foldl (fun sum c => Js.add sum (vs !! c)) acc cs = None.
Proof.
  revert acc. induction cs as [|c' cs IH]; intros acc Hin Hc.
  - by apply elem_of_nil in Hin.
  - simpl. apply elem_of_cons in Hin as [<-|Hin].
    + rewrite Hc. destruct acc; simpl; apply sum_nan.
    + by apply IH.
Qed.

Lemma sum_no_dictionary (cs : list string) (acc : Z) :
  foldl (fun sum (c : string) => Js.add sum (Some 0%Z)) (Some acc) cs = Some acc.
Proof.
  induction cs as [|c cs IH]; simpl; [done|].
  by replace (acc + 0)%Z with acc by lia.
Qed.

Lemma computeMin_leaf r cv :
  components r = [] -> computeMin r cv = Some (baseMin r).
Proof. unfold computeMin, baseMin. by intros ->. Qed.

Lemma computeMin_sum r (vs : gmap string Z) :
  components r <> [] ->
  (forall c, c ∈ components r -> is_Some (vs !! c)) ->
  computeMin r (Some vs) = Some (sumOver vs (components r)).
Proof.
  unfold computeMin. intros Hne Hall.
  destruct (components r) as [|c cs] eqn:E; [done|].
  rewrite <- E in *. by rewrite sum_present.
Qed.

Lemma computeMin_absent r (vs : gmap string Z) c :
  c ∈ components r -> vs !! c = None -> computeMin r (Some vs) = None.
Proof.
  unfold computeMin. intros Hin Hc.
  destruct (components r) as [|c0 cs] eqn:E; [by apply elem_of_nil in Hin|].
  rewrite <- E in *. by eapply sum_absent.
Qed.

Lemma computeMin_no_dictionary r :
  components r <> [] -> computeMin r None = Some 0%Z.
Proof.
  unfold computeMin. intros Hne.
  destruct (components r) as [|c cs] eqn:E; [done|]. apply sum_no_dictionary.
Qed.

(** C6 (amended).  [computeMin] returns [baseMin] for a resource without
    components.  For a resource with components it returns the sum of the
    values of its direct components when each of them has a value in the
    dictionary; it returns [NaN] as soon as one of them is absent from the
    dictionary; and it returns 0 (each component counting for 0) only when
    the dictionary itself is missing. *)
Theorem computeMin_cases (r : resource) :
  (components r = [] -> forall cv, computeMin r cv = Some (baseMin r)) /\
  (forall vs, components r <> [] ->
     (forall c, c ∈ components r -> is_Some (vs !! c)) ->
     computeMin r (Some vs) = Some (sumOver vs (components r))) /\
  (forall vs c, c ∈ components r -> vs !! c = None ->
     computeMin r (Some vs) = None) /\
  (components r <> [] -> computeMin r None = Some 0%Z).
Proof.
  split; [intros E cv; by apply computeMin_leaf|].
  split; [intros vs; apply computeMin_sum|].
  split; [apply computeMin_absent|apply computeMin_no_dictionary].
Qed.

Definition steel : resource := Resource "steel" "Steel" ["iron"; "coal"] None.

Lemma computeMin_cases_witness :
  computeMin steel (Some {["iron" := 5%Z; "coal" := 10%Z]}) = Some 15%Z.
Proof.
  refine (proj1 (proj2 (computeMin_cases steel)) _ _ _).
  - discriminate.
  - intros c Hc. simpl in Hc.
    repeat (apply elem_of_cons in Hc as [->|Hc]); [by eexists..|].
    by apply elem_of_nil in Hc.
Defined.

(** C6 as stated fails: with coal absent from the dictionary the minimum of
    steel is [NaN], not the 5 that "an absent component contributes 0"
    predicts. *)
Lemma computeMin_absent_counterexample :
  computeMin steel (Some {["iron" := 5%Z]}) = None /\
  computeMinAsSpecified steel {["iron" := 5%Z]} = 5%Z.
Proof. split; reflexivity. Qed.

(** *** The cascade loop: termination and monotonicity *)

Section Cascade.
Variable resourceData : list resource.

(** Iterations the loop may still need: queued names, plus declared names
    not queued yet. *)
Definition pending (cs : cascadeState) : nat :=
  length (queue cs) + size (dom (resourceMap resourceData) ∖ visited cs).

Lemma cascadeStep_pending cs d :
  pending (cascadeStep resourceData cs d) <= pending cs.
Proof.
  unfold cascadeStep.
  destruct (resourceMap resourceData !! d) as [r|] eqn:Hr; [|done].
  destruct (computeMin r (Some (newVals cs))) as [m|]; [|done].
  destruct (Js.ltb (newVals cs !! d) (Some m)); [|done].
  destruct (decide (d ∈ visited cs)) as [Hin|Hnin]; unfold pending; simpl; [done|].
  rewrite length_app. simpl.
  assert (size (dom (resourceMap resourceData) ∖ ({[d]} ∪ visited cs))
          < size (dom (resourceMap resourceData) ∖ visited cs)); [|lia].
  apply subset_size. apply elem_of_dom_2 in Hr. set_solver.
Qed.

Lemma cascadeSteps_pending ds : forall cs,
  pending (foldl (cascadeStep resourceData) cs ds) <= pending cs.
Proof.
  induction ds as [|d ds IH]; intros cs; simpl; [done|].
  etrans; [apply IH|apply cascadeStep_pending].
Qed.

(** The loop ends within [pending] iterations. *)
Lemma cascade_total fuel : forall cs,
  pending cs <= fuel -> is_Some (cascade resourceData fuel cs).
Proof.
  induction fuel as [|fuel IH]; intros [vals adj q vis] Hp.
  - destruct q as [|c rest]; [by eexists|]. unfold pending in Hp. simpl in Hp. lia.
  - destruct q as [|c rest]; [by eexists|]. simpl. apply IH.
    etrans; [apply cascadeSteps_pending|].
    unfold pending in *. simpl in *. lia.
Qed.

(** No value is removed or lowered. *)
Definition grows (a b : gmap string Z) : Prop :=
  forall k x, a !! k = Some x -> exists y, b !! k = Some y /\ (x <= y)%Z.

Lemma grows_refl a : grows a a.
Proof. intros k x H. exists x. split; [done|lia]. Qed.

Lemma grows_trans a b c : grows a b -> grows b c -> grows a c.
Proof.
  intros Hab Hbc k x Hx. destruct (Hab _ _ Hx) as (y & Hy & Hxy).
  destruct (Hbc _ _ Hy) as (z & Hz & Hyz). exists z. split; [done|lia].
Qed.

Lemma cascadeStep_grows cs d :
  grows (newVals cs) (newVals (cascadeStep resourceData cs d)).
Proof.
  unfold cascadeStep.
  destruct (resourceMap resourceData !! d) as [r|]; [|apply grows_refl].
  destruct (computeMin r (Some (newVals cs))) as [m|]; [|apply grows_refl].
  destruct (newVals cs !! d) as [prev|] eqn:Hprev; simpl; [|apply grows_refl].
  destruct (prev <? m)%Z eqn:Hlt; [|apply grows_refl].
  simpl. intros k x Hk. destruct (decide (k = d)) as [->|Hne].
  - exists m. rewrite lookup_insert_eq. split; [done|].
    apply Z.ltb_lt in Hlt. assert (x = prev) by congruence. lia.
  - exists x. rewrite lookup_insert_ne by done. split; [done|lia].
Qed.

Lemma cascadeSteps_grows ds : forall cs,
  grows (newVals cs) (newVals (foldl (cascadeStep resourceData) cs ds)).
Proof.
  induction ds as [|d ds IH]; intros cs; simpl; [apply grows_refl|].
  eapply grows_trans; [apply cascadeStep_grows|apply IH].
Qed.

Lemma cascade_grows fuel : forall cs cs',
  cascade resourceData fuel cs = Some cs' -> grows (newVals cs) (newVals cs').
Proof.
  induction fuel as [|fuel IH]; intros [vals adj q vis] cs' H.
  - destruct q; simpl in H; [|done]. injection H as <-. apply grows_refl.
  - destruct q as [|c rest]; simpl in H.
    + injection H as <-. apply grows_refl.
    + apply IH in H. eapply grows_trans; [|exact H].
      apply (cascadeSteps_grows _ (CascadeState vals adj rest vis)).
Qed.

Lemma resourceMap_size n r :
  resourceMap resourceData !! n = Some r ->
  pending (CascadeState ∅ [] [n] {[n]}) <= S (length resourceData).
Proof.
  intros Hr. unfold pending. simpl.
  pose proof (GraphFacts.fromEntries_size resourceData) as Hsz.
  assert (size (dom (resourceMap resourceData) ∖ {[n]})
          <= size (dom (resourceMap resourceData)))
    by (apply subseteq_size; set_solver).
  unfold resourceMap in *. lia.
Qed.

(** [setResourceValue] always completes. *)
Lemma setResourceValue_total ignoreMin rendered n arg st :
  is_Some (setResourceValue resourceData ignoreMin rendered n arg st).
Proof.
  unfold setResourceValue.
  destruct (resourceMap resourceData !! n) as [r|] eqn:Hr; [|by eexists].
  destruct (match arg with Direct v => v | Updater f => f (values st !! n) end)
    as [p|]; [|by eexists].
  set (next := match computeMin r rendered with
               | Some m => if negb ignoreMin && (p <? m)%Z then m else p
               | None => p end).
  destruct (negb ignoreMin && Js.gtb (Some next) (values st !! n)); [|by eexists].
  destruct (cascade_total (S (length resourceData))
              (CascadeState (<[n:=next]> (values st)) [] [n] {[n]})) as [cs Hcs].
  { pose proof (resourceMap_size n r Hr) as H. unfold pending in *. simpl in *. lia. }
  rewrite Hcs. by eexists.
Qed.

(** What a call does to the value of the named resource and to the others:
    the named resource ends at least at the requested value, any other
    resource is left alone or raised. *)
Lemma setResourceValue_values ignoreMin rendered n arg st st' :
  setResourceValue resourceData ignoreMin rendered n arg st = Some st' ->
  (forall k, k <> n -> forall x, values st !! k = Some x ->
     exists y, values st' !! k = Some y /\ (x <= y)%Z) /\
  (forall p r, resourceMap resourceData !! n = Some r ->
     match arg with Direct v => v | Updater f => f (values st !! n) end = Some p ->
     exists y, values st' !! n = Some y /\ (p <= y)%Z) /\
  ((resourceMap resourceData !! n = None \/
    match arg with Direct v => v | Updater f => f (values st !! n) end = None) ->
   st' = st).
Proof.
  unfold setResourceValue. intros H.
  destruct (resourceMap resourceData !! n) as [r|] eqn:Hr.
  2:{ injection H as <-. split; [|split; [|done]].
      - intros k _ x Hx. exists x. split; [done|lia].
      - intros p0 r0; congruence. }
  destruct (match arg with Direct v => v | Updater f => f (values st !! n) end)
    as [p|] eqn:Hp.
  2:{ injection H as <-. split; [|split; [|done]].
      - intros k _ x Hx. exists x. split; [done|lia].
      - intros p0 r0; congruence. }
  set (next := match computeMin r rendered with
               | Some m => if negb ignoreMin && (p <? m)%Z then m else p
               | None => p end) in *.
  assert (Hnext : (p <= next)%Z).
  { subst next. destruct (computeMin r rendered) as [m|]; [|lia].
    destruct (negb ignoreMin && (p <? m)%Z) eqn:E; [|lia].
    apply andb_true_iff in E as [_ E]. apply Z.ltb_lt in E. lia. }
  assert (Hgrow : exists cs, grows (<[n:=next]> (values st)) (newVals cs) /\
                             values st' = newVals cs).
  { destruct (negb ignoreMin && Js.gtb (Some next) (values st !! n)).
    - destruct (cascade resourceData (S (length resourceData)) _) as [cs|] eqn:Hcs;
        [|done].
      injection H as <-. exists cs. split; [|done].
      by apply cascade_grows in Hcs.
    - injection H as <-.
      exists (CascadeState (<[n:=next]> (values st)) [] [] ∅).
      split; [apply grows_refl|reflexivity]. }
  destruct Hgrow as (cs & Hgrow & ->).
  split; [|split].
  - intros k Hk x Hx. apply Hgrow. by rewrite lookup_insert_ne.
  - intros p' r' _ [= <-].
    destruct (Hgrow n next) as (y & Hy & Hle); [by rewrite lookup_insert_eq|].
    exists y. split; [done|lia].
  - intros [?|?]; congruence.
Qed.

End Cascade.

(** *** Change-groups as traces, and what undo does to the values *)

(** The values after the changes of a group have been applied in order. *)
Definition replay (vals : gmap string Z) (chs : list change) : gmap string Z :=
  foldl (fun v ch => <[ch_name ch := nextValue ch]> v) vals chs.

(** Each change records as [prevValue] what it found. *)
Fixpoint traced (vals : gmap string Z) (chs : list change) : Prop :=
  match chs with
  | [] => True
  | ch :: rest =>
      prevValue ch = vals !! ch_name ch /\
      traced (<[ch_name ch := nextValue ch]> vals) rest
  end.

(** [updated[ch.name] = ch.prevValue] *)
Definition revert (updated : gmap string Z) (ch : change) : gmap string Z :=
  match prevValue ch with
  | Some v => <[ch_name ch := v]> updated
  | None => delete (ch_name ch) updated
  end.

Lemma replay_app vals a b : replay vals (a ++ b) = replay (replay vals a) b.
Proof. unfold replay. apply foldl_app. Qed.

Lemma traced_app a : forall vals b,
  traced vals (a ++ b) <-> traced vals a /\ traced (replay vals a) b.
Proof.
  induction a as [|ch a IH]; intros vals b; simpl.
  - tauto.
  - rewrite IH. unfold replay. simpl. tauto.
Qed.

Lemma replay_markCascading l : forall vals,
  replay vals (map markCascading l) = replay vals l.
Proof. induction l as [|ch l IH]; intros vals; [done|]. apply IH. Qed.

Lemma traced_markCascading l : forall vals,
  traced vals (map markCascading l) <-> traced vals l.
Proof.
  induction l as [|ch l IH]; intros vals; simpl; [done|]. by rewrite IH.
Qed.

(** Reverting the changes of a traced group, last one first, gives back
    the values the group started from. *)
Lemma revert_replay chs : forall vals,
  traced vals chs -> foldl revert (replay vals chs) (reverse chs) = vals.
Proof.
  induction chs as [|ch chs IH]; intros vals Ht; [done|].
  destruct Ht as [Hp Ht]. rewrite reverse_cons, foldl_app. simpl.
  change (replay vals (ch :: chs))
    with (replay (<[ch_name ch := nextValue ch]> vals) chs).
  rewrite IH by done. unfold revert. rewrite Hp.
  destruct (vals !! ch_name ch) as [v|] eqn:E.
  - rewrite insert_insert_eq. by apply insert_id.
  - by apply delete_insert_id.
Qed.

Section Trace.
Variable resourceData : list resource.

Lemma cascadeStep_trace cs d :
  exists extra,
    cascadeAdjustments (cascadeStep resourceData cs d)
      = cascadeAdjustments cs ++ extra /\
    newVals (cascadeStep resourceData cs d) = replay (newVals cs) extra /\
    traced (newVals cs) extra.
Proof.
  assert (Hnone : exists extra,
    cascadeAdjustments cs = cascadeAdjustments cs ++ extra /\
    newVals cs = replay (newVals cs) extra /\ traced (newVals cs) extra).
  { exists []. by rewrite app_nil_r. }
  unfold cascadeStep.
  destruct (resourceMap resourceData !! d) as [r|]; [|done].
  destruct (computeMin r (Some (newVals cs))) as [m|]; [|done].
  destruct (Js.ltb (newVals cs !! d) (Some m)); [|done].
  exists [Change d (newVals cs !! d) m false]. simpl. done.
Qed.

Lemma cascadeSteps_trace ds : forall cs,
  exists extra,
    cascadeAdjustments (foldl (cascadeStep resourceData) cs ds)
      = cascadeAdjustments cs ++ extra /\
    newVals (foldl (cascadeStep resourceData) cs ds) = replay (newVals cs) extra /\
    traced (newVals cs) extra.
Proof.
  induction ds as [|d ds IH]; intros cs; simpl.
  - exists []. by rewrite app_nil_r.
  - destruct (cascadeStep_trace cs d) as (e1 & Ha1 & Hv1 & Ht1).
    destruct (IH (cascadeStep resourceData cs d)) as (e2 & Ha2 & Hv2 & Ht2).
    exists (e1 ++ e2). rewrite Ha2, Ha1, Hv2, Hv1, <- app_assoc, replay_app.
    split; [done|]. split; [done|]. apply traced_app. by rewrite <- Hv1.
Qed.

Lemma cascade_trace fuel : forall cs cs',
  cascade resourceData fuel cs = Some cs' ->
  exists extra,
    cascadeAdjustments cs' = cascadeAdjustments cs ++ extra /\
    newVals cs' = replay (newVals cs) extra /\
    traced (newVals cs) extra.
Proof.
  assert (Hnone : forall cs : cascadeState, exists extra,
    cascadeAdjustments cs = cascadeAdjustments cs ++ extra /\
    newVals cs = replay (newVals cs) extra /\ traced (newVals cs) extra).
  { intros cs. exists []. by rewrite app_nil_r. }
  induction fuel as [|fuel IH]; intros [vals adj q vis] cs' H.
  - destruct q; simpl in H; [|done]. injection H as <-. apply Hnone.
  - destruct q as [|c rest]; simpl in H; [injection H as <-; apply Hnone|].
    destruct (cascadeSteps_trace (default [] (dependentsMap resourceData !! c))
                (CascadeState vals adj rest vis)) as (e1 & Ha1 & Hv1 & Ht1).
    destruct (IH _ _ H) as (e2 & Ha2 & Hv2 & Ht2). simpl in *.
    exists (e1 ++ e2). rewrite Ha2, Ha1, Hv2, Hv1, <- app_assoc, replay_app.
    split; [done|]. split; [done|]. apply traced_app. by rewrite <- Hv1.
Qed.

(** What an effective call leaves behind: one more group in the log, the
    values and histories obtained by applying that group. *)
Lemma setResourceValue_group ignoreMin rendered n arg st st' r p :
  resourceMap resourceData !! n = Some r ->
  match arg with Direct v => v | Updater f => f (values st !! n) end = Some p ->
  setResourceValue resourceData ignoreMin rendered n arg st = Some st' ->
  exists g,
    actionLog st' = actionLog st ++ [g] /\
    values st' = replay (values st) g /\
    traced (values st) g /\
    histories st' = foldl appendHistory (histories st) g.
Proof.
  intros Hr Hp H. unfold setResourceValue in H. rewrite Hr, Hp in H.
  set (next := match computeMin r rendered with
               | Some m => if negb ignoreMin && (p <? m)%Z then m else p
               | None => p end) in *.
  set (primary := Change n (values st !! n) next false) in *.
  assert (Hcs : exists cs,
    st' = State (newVals cs)
            (foldl appendHistory (histories st)
               (primary :: map markCascading (cascadeAdjustments cs)))
            (actionLog st ++ [primary :: map markCascading (cascadeAdjustments cs)]) /\
    newVals cs = replay (<[n:=next]> (values st)) (cascadeAdjustments cs) /\
    traced (<[n:=next]> (values st)) (cascadeAdjustments cs)).
  { destruct (negb ignoreMin && Js.gtb (Some next) (values st !! n)).
    - destruct (cascade resourceData (S (length resourceData)) _) as [cs|] eqn:Hc;
        [|done].
      injection H as <-. exists cs. split; [done|].
      destruct (cascade_trace _ _ _ Hc) as (extra & Ha & Hv & Ht). simpl in *.
      by rewrite Ha.
    - injection H as <-.
      exists (CascadeState (<[n:=next]> (values st)) [] [] ∅). done. }
  destruct Hcs as (cs & -> & Hv & Ht).
  exists (primary :: map markCascading (cascadeAdjustments cs)). simpl.
  split; [done|]. split; [|split; [|done]].
  - change (replay (values st) (primary :: map markCascading (cascadeAdjustments cs)))
      with (replay (<[n:=next]> (values st))
              (map markCascading (cascadeAdjustments cs))).
    by rewrite replay_markCascading.
  - split; [done|]. by apply traced_markCascading.
Qed.

End Trace.

(** *** Undo and the histories *)

(** The samples a group appends to the history of one resource. *)
Definition nextsOf (k : string) (g : list change) : list Z :=
  map nextValue (filter (fun c => ch_name c = k) g).

Lemma appendHistory_fold g : forall (h : gmap string (list Z)) k,
  foldl appendHistory h g !! k =
  match filter (fun c => ch_name c = k) g with
  | [] => h !! k
  | _ :: _ => Some (default [] (h !! k) ++ nextsOf k g)
  end.
Proof.
  induction g as [|ch g IH]; intros h k; [done|].
  simpl. rewrite IH. unfold nextsOf, appendHistory.
  destruct (decide (ch_name ch = k)) as [E|E].
  - rewrite (filter_cons_True _ ch g E). subst k. rewrite lookup_insert_eq. simpl.
    destruct (filter _ g); simpl; [done|]. by rewrite <- app_assoc.
  - rewrite (filter_cons_False _ ch g E). by rewrite lookup_insert_ne.
Qed.

(** One step of the history loop of [undoLastChange]. *)
Definition popStep (changes : list change) (updated : gmap string (list Z))
    (k : string) : gmap string (list Z) :=
  <[k := popMatching (map nextValue (filter (fun c => ch_name c = k) changes))
           (default [] (updated !! k))]> updated.

Lemma popStep_fold changes order : forall h k,
  NoDup order ->
  foldl (popStep changes) h order !! k =
  if decide (k ∈ order)
  then Some (popMatching (map nextValue (filter (fun c => ch_name c = k) changes))
               (default [] (h !! k)))
  else h !! k.
Proof.
  induction order as [|n order IH]; intros h k Hnd.
  - simpl. destruct (decide (k ∈ [])) as [H|H]; [by apply elem_of_nil in H|done].
  - apply NoDup_cons in Hnd as [Hn Hnd]. simpl. rewrite IH by done.
    destruct (decide (k = n)) as [->|Hkn].
    + destruct (decide (n ∈ order)) as [?|_]; [done|].
      unfold popStep. rewrite lookup_insert_eq.
      destruct (decide (n ∈ n :: order)) as [_|H]; [done|].
      destruct H. apply list_elem_of_here.
    + assert (Hl : popStep changes h n !! k = h !! k)
        by (unfold popStep; by rewrite lookup_insert_ne).
      rewrite Hl.
      destruct (decide (k ∈ order)) as [Hk|Hk];
        destruct (decide (k ∈ n :: order)) as [Hk'|Hk']; try done.
      * destruct Hk'. by apply list_elem_of_further.
      * apply elem_of_cons in Hk' as [?|?]; done.
Qed.

Lemma setOrder_spec names : forall seen,
  NoDup (setOrder seen names) /\
  forall x, x ∈ setOrder seen names <-> x ∈ names /\ x ∉ seen.
Proof.
  induction names as [|n names IH]; intros seen; simpl.
  - split; [constructor|]. intros x. split; [by intros ?%elem_of_nil|].
    by intros [?%elem_of_nil _].
  - case_bool_decide as Hn.
    + destruct (IH seen) as [Hnd Hiff]. split; [done|].
      intros x. rewrite Hiff, elem_of_cons. split; [tauto|].
      intros [[->|Hx] Hs]; [done|tauto].
    + destruct (IH (n :: seen)) as [Hnd Hiff]. split.
      * apply NoDup_cons. split; [|done]. rewrite Hiff.
        intros [_ Hx]. apply Hx, list_elem_of_here.
      * intros x. rewrite elem_of_cons, Hiff, !elem_of_cons.
        destruct (decide (x = n)) as [->|Hxn]; [tauto|]. tauto.
Qed.

Lemma popWhile_matching nexts a : forall b,
  Forall (fun x => x ∈ nexts) a -> popWhile nexts (a ++ b) = popWhile nexts b.
Proof.
  induction a as [|x a IH]; intros b Ha; [done|].
  apply Forall_cons in Ha as [Hx Ha]. simpl.
  rewrite bool_decide_eq_true_2 by done. by apply IH.
Qed.

Lemma popMatching_appended nexts old appended :
  Forall (fun x => x ∈ nexts) appended ->
  popMatching nexts (old ++ appended) = popMatching nexts old.
Proof.
  intros H. unfold popMatching. rewrite reverse_app.
  rewrite popWhile_matching; [done|]. by apply Forall_reverse.
Qed.

Lemma popMatching_stop nexts old :
  (forall x, last old = Some x -> x ∉ nexts) -> popMatching nexts old = old.
Proof.
  intros H. unfold popMatching.
  destruct (reverse old) as [|x r] eqn:E.
  - simpl. by rewrite <- (reverse_involutive old), E.
  - simpl. rewrite bool_decide_eq_false_2.
    + by rewrite <- E, reverse_involutive.
    + apply H. by rewrite <- head_reverse, E.
Qed.

Lemma undoLastChange_snoc v h log g :
  undoLastChange (State v h (log ++ [g])) =
  State (foldl revert v (reverse g))
        (foldl (popStep (reverse g)) h (setOrder [] (map ch_name (reverse g))))
        log.
Proof.
  unfold undoLastChange. simpl. rewrite last_snoc. f_equal.
  rewrite length_app. simpl.
  replace (length log + 1 - 1) with (length log) by lia.
  apply take_app_length.
Qed.

Section RoundTrip.
Variable resourceData : list resource.

(** X2.  What undo restores after any effective call: the values and the
    action log always; the histories too, hence the whole state, provided
    every resource the call touched had a history whose last sample differs
    from each value the call wrote to that resource. *)
Theorem undo_round_trip ignoreMin rendered n arg st st' r p :
  resourceMap resourceData !! n = Some r ->
  match arg with Direct v => v | Updater f => f (values st !! n) end = Some p ->
  setResourceValue resourceData ignoreMin rendered n arg st = Some st' ->
  exists g,
    actionLog st' = actionLog st ++ [g] /\
    values (undoLastChange st') = values st /\
    actionLog (undoLastChange st') = actionLog st /\
    ((forall ch, ch ∈ g ->
        exists old, histories st !! ch_name ch = Some old /\
          forall x, last old = Some x ->
            forall ch', ch' ∈ g -> ch_name ch' = ch_name ch -> nextValue ch' <> x) ->
     undoLastChange st' = st).
Proof.
  intros Hr Hp H.
  destruct (setResourceValue_group _ _ _ _ _ _ _ _ _ Hr Hp H)
    as (g & Hlog & Hvals & Ht & Hhist).
  exists g. split; [done|].
  destruct st' as [v' h' log']. destruct st as [v h log]. simpl in *. subst.
  rewrite undoLastChange_snoc. simpl.
  rewrite (revert_replay g v Ht).
  split; [done|]. split; [done|]. intros Hcond. f_equal.
  apply map_eq. intros k.
  destruct (setOrder_spec (map ch_name (reverse g)) []) as [Hnd Hin].
  rewrite popStep_fold by done. rewrite appendHistory_fold.
  destruct (decide (k ∈ setOrder [] (map ch_name (reverse g)))) as [Hk|Hk].
  - apply Hin in Hk as [Hk _].
    change (map ch_name (reverse g)) with (ch_name <$> reverse g) in Hk.
    apply list_elem_of_fmap in Hk as (ch & -> & Hch). rewrite elem_of_reverse in Hch.
    destruct (Hcond ch Hch) as (old & Hold & Hlast).
    assert (Hne : filter (fun c => ch_name c = ch_name ch) g <> []).
    { intros E. assert (Hc : ch ∈ filter (fun c => ch_name c = ch_name ch) g)
        by (by apply list_elem_of_filter).
      rewrite E in Hc. by apply elem_of_nil in Hc. }
    destruct (filter (fun c => ch_name c = ch_name ch) g) as [|c0 l0] eqn:Ef; [done|].
    rewrite Hold. simpl. f_equal.
    rewrite popMatching_appended.
    + apply popMatching_stop. intros x Hx Hxin.
      change (map nextValue ?l) with (nextValue <$> l) in Hxin.
      apply list_elem_of_fmap in Hxin as (ch' & -> & Hch').
      apply list_elem_of_filter in Hch' as [Hname Hch'].
      rewrite elem_of_reverse in Hch'. by apply (Hlast _ Hx ch' Hch' Hname).
    + unfold nextsOf. rewrite Ef. apply Forall_forall. intros x Hx.
      change (map nextValue ?l) with (nextValue <$> l) in Hx.
      change (map nextValue ?l) with (nextValue <$> l).
      apply list_elem_of_fmap in Hx as (ch' & -> & Hch').
      apply list_elem_of_fmap. exists ch'. split; [done|].
      rewrite <- Ef in Hch'. apply list_elem_of_filter in Hch' as [Hname Hch'].
      apply list_elem_of_filter. split; [done|]. by apply elem_of_reverse_2.
  - assert (Hnone : filter (fun c => ch_name c = k) g = []).
    { destruct (filter (fun c => ch_name c = k) g) as [|c0 l0] eqn:Ef; [done|].
      exfalso. apply Hk, Hin. split; [|apply not_elem_of_nil].
      assert (Hc0 : c0 ∈ filter (fun c => ch_name c = k) g)
        by (rewrite Ef; apply list_elem_of_here).
      apply list_elem_of_filter in Hc0 as [Hname Hc0].
      change (map ch_name (reverse g)) with (ch_name <$> reverse g).
      apply list_elem_of_fmap. exists c0. split; [done|]. by apply elem_of_reverse_2. }
    by rewrite Hnone.
Qed.

End RoundTrip.

(** *** The cascade restores the floor on layered graphs

    A dependency graph is layered when every component of a resource sits
    exactly one tier below it, as in the shipped declarations.  On such a
    graph the breadth-first cascade meets the resources tier by tier, and a
    call whose snapshot is the current state leaves every floor respected. *)

Lemma computeMin_agree r (v1 v2 : gmap string Z) :
  (forall c, c ∈ components r -> v1 !! c = v2 !! c) ->
  computeMin r (Some v1) = computeMin r (Some v2).
Proof.
  intros H. unfold computeMin. destruct (components r) as [|c0 cs] eqn:E; [done|].
  rewrite <- E in *. clear E. generalize (Some 0%Z).
  induction (components r) as [|c cs' IH]; intros acc; [done|].
  simpl. rewrite (H c) by apply list_elem_of_here.
  apply IH. intros c' Hc'. apply H. by apply list_elem_of_further.
Qed.

Lemma computeMin_present r (vs : gmap string Z) m c :
  components r <> [] -> computeMin r (Some vs) = Some m ->
  c ∈ components r -> is_Some (vs !! c).
Proof.
  intros Hne Hm Hc. destruct (vs !! c) as [x|] eqn:E; [by eexists|].
  rewrite (computeMin_absent r vs c Hc E) in Hm. done.
Qed.

Lemma sumOver_le (v1 v2 : gmap string Z) cs :
  (forall c, c ∈ cs -> is_Some (v1 !! c) /\
     (default 0 (v1 !! c) <= default 0 (v2 !! c))%Z) ->
  (sumOver v1 cs <= sumOver v2 cs)%Z.
Proof.
  induction cs as [|c cs IH]; intros H; simpl; [lia|].
  destruct (H c (list_elem_of_here _ _)) as [_ Hle].
  assert (sumOver v1 cs <= sumOver v2 cs)%Z; [|lia].
  apply IH. intros c' Hc'. apply H. by apply list_elem_of_further.
Qed.

Section Dependents.
Variable resourceData : list resource.

Lemma dependents_inner nm cs : forall (m : gmap string (list string)) c d,
  d ∈ default [] (foldl (fun m c' => <[c' := default [] (m !! c') ++ [nm]]> m) m cs !! c)
  <-> d ∈ default [] (m !! c) \/ (d = nm /\ c ∈ cs).
Proof.
  induction cs as [|c0 cs IH]; intros m c d; simpl.
  - split; [by left|]. intros [H|[_ H]]; [done|by apply elem_of_nil in H].
  - rewrite IH. destruct (decide (c0 = c)) as [->|Hne].
    + rewrite lookup_insert_eq. simpl. rewrite elem_of_app, list_elem_of_singleton.
      rewrite elem_of_cons. tauto.
    + rewrite lookup_insert_ne by done. rewrite elem_of_cons.
      split; [tauto|]. intros [H|[H1 [H2|H2]]]; [tauto|congruence|tauto].
Qed.

Lemma dependentsMap_spec_aux rs : forall c d,
  d ∈ default []
        (foldl (fun m r =>
                  foldl (fun m c' => <[c' := default [] (m !! c') ++ [name r]]> m)
                        m (components r)) (∅ : gmap string (list string)) rs !! c)
  <-> exists r, r ∈ rs /\ name r = d /\ c ∈ components r.
Proof.
  induction rs as [|r rs IH] using rev_ind; intros c d.
  - simpl. rewrite lookup_empty. simpl. split; [by intros ?%elem_of_nil|].
    by intros (r & ?%elem_of_nil & _).
  - rewrite foldl_app. simpl. rewrite dependents_inner, IH. split.
    + intros [(r' & Hr' & Hn & Hc)|[-> Hc]].
      * exists r'. split; [|done]. apply elem_of_app. by left.
      * exists r. split; [|done]. apply elem_of_app. right. apply list_elem_of_here.
    + intros (r' & Hr' & Hn & Hc). apply elem_of_app in Hr' as [Hr'|Hr'].
      * left. by exists r'.
      * apply list_elem_of_singleton in Hr' as ->. by right.
Qed.

(** [dependentsMap[c]] lists the resources that have [c] as a component. *)
Lemma dependentsMap_spec c d :
  d ∈ default [] (dependentsMap resourceData !! c)
  <-> exists r, r ∈ resourceData /\ name r = d /\ c ∈ components r.
Proof. apply dependentsMap_spec_aux. Qed.

Lemma resourceMap_spec k r :
  NoDup (map name resourceData) ->
  resourceMap resourceData !! k = Some r <-> r ∈ resourceData /\ name r = k.
Proof.
  intros Hnd. split.
  - apply GraphFacts.fromEntries_lookup_Some.
  - intros [Hin <-]. by apply GraphFacts.fromEntries_NoDup.
Qed.

End Dependents.

Section Layered.
Variable resourceData : list resource.
Variable tier : string -> nat.
Hypothesis names_unique : NoDup (map name resourceData).
Hypothesis layered :
  forall r c, r ∈ resourceData -> c ∈ components r -> tier (name r) = S (tier c).

(** The floor of one resource. *)
Definition ok (vals : gmap string Z) (r : resource) : Prop :=
  Js.geb (vals !! name r) (computeMin r (Some vals)) = true.

(** Every resource with components, and each of its components, has a
    value. *)
Definition present (vals : gmap string Z) : Prop :=
  forall r, r ∈ resourceData -> components r <> [] ->
    is_Some (vals !! name r) /\ forall c, c ∈ components r -> is_Some (vals !! c).

Lemma ok_inv vals r :
  ok vals r -> exists x m,
    vals !! name r = Some x /\ computeMin r (Some vals) = Some m /\ (m <= x)%Z.
Proof.
  unfold ok, Js.geb. intros H.
  destruct (vals !! name r) as [x|]; [|done].
  destruct (computeMin r (Some vals)) as [m|]; [|done].
  exists x, m. apply Z.leb_le in H. done.
Qed.

Lemma floor_present vals : floorInvariant resourceData vals -> present vals.
Proof.
  intros H r Hr Hne. destruct (ok_inv vals r (H r Hr Hne)) as (x & m & Hx & Hm & _).
  split; [by eexists|]. intros c Hc. by eapply computeMin_present.
Qed.

Lemma present_insert vals k x : present vals -> present (<[k := x]> vals).
Proof.
  intros H r Hr Hne. destruct (H r Hr Hne) as [Hn Hc].
  split; [|intros c Hcin]; apply lookup_insert_is_Some';
    right; [done|by apply Hc].
Qed.

Lemma not_own_component r : r ∈ resourceData -> name r ∉ components r.
Proof. intros Hr Hc. pose proof (layered r _ Hr Hc). lia. Qed.

Lemma ok_insert_other vals k x r :
  name r <> k -> k ∉ components r -> ok vals r -> ok (<[k := x]> vals) r.
Proof.
  unfold ok. intros Hn Hk H. rewrite lookup_insert_ne by done.
  rewrite (computeMin_agree r (<[k := x]> vals) vals); [done|].
  intros c Hc. rewrite lookup_insert_ne; [done|]. by intros ->.
Qed.

Lemma ok_insert_self vals r m x :
  r ∈ resourceData ->
  computeMin r (Some vals) = Some m -> (m <= x)%Z ->
  ok (<[name r := x]> vals) r.
Proof.
  unfold ok. intros Hr Hm Hle. rewrite lookup_insert_eq.
  rewrite (computeMin_agree r (<[name r := x]> vals) vals).
  - rewrite Hm. simpl. by apply Z.leb_le.
  - intros c Hc. rewrite lookup_insert_ne; [done|].
    intros E. apply (not_own_component r Hr). by rewrite E.
Qed.

(** The queue holds resources of one tier followed by resources of the
    next. *)
Definition queueShape (k : nat) (q : list string) : Prop :=
  exists front back,
    q = front ++ back /\
    Forall (fun x => tier x = k) front /\
    Forall (fun x => tier x = S k) back.

(** Invariant of the loop over the dependents of [current]: a resource
    whose floor is broken is awaited, either as a dependent of a queued
    resource or as one of the [remaining] dependents of [current]. *)
Definition inner (k : nat) (current : string) (remaining : list string)
    (cs : cascadeState) : Prop :=
  queueShape k (queue cs) /\
  (forall v, v ∈ visited cs -> v ∈ queue cs \/ tier v <= k) /\
  (forall r, r ∈ resourceData -> components r <> [] ->
     ok (newVals cs) r \/
     (exists q, q ∈ queue cs /\ q ∈ components r) \/
     (current ∈ components r /\ name r ∈ remaining)) /\
  present (newVals cs).

Lemma inner_step k current d rest cs :
  tier current = k ->
  (exists r, r ∈ resourceData /\ name r = d /\ current ∈ components r) ->
  inner k current (d :: rest) cs ->
  inner k current rest (cascadeStep resourceData cs d).
Proof.
  intros Hk (rd & Hrd & Hname & Hcur) (Hq & Hv & Hf & Hp).
  assert (Hmap : resourceMap resourceData !! d = Some rd)
    by (by apply resourceMap_spec).
  assert (Hne : components rd <> []).
  { intros E. rewrite E in Hcur. by apply elem_of_nil in Hcur. }
  assert (Htd : tier d = S k).
  { rewrite <- Hname, <- Hk. by apply layered. }
  destruct (Hp rd Hrd Hne) as [[x Hx] Hcomps]. rewrite Hname in Hx.
  pose proof (computeMin_sum rd (newVals cs) Hne Hcomps) as Hm.
  set (m := sumOver (newVals cs) (components rd)) in *.
  unfold cascadeStep. rewrite Hmap, Hm, Hx. simpl.
  destruct (x <? m)%Z eqn:Hlt.
  - apply Z.ltb_lt in Hlt.
    assert (Hdq : d ∈ (if decide (d ∈ visited cs) then queue cs else queue cs ++ [d])).
    { destruct (decide (d ∈ visited cs)) as [Hvis|Hvis].
      - destruct (Hv d Hvis) as [?|?]; [done|lia].
      - apply elem_of_app. right. apply list_elem_of_here. }
    assert (Hsub : forall q, q ∈ queue cs ->
              q ∈ (if decide (d ∈ visited cs) then queue cs else queue cs ++ [d])).
    { intros q Hqin. destruct (decide (d ∈ visited cs)); [done|].
      apply elem_of_app. by left. }
    split; [|split; [|split]]; simpl.
    + destruct (decide (d ∈ visited cs)); [done|].
      destruct Hq as (front & back & -> & Hfront & Hback).
      exists front, (back ++ [d]). rewrite app_assoc. split; [done|].
      split; [done|]. apply Forall_app. split; [done|].
      by apply Forall_singleton.
    + intros v Hvin. destruct (decide (d ∈ visited cs)) as [Hvis|Hvis].
      * by apply Hv.
      * apply elem_of_union in Hvin as [Hvin|Hvin].
        -- apply elem_of_singleton in Hvin as ->. by left.
        -- destruct (Hv v Hvin) as [?|?]; [left|by right].
           apply elem_of_app. by left.
    + intros r Hr Hrne. destruct (decide (name r = d)) as [Hrd'|Hrd'].
      * left. assert (r = rd) as ->.
        { assert (Hl : resourceMap resourceData !! d = Some r)
            by (apply resourceMap_spec; [done|by split]).
          congruence. }
        rewrite <- Hname. eapply ok_insert_self; [done|exact Hm|lia].
      * destruct (decide (d ∈ components r)) as [Hdc|Hdc].
        { right. left. by exists d. }
        destruct (Hf r Hr Hrne) as [Hok|[(q & Hqin & Hqc)|[Hc Hrem]]].
        -- left. by apply ok_insert_other.
        -- right. left. exists q. split; [by apply Hsub|done].
        -- right. right. split; [done|].
           apply elem_of_cons in Hrem as [?|?]; [done|done].
    + by apply present_insert.
  - apply Z.ltb_ge in Hlt.
    split; [done|]. split; [done|]. split; [|done].
    intros r Hr Hrne.
    destruct (Hf r Hr Hrne) as [Hok|[Hqueue|[Hc Hrem]]]; [by left|by right; left|].
    apply elem_of_cons in Hrem as [Hrd'|Hrem]; [|by right; right].
    left. assert (r = rd) as ->.
    { assert (Hl : resourceMap resourceData !! d = Some r)
        by (apply resourceMap_spec; [done|by split]).
      congruence. }
    unfold ok. rewrite Hname, Hx, Hm. simpl. by apply Z.leb_le.
Qed.

Lemma inner_steps k current : forall ds cs,
  tier current = k ->
  (forall d, d ∈ ds ->
     exists r, r ∈ resourceData /\ name r = d /\ current ∈ components r) ->
  inner k current ds cs ->
  inner k current [] (foldl (cascadeStep resourceData) cs ds).
Proof.
  induction ds as [|d ds IH]; intros cs Hk Hds Hinv; [done|].
  simpl. apply IH; [done| |].
  - intros d' Hd'. apply Hds. by apply list_elem_of_further.
  - apply inner_step; [done| |done]. apply Hds. apply list_elem_of_here.
Qed.

(** Invariant of the [while] loop. *)
Definition outer (k : nat) (cs : cascadeState) : Prop :=
  queueShape k (queue cs) /\
  (forall v, v ∈ visited cs -> v ∈ queue cs \/ tier v <= k) /\
  (forall r, r ∈ resourceData -> components r <> [] ->
     ok (newVals cs) r \/ exists q, q ∈ queue cs /\ q ∈ components r) /\
  present (newVals cs).

Lemma cascade_floor fuel : forall cs cs' k,
  cascade resourceData fuel cs = Some cs' ->
  outer k cs -> floorInvariant resourceData (newVals cs').
Proof.
  assert (Hdone : forall cs k, queue cs = [] -> outer k cs ->
                    floorInvariant resourceData (newVals cs)).
  { intros cs k Hq (_ & _ & Hf & _) r Hr Hne.
    destruct (Hf r Hr Hne) as [?|(q & Hqin & _)]; [done|].
    rewrite Hq in Hqin. by apply elem_of_nil in Hqin. }
  induction fuel as [|fuel IH]; intros [vals adj q vis] cs' k H Hout.
  - destruct q; simpl in H; [|done]. injection H as <-. by eapply Hdone.
  - destruct q as [|current rest]; simpl in H.
    { injection H as <-. by eapply Hdone. }
    destruct Hout as (Hq & Hv & Hf & Hp). simpl in *.
    set (cs0 := CascadeState vals adj rest vis) in *.
    assert (Hshape : queueShape (tier current) rest /\ k <= tier current).
    { destruct Hq as (front & back & E & Hfront & Hback).
      destruct front as [|f front]; simpl in E.
      - subst back. apply Forall_cons in Hback as [Hc Hback]. split; [|lia].
        exists rest, []. rewrite app_nil_r, Hc. done.
      - injection E as <- ->. apply Forall_cons in Hfront as [Hc Hfront].
        split; [|lia]. exists front, back. by rewrite Hc. }
    destruct Hshape as [Hshape Hle].
    assert (Hinner : inner (tier current) current
                       (default [] (dependentsMap resourceData !! current)) cs0).
    { split; [done|]. split; [|split; [|done]]; simpl.
      - intros v Hvin. destruct (Hv v Hvin) as [Hin|Ht]; [|right; lia].
        apply elem_of_cons in Hin as [->|Hin]; [by right|by left].
      - intros r Hr Hne. destruct (Hf r Hr Hne) as [?|(q & Hqin & Hqc)]; [by left|].
        apply elem_of_cons in Hqin as [->|Hqin].
        + right. right. split; [done|]. apply dependentsMap_spec. by exists r.
        + right. left. by exists q. }
    apply inner_steps in Hinner; [|done|].
    2:{ intros d Hd. by apply dependentsMap_spec in Hd. }
    eapply IH; [exact H|].
    destruct Hinner as (Hq1 & Hv1 & Hf1 & Hp1).
    split; [exact Hq1|]. split; [exact Hv1|]. split; [|exact Hp1].
    intros r Hr Hne. destruct (Hf1 r Hr Hne) as [?|[?|[_ Hnil]]]; [by left|by right|].
    by apply elem_of_nil in Hnil.
Qed.

(** One call with an up-to-date snapshot keeps the floor invariant. *)
Theorem floor_preserved n arg st st' :
  floorInvariant resourceData (values st) ->
  setResourceValue resourceData false (Some (values st)) n arg st = Some st' ->
  floorInvariant resourceData (values st').
Proof.
  intros Hfloor H. pose proof (floor_present _ Hfloor) as Hpres.
  unfold setResourceValue in H.
  destruct (resourceMap resourceData !! n) as [r0|] eqn:Hr0; [|by injection H as <-].
  destruct (match arg with Direct v => v | Updater f => f (values st !! n) end)
    as [p|]; [|by injection H as <-].
  apply resourceMap_spec in Hr0 as [Hr0 Hn0]; [|done]. subst n.
  set (next := match computeMin r0 (Some (values st)) with
               | Some m => if negb false && (p <? m)%Z then m else p
               | None => p end) in *.
  (* the floor of every resource right after the primary assignment *)
  assert (Hstart : forall r, r ∈ resourceData -> components r <> [] ->
            ok (<[name r0 := next]> (values st)) r \/
            (name r0 ∈ components r /\
             exists v, values st !! name r0 = Some v /\ (v < next)%Z)).
  { intros r Hr Hne. destruct (ok_inv _ r (Hfloor r Hr Hne)) as (x & m & Hx & Hm & Hle).
    destruct (decide (name r = name r0)) as [E|E].
    - left. assert (r = r0) as ->.
      { assert (Hl : resourceMap resourceData !! name r0 = Some r)
          by (apply resourceMap_spec; [done|by split]).
        assert (Hl0 : resourceMap resourceData !! name r0 = Some r0)
          by (apply resourceMap_spec; [done|by split]).
        congruence. }
      eapply ok_insert_self; [done|exact Hm|].
      subst next. rewrite Hm. simpl. destruct (p <? m)%Z eqn:Ep; [lia|].
      apply Z.ltb_ge in Ep. lia.
    - destruct (decide (name r0 ∈ components r)) as [Hc|Hc];
        [|left; apply ok_insert_other; [done|done|by apply Hfloor]].
      destruct (proj2 (Hpres r Hr Hne) _ Hc) as [v Hv].
      destruct (decide (v < next)%Z) as [Hlt|Hge]; [right; eauto|].
      left. unfold ok. rewrite lookup_insert_ne by done. rewrite Hx.
      assert (Hall : forall c, c ∈ components r ->
                is_Some (<[name r0 := next]> (values st) !! c)).
      { intros c Hcin. apply lookup_insert_is_Some'. right.
        by apply (proj2 (Hpres r Hr Hne)). }
      rewrite (computeMin_sum r _ Hne Hall).
      rewrite (computeMin_sum r _ Hne (proj2 (Hpres r Hr Hne))) in Hm.
      injection Hm as <-. simpl. apply Z.leb_le.
      etrans; [|exact Hle]. apply sumOver_le. intros c Hcin.
      split; [by apply Hall|].
      destruct (decide (c = name r0)) as [->|Hcn].
      + rewrite lookup_insert_eq, Hv. simpl. lia.
      + rewrite lookup_insert_ne by done. lia. }
  destruct (negb false && Js.gtb (Some next) (values st !! name r0)) eqn:Hcasc.
  - destruct (cascade resourceData (S (length resourceData)) _) as [cs|] eqn:Hc;
      [|done].
    injection H as <-. simpl.
    eapply (cascade_floor _ _ _ (tier (name r0)) Hc).
    split; [|split; [|split]]; simpl.
    + exists [name r0], []. split; [done|]. split; [by apply Forall_singleton|done].
    + intros v Hv. apply elem_of_singleton in Hv as ->. left. apply list_elem_of_here.
    + intros r Hr Hne. destruct (Hstart r Hr Hne) as [?|[Hc' _]]; [by left|].
      right. exists (name r0). split; [apply list_elem_of_here|done].
    + by apply present_insert.
  - injection H as <-. simpl. intros r Hr Hne.
    destruct (Hstart r Hr Hne) as [?|(_ & v & Hv & Hlt)]; [done|].
    rewrite Hv in Hcasc. simpl in Hcasc. apply Z.ltb_ge in Hcasc. lia.
Qed.

(** A sequence of calls, each one issued against the state the previous
    one left. *)
Fixpoint runFresh (calls : list (string * valueOrUpdater)) (st : state)
    : option state :=
  match calls with
  | [] => Some st
  | (n, arg) :: rest =>
      match setResourceValue resourceData false (Some (values st)) n arg st with
      | Some st' => runFresh rest st'
      | None => None
      end
  end.

(** Every such sequence completes and ends in a state that respects the
    floor invariant; so does, therefore, each of its prefixes. *)
Theorem floor_preserved_by_calls calls : forall st,
  floorInvariant resourceData (values st) ->
  exists st', runFresh calls st = Some st' /\
              floorInvariant resourceData (values st').
Proof.
  induction calls as [|[n arg] calls IH]; intros st Hfloor; [by exists st|].
  simpl.
  destruct (setResourceValue_total resourceData false (Some (values st)) n arg st)
    as [st1 Hst1].
  rewrite Hst1. apply IH. by eapply floor_preserved.
Qed.

End Layered.

(** *** The shipped resources *)

(** The state right after a reset: every resource at its minimum. *)
Definition freshState : state := buildInitial rawResources.

Example freshState_values :
  map (fun n => values freshState !! n)
      ["iron"; "coal"; "oil"; "steel"; "plastics"; "consumer_goods"]
  = [Some 5; Some 10; Some 5; Some 15; Some 15; Some 30]%Z.
Proof. vm_compute. reflexivity. Qed.

(** Deciding the floor invariant of the shipped resources on given values. *)
Lemma floorInvariant_shipped (vals : gmap string Z) :
  floorInvariant rawResources vals <->
  Forall (fun r => components r = [] \/
                   Js.geb (vals !! name r) (computeMin r (Some vals)) = true)
         rawResources.
Proof.
  rewrite Forall_forall. unfold floorInvariant. split.
  - intros H r Hr. destruct (components r) eqn:E; [by left|right].
    apply H; [done|]. by rewrite E.
  - intros H r Hr Hne. destruct (H r Hr) as [E|E]; [done|exact E].
Qed.

Ltac floor_by_evaluation :=
  repeat (apply Forall_cons_2;
          [first [left; reflexivity | right; vm_compute; reflexivity]|]);
  apply Forall_nil_2.

Example freshState_floor : floorInvariant rawResources (values freshState).
Proof.
  apply floorInvariant_shipped. unfold rawResources. floor_by_evaluation.
Qed.

Lemma shipped_layered r c :
  r ∈ rawResources -> c ∈ components r ->
  GraphFacts.shippedRank (name r) = S (GraphFacts.shippedRank c).
Proof.
  intros Hr Hc. unfold rawResources in Hr.
  repeat (apply elem_of_cons in Hr as [->|Hr]); simpl in Hc;
    try (by apply elem_of_nil in Hc); try (by apply elem_of_nil in Hr);
    repeat (apply elem_of_cons in Hc as [->|Hc]);
    try (by apply elem_of_nil in Hc); reflexivity.
Qed.

(** X1.  On the shipped resources, calls that each see the state left by
    the previous one keep every resource at or above the sum of its
    components, from any state that does. *)
Theorem shipped_floor_invariant (calls : list (string * valueOrUpdater)) (st : state) :
  floorInvariant rawResources (values st) ->
  exists st', runFresh rawResources calls st = Some st' /\
              floorInvariant rawResources (values st').
Proof.
  apply (floor_preserved_by_calls rawResources GraphFacts.shippedRank
           GraphFacts.rawResources_NoDup shipped_layered).
Qed.

Lemma shipped_floor_invariant_witness :
  exists st',
    runFresh rawResources
      [("coal", Direct (Some 20%Z)); ("steel", Updater (fun prev => prev));
       ("iron", Direct (Some 1%Z)); ("coal", Direct (Some 12%Z))]
      freshState = Some st' /\
    floorInvariant rawResources (values st').
Proof. apply shipped_floor_invariant. exact freshState_floor. Defined.

(** Coal raised from 10 to 20 after a reset: steel and plastics follow to
    25, consumer goods to 50, in one change-group. *)
Definition coalRaised : state :=
  default freshState
    (setResourceValue rawResources false (Some (values freshState)) "coal"
       (Direct (Some 20%Z)) freshState).

Example coalRaised_values :
  setResourceValue rawResources false (Some (values freshState)) "coal"
    (Direct (Some 20%Z)) freshState = Some coalRaised /\
  map (fun n => values coalRaised !! n)
      ["iron"; "coal"; "oil"; "steel"; "plastics"; "consumer_goods"]
  = [Some 5; Some 20; Some 5; Some 25; Some 25; Some 50]%Z /\
  map (map ch_name) (actionLog coalRaised)
  = [["coal"; "steel"; "plastics"; "consumer_goods"]] /\
  undoLastChange coalRaised = freshState.
Proof. repeat split; vm_compute; reflexivity. Qed.

Lemma undo_round_trip_witness :
  exists g,
    actionLog coalRaised = actionLog freshState ++ [g] /\
    values (undoLastChange coalRaised) = values freshState /\
    actionLog (undoLastChange coalRaised) = actionLog freshState /\
    ((forall ch, ch ∈ g ->
        exists old, histories freshState !! ch_name ch = Some old /\
          forall x, last old = Some x ->
            forall ch', ch' ∈ g -> ch_name ch' = ch_name ch -> nextValue ch' <> x) ->
     undoLastChange coalRaised = freshState).
Proof.
  apply (undo_round_trip rawResources false (Some (values freshState)) "coal"
           (Direct (Some 20%Z)) freshState coalRaised
           (Resource "coal" "Coal" [] (Some 10%Z)) 20%Z).
  - reflexivity.
  - reflexivity.
  - vm_compute. reflexivity.
Defined.

(** The updater that the "minus" button of a resource box passes to
    [setValue] while minimums are respected:
    [prev => Math.max(min, (typeof prev === 'number' ? prev : value) - step)]
    with [step = 1], [min] and [value] being the rendered ones. *)
Definition minusButton (min value : Z) : valueOrUpdater :=
  Updater (fun prev => Some (Z.max min (default value prev - 1))).

(** C2, as the program behaves: the "minus" button pressed on iron at its
    minimum 5 issues a call that resolves to 5 again; the call logs a change
    from 5 to 5 and appends a second 5 to the history.  The undo that
    follows restores the values and removes the log entry, but its loop
    removes both samples, so the history of iron is left empty instead of
    being restored to its previous content. *)
Theorem undo_drops_earlier_sample :
  exists st1,
    setResourceValue rawResources false (Some (values freshState)) "iron"
      (minusButton 5 5) freshState = Some st1 /\
    values st1 = values freshState /\
    histories freshState !! "iron" = Some [5%Z] /\
    histories st1 !! "iron" = Some [5%Z; 5%Z] /\
    length (actionLog st1) = S (length (actionLog freshState)) /\
    values (undoLastChange st1) = values freshState /\
    length (actionLog (undoLastChange st1)) = length (actionLog freshState) /\
    histories (undoLastChange st1) !! "iron" = Some [].
Proof. eexists. repeat split; vm_compute; reflexivity. Qed.

(** A state of the shipped resources in which steel is one above its floor. *)
Definition steelAbove : state :=
  State (<["steel" := 16%Z]> (<["consumer_goods" := 31%Z]> (values freshState)))
        (histories freshState) [].

Example steelAbove_floor : floorInvariant rawResources (values steelAbove).
Proof.
  apply floorInvariant_shipped. unfold rawResources. floor_by_evaluation.
Qed.

(** Two calls issued from one render, second one clamped against the
    snapshot of that render: iron goes up to 6, then steel is accepted at 15
    because the snapshot still says that its floor is 5 + 10. *)
Example stale_snapshot_breaks_floor :
  exists st1 st2,
    setResourceValue rawResources false (Some (values steelAbove)) "iron"
      (Direct (Some 6%Z)) steelAbove = Some st1 /\
    setResourceValue rawResources false (Some (values steelAbove)) "steel"
      (Direct (Some 15%Z)) st1 = Some st2 /\
    values st2 !! "steel" = Some 15%Z /\
    computeMin steel (Some (values st2)) = Some 16%Z.
Proof. do 2 eexists. repeat split; vm_compute; reflexivity. Qed.

End EngineFacts.

(** ** Economic noise *)

Module NoiseFacts.
Import Graph Engine Noise EngineFacts.

Lemma computeAdjustment_name ignoreMin rand1 rand2 r k next :
  computeAdjustment ignoreMin rand1 rand2 r = Some (k, next) -> k = res_name r.
Proof.
  unfold computeAdjustment. intros H.
  repeat match type of H with
         | context [if ?b then _ else _] => destruct b
         | context [match ?o with Some _ => _ | None => _ end] => destruct o
         end; congruence.
Qed.

(** At the floor the adjustment keeps the value or adds one. *)
Lemma computeAdjustment_at_floor rand1 rand2 n v :
  computeAdjustment false rand1 rand2 (Res n (Some v) (Some v)) = None \/
  computeAdjustment false rand1 rand2 (Res n (Some v) (Some v)) = Some (n, Some v) \/
  computeAdjustment false rand1 rand2 (Res n (Some v) (Some v))
    = Some (n, Some (v + 1)%Z).
Proof.
  unfold computeAdjustment. simpl.
  destruct (negb (Qle_bool (4 # 10) rand1)); [auto|].
  destruct (randBelow rand2 (1 # 10) (8 # 10) (v - v) v).
  - replace (v + -1 <? v)%Z with true by (symmetry; apply Z.ltb_lt; lia).
    rewrite Z.eqb_refl. auto.
  - replace (v + 1 <? v)%Z with false by (symmetry; apply Z.ltb_ge; lia).
    replace (v + 1 =? v)%Z with false by (symmetry; apply Z.eqb_neq; lia).
    auto.
Qed.

Section Tick.
Variable resourceData : list resource.

Lemma tick_keeps_floor captured draws n v : forall rs i st x,
  (forall r, r ∈ rs -> res_name r = n ->
     res_value r = Some v /\ res_min r = Some v) ->
  values st !! n = Some x -> (v <= x)%Z ->
  exists st' y,
    tick resourceData false captured draws i rs st = Some st' /\
    values st' !! n = Some y /\ (v <= y)%Z.
Proof.
  induction rs as [|r rs IH]; intros i st x Hrs Hx Hvx.
  { by exists st, x. }
  assert (Hrs' : forall r', r' ∈ rs -> res_name r' = n ->
                            res_value r' = Some v /\ res_min r' = Some v).
  { intros r' Hr'. apply Hrs. by apply list_elem_of_further. }
  simpl.
  destruct (computeAdjustment false (draws i).1 (draws i).2 r) as [[k next]|] eqn:Hadj;
    [|by eapply IH].
  pose proof (computeAdjustment_name _ _ _ _ _ _ Hadj) as ->.
  destruct (setResourceValue_total resourceData false captured (res_name r)
              (Direct next) st) as [st1 Hst1].
  rewrite Hst1.
  destruct (setResourceValue_values _ _ _ _ _ _ _ Hst1) as (Hother & Hself & Hsame).
  destruct (decide (res_name r = n)) as [Hn|Hn].
  - destruct (Hrs r (list_elem_of_here _ _) Hn) as [Hval Hmin].
    destruct r as [rn rmin rval]. simpl in *. subst rn rmin rval.
    assert (Hnext : next = Some v \/ next = Some (v + 1)%Z).
    { destruct (computeAdjustment_at_floor (draws i).1 (draws i).2 n v) as [E|[E|E]];
        rewrite E in Hadj; [done|left|right]; congruence. }
    destruct (resourceMap resourceData !! n) as [res|] eqn:Hres.
    + assert (exists p, next = Some p /\ (v <= p)%Z) as (p & -> & Hp).
      { destruct Hnext as [->| ->]; eexists; (split; [done|lia]). }
      destruct (Hself p res eq_refl eq_refl) as (y & Hy & Hpy).
      eapply IH; [done|exact Hy|lia].
    + rewrite (Hsame (or_introl eq_refl)). by eapply IH.
  - destruct (Hother n (fun E => Hn (eq_sym E)) x Hx) as (y & Hy & Hxy).
    eapply IH; [done|exact Hy|lia].
Qed.


End Tick.


(** C1, as the program behaves: one noise tick on the shipped resources,
    started from a state that satisfies the floor invariant.  The tick
    raises iron from 5 to 6 and then lowers steel from 16 to 15; the second
    call checks 15 against the minimum of the render the tick started from
    (5 + 10), not against the values the first call left (6 + 10).  After
    the tick steel is below the sum of its components. *)
Theorem noise_tick_breaks_floor :
  floorInvariant rawResources (values steelAbove) /\
  exists st',
    tick rawResources false (Some (values steelAbove))
      (fun i => nth i [(1 # 2, 1 # 2); (0, 0); (0, 0); (1 # 2, 1 # 10)] (0, 0))%Q 0
      (renderResources (values steelAbove) rawResources)
      steelAbove = Some st' /\
    values st' !! "iron" = Some 6%Z /\
    values st' !! "coal" = Some 10%Z /\
    values st' !! "steel" = Some 15%Z /\
    computeMin steel (Some (values st')) = Some 16%Z /\
    ~ floorInvariant rawResources (values st').
Proof.
  split; [exact steelAbove_floor|].
  eexists. split; [vm_compute; reflexivity|].
  repeat split; try (vm_compute; reflexivity).
  intros H. specialize (H steel).
  assert (Hin : steel ∈ rawResources).
  { unfold rawResources, steel. do 3 apply list_elem_of_further. apply list_elem_of_here. }
  specialize (H Hin ltac:(discriminate)). vm_compute in H. discriminate.
Qed.

End NoiseFacts.

(** ** Contracts: completion and decay *)

Module ContractFacts.
Import Graph Engine Contracts EngineFacts.

#[local] Arguments completionValue : simpl never.
#[local] Arguments decayValue : simpl never.
#[local] Arguments aboveTarget : simpl never.
#[local] Arguments belowTarget : simpl never.

Lemma find_unknown_id (l : list contract) (cid : Z) :
  (forall c, c ∈ l -> c_id c <> cid) ->
  List.find (fun c => bool_decide (c_id c = cid)) l = None.
Proof.
  induction l as [|c l IH]; intros H; simpl; [done|].
  rewrite bool_decide_eq_false_2 by (apply H; apply list_elem_of_here).
  apply IH. intros c' Hc'. apply H. by apply list_elem_of_further.
Qed.

Lemma filter_unknown_id (l : list contract) (cid : Z) :
  (forall c, c ∈ l -> c_id c <> cid) ->
  List.filter (fun c => negb (bool_decide (c_id c = cid))) l = l.
Proof.
  induction l as [|c l IH]; intros H; simpl; [done|].
  rewrite bool_decide_eq_false_2 by (apply H; apply list_elem_of_here).
  simpl. f_equal. apply IH. intros c' Hc'. apply H. by apply list_elem_of_further.
Qed.

Section Lifecycle.
Variable resourceData : list resource.

(** X3.  Decay of an id that is neither rendered nor active changes
    nothing. *)
Lemma onContractDecay_unknown ignoreMin rendered renderedContracts cid st :
  (forall c, c ∈ renderedContracts -> c_id c <> cid) ->
  (forall c, c ∈ contracts st -> c_id c <> cid) ->
  onContractDecay resourceData ignoreMin rendered renderedContracts cid st = Some st.
Proof.
  intros Hr Ha. unfold onContractDecay.
  rewrite find_unknown_id, filter_unknown_id by done. by destruct st.
Qed.

(** X4.  Completion of such an id leaves contracts and resources alone, and
    still multiplies the escalator by 1.1. *)
Lemma completeContract_unknown ignoreMin rendered renderedContracts cid st :
  (forall c, c ∈ renderedContracts -> c_id c <> cid) ->
  (forall c, c ∈ contracts st -> c_id c <> cid) ->
  completeContract resourceData ignoreMin rendered renderedContracts cid st
  = Some (Hook (contracts st) (currentTargetValue st * 1.1)%float (engine st)).
Proof.
  intros Hr Ha. unfold completeContract.
  by rewrite find_unknown_id, filter_unknown_id.
Qed.

(** A call that does not raise the resource is a plain assignment. *)
Lemma setResourceValue_assigns ignoreMin rendered n r p st :
  resourceMap resourceData !! n = Some r ->
  let next :=
    match computeMin r rendered with
    | Some m => if negb ignoreMin && (p <? m)%Z then m else p
    | None => p
    end in
  negb ignoreMin && Js.gtb (Some next) (values st !! n) = false ->
  exists st',
    setResourceValue resourceData ignoreMin rendered n (Direct (Some p)) st = Some st' /\
    values st' = <[n := next]> (values st).
Proof.
  intros Hr next Hno. unfold setResourceValue. rewrite Hr.
  fold next. rewrite Hno. eexists. split; reflexivity.
Qed.

(** A bundle entry that completion can consume without raising anything:
    the resource is declared and has a value, and, when minimums are
    respected, neither its minimum nor the requested value exceeds it. *)
Definition consumable (ignoreMin : bool) (vals : gmap string Z)
    (e : string * nat) : Prop :=
  exists r v t m,
    resourceMap resourceData !! e.1 = Some r /\
    vals !! e.1 = Some v /\
    completionValue (Some v) e.2 = Some t /\
    computeMin r (Some vals) = Some m /\
    (ignoreMin = false -> (m <= v)%Z /\ (t <= v)%Z).

Lemma applyBundle_completion ignoreMin rendered : forall bundle e,
  NoDup (map fst bundle) ->
  Forall (consumable ignoreMin rendered) bundle ->
  (forall n, n ∈ map fst bundle -> values e !! n = rendered !! n) ->
  exists e',
    applyBundle resourceData ignoreMin rendered completionValue bundle e = Some e' /\
    (forall k, k ∉ map fst bundle -> values e' !! k = values e !! k) /\
    (forall n q r v t m,
       (n, q) ∈ bundle ->
       resourceMap resourceData !! n = Some r ->
       rendered !! n = Some v ->
       completionValue (Some v) q = Some t ->
       computeMin r (Some rendered) = Some m ->
       values e' !! n = Some (if ignoreMin then t else Z.max t m)).
Proof.
  induction bundle as [|[n0 q0] bundle IH]; intros e Hnd Hall Hsync.
  { exists e. split; [done|]. split; [done|].
    intros n q r v t m Hin. by apply elem_of_nil in Hin. }
  simpl in Hnd. apply NoDup_cons in Hnd as [Hn0 Hnd].
  apply Forall_cons in Hall as [(r0 & v0 & t0 & m0 & Hr0 & Hv0 & Ht0 & Hm0 & Hle) Hall].
  simpl in Hr0, Hv0, Ht0.
  set (next := if ignoreMin then t0 else Z.max t0 m0).
  assert (Hcur : values e !! n0 = Some v0).
  { rewrite Hsync; [done|]. simpl. apply list_elem_of_here. }
  destruct (setResourceValue_assigns ignoreMin (Some rendered) n0 r0 t0 e Hr0)
    as (e1 & He1 & Hvals1).
  { rewrite Hm0, Hcur. destruct ignoreMin; [done|]. simpl.
    destruct (Hle eq_refl) as [Hm Ht]. apply Z.ltb_ge.
    destruct (t0 <? m0)%Z; lia. }
  assert (Hnext : values e1 = <[n0 := next]> (values e)).
  { rewrite Hvals1, Hm0. subst next. destruct ignoreMin; simpl; [done|].
    f_equal. destruct (t0 <? m0)%Z eqn:E.
    - apply Z.ltb_lt in E. lia.
    - apply Z.ltb_ge in E. lia. }
  destruct (IH e1 Hnd Hall) as (e' & He' & Hkeep & Hset).
  { intros n Hn. rewrite Hnext, lookup_insert_ne; [|by intros ->].
    apply Hsync. simpl. by apply list_elem_of_further. }
  exists e'. simpl. rewrite Hv0, Ht0, He1. split; [exact He'|]. split.
  - intros k Hk. simpl in Hk. apply not_elem_of_cons in Hk as [Hk0 Hk].
    rewrite Hkeep by done. by rewrite Hnext, lookup_insert_ne.
  - intros n q r v t m Hin Hr Hv Ht Hm.
    apply elem_of_cons in Hin as [[= -> ->]|Hin]; [|by eapply Hset].
    rewrite Hkeep by done. rewrite Hnext, lookup_insert_eq.
    assert (r = r0) as -> by congruence. assert (v = v0) as -> by congruence.
    assert (t = t0) as -> by congruence. assert (m = m0) as -> by congruence.
    done.
Qed.

(** C3 (amended).  Completing a rendered contract asks [setResourceValue]
    for [max(2, floor(v * (1 - 0.05 * qty)))] on each resource of the
    bundle, [v] being the rendered value.  For a bundle whose entries are
    consumable, every resource of the bundle ends at exactly that value when
    minimums are ignored, and at the larger of that value and the
    resource's computed minimum when they are respected: the assignment
    goes through the minimum-floor clamp of the state engine. *)
Theorem completeContract_values ignoreMin renderedContracts cid st c :
  List.find (fun c => bool_decide (c_id c = cid)) renderedContracts = Some c ->
  NoDup (map fst (c_resources c)) ->
  Forall (consumable ignoreMin (values (engine st))) (c_resources c) ->
  exists st',
    completeContract resourceData ignoreMin (values (engine st))
      renderedContracts cid st = Some st' /\
    (forall n q r v t m,
       (n, q) ∈ c_resources c ->
       resourceMap resourceData !! n = Some r ->
       values (engine st) !! n = Some v ->
       completionValue (Some v) q = Some t ->
       computeMin r (Some (values (engine st))) = Some m ->
       values (engine st') !! n = Some (if ignoreMin then t else Z.max t m)).
Proof.
  intros Hfind Hnd Hall. unfold completeContract. rewrite Hfind.
  destruct (applyBundle_completion ignoreMin (values (engine st))
              (c_resources c) (engine st) Hnd Hall ltac:(done))
    as (e' & He' & _ & Hset).
  rewrite He'. eexists. split; [reflexivity|]. exact Hset.
Qed.

End Lifecycle.

(** *** On the shipped resources *)

(** Iron at 100, with steel and consumer goods raised accordingly. *)
Definition ironAtHundred : state :=
  let vals : gmap string Z :=
    list_to_map [("iron", 100); ("coal", 10); ("oil", 5); ("steel", 110);
                 ("plastics", 15); ("consumer_goods", 125)]%Z in
  State vals ((fun v => [v]) <$> vals) [].

Definition ironContract : contract :=
  Contract (Some 300%Z) (Some 300%Z) [("iron", 3)] 1 "Iron run" 1
           (1, 14 # 10)%Q (Some 6).

Definition steelContract : contract :=
  Contract (Some 45%Z) (Some 45%Z) [("steel", 3)] 2 "Steel run" 1
           (1, 14 # 10)%Q (Some 6).

(** The example of the specification: 100 with quantity 3 ends at 85. *)
Example completion_example :
  completionValue (Some 100%Z) 3 = Some 85%Z /\
  exists st',
    completeContract rawResources false (values ironAtHundred) [ironContract] 1
      (Hook [ironContract] (toDouble 50) ironAtHundred) = Some st' /\
    contracts st' = [] /\
    values (engine st') !! "iron" = Some 85%Z.
Proof. split; [|eexists; repeat split]; vm_compute; reflexivity. Qed.

(** Double arithmetic, not exact arithmetic: 20 * (1 - 0.05 * 7) is just
    below 13. *)
Example completion_rounding : completionValue (Some 20%Z) 7 = Some 12%Z.
Proof. vm_compute. reflexivity. Qed.

Example decay_example : decayValue (Some 100%Z) 3 = Some 115%Z.
Proof. vm_compute. reflexivity. Qed.

Lemma completeContract_values_witness :
  exists st',
    completeContract rawResources false
      (values (engine (Hook [ironContract] (toDouble 50) ironAtHundred)))
      [ironContract] 1 (Hook [ironContract] (toDouble 50) ironAtHundred)
    = Some st' /\
    (forall n q r v t m,
       (n, q) ∈ c_resources ironContract ->
       resourceMap rawResources !! n = Some r ->
       values (engine (Hook [ironContract] (toDouble 50) ironAtHundred)) !! n
         = Some v ->
       completionValue (Some v) q = Some t ->
       computeMin r (Some (values (engine (Hook [ironContract] (toDouble 50)
                                                ironAtHundred)))) = Some m ->
       values (engine st') !! n = Some (if false then t else Z.max t m)).
Proof.
  apply (completeContract_values rawResources false [ironContract] 1
           (Hook [ironContract] (toDouble 50) ironAtHundred) ironContract).
  - reflexivity.
  - apply (bool_decide_unpack _). vm_compute. reflexivity.
  - apply Forall_cons_2; [|apply Forall_nil_2].
    exists (Resource "iron" "Iron Ore" [] (Some 5%Z)), 100%Z, 85%Z, 5%Z.
    repeat split; try (vm_compute; reflexivity); lia.
Defined.

(** C3 as stated fails: with minimums respected, completing a contract for
    3 steel while steel stands at its floor of 15 leaves steel at 15; the
    formula gives 12. *)
Lemma completion_clamped_counterexample :
  completionValue (Some 15%Z) 3 = Some 12%Z /\
  values freshState !! "steel" = Some 15%Z /\
  exists st',
    completeContract rawResources false (values freshState) [steelContract] 2
      (Hook [steelContract] (toDouble 50) freshState) = Some st' /\
    values (engine st') !! "steel" = Some 15%Z.
Proof.
  split; [vm_compute; reflexivity|]. split; [vm_compute; reflexivity|].
  eexists. split; vm_compute; reflexivity.
Qed.

(** C4, as the program behaves: one active contract (id 2); completing and
    decaying the id 7, which no contract has.  Decay changes nothing.
    Completion leaves the contracts and the resources as they are, yet
    multiplies the target-value escalator by 1.1. *)
Theorem complete_unknown_id_escalates :
  let st := Hook [steelContract] (toDouble 50) freshState in
  onContractDecay rawResources false (values freshState) (contracts st) 7 st
    = Some st /\
  exists st',
    completeContract rawResources false (values freshState) (contracts st) 7 st
      = Some st' /\
    contracts st' = contracts st /\
    engine st' = engine st /\
    currentTargetValue st = 50%float /\
    currentTargetValue st' = (50 * 1.1)%float /\
    PrimFloat.ltb (currentTargetValue st) (currentTargetValue st') = true.
Proof.
  split; [vm_compute; reflexivity|].
  eexists. split; [vm_compute; reflexivity|].
  repeat split; vm_compute; reflexivity.
Qed.

Lemma steelContract_only (cid : Z) (c : contract) :
  cid <> 2%Z -> c ∈ [steelContract] -> c_id c <> cid.
Proof. intros Hne Hc. apply list_elem_of_singleton in Hc as ->. simpl. congruence. Qed.

Lemma onContractDecay_unknown_witness :
  onContractDecay rawResources false (values freshState) [steelContract] 7
    (Hook [steelContract] (toDouble 50) freshState)
  = Some (Hook [steelContract] (toDouble 50) freshState).
Proof.
  apply (onContractDecay_unknown rawResources false (values freshState)
           [steelContract] 7 (Hook [steelContract] (toDouble 50) freshState));
    intros c Hc; exact (steelContract_only 7 c ltac:(discriminate) Hc).
Defined.

Lemma completeContract_unknown_witness :
  completeContract rawResources false (values freshState) [steelContract] 7
    (Hook [steelContract] (toDouble 50) freshState)
  = Some (Hook [steelContract] (toDouble 50 * 1.1)%float freshState).
Proof.
  apply (completeContract_unknown rawResources false (values freshState)
           [steelContract] 7 (Hook [steelContract] (toDouble 50) freshState));
    intros c Hc; exact (steelContract_only 7 c ltac:(discriminate) Hc).
Defined.

(** *** Rewards *)

Lemma minMult_le_maxMult a b : (minMult a b <= maxMult a b)%Q.
Proof. unfold maxMult. apply Q.le_max_l. Qed.

Lemma min_le_minMult a b : (Qmin a b <= minMult a b)%Q.
Proof. unfold minMult. apply Q.le_max_r. Qed.

Lemma tenth_le_minMult a b : (1 # 10 <= minMult a b)%Q.
Proof. unfold minMult. apply Q.le_max_l. Qed.

Lemma maxMult_le_max a b :
  (1 # 10 <= Qmax a b)%Q -> (maxMult a b <= Qmax a b)%Q.
Proof.
  intros H. unfold maxMult, minMult.
  apply Q.max_lub; [apply Q.max_lub; [done|]|apply Q.le_max_r].
  eapply Qle_trans; [apply Q.le_min_l|apply Q.le_max_l].
Qed.

(** Settings in order and of at least 0.1 are the range. *)
Lemma range_in_order a b :
  (1 # 10 <= a)%Q -> (a <= b)%Q ->
  (minMult a b == a)%Q /\ (maxMult a b == b)%Q.
Proof.
  intros Ha Hab.
  assert (Hlo : (minMult a b == a)%Q).
  { unfold minMult. rewrite (Q.min_l a b Hab). by apply Q.max_r. }
  split; [done|]. unfold maxMult. rewrite Hlo. by apply Q.max_r.
Qed.

(** Settings out of order collapse the range on the second one. *)
Lemma range_out_of_order a b :
  (1 # 10 <= b)%Q -> (b <= a)%Q ->
  (minMult a b == b)%Q /\ (maxMult a b == b)%Q.
Proof.
  intros Hb Hba.
  assert (Hlo : (minMult a b == b)%Q).
  { unfold minMult. rewrite (Q.min_r a b Hba). by apply Q.max_r. }
  split; [done|]. unfold maxMult. rewrite Hlo. apply Q.max_l. apply Qle_refl.
Qed.

(** A double that is finite, and one that is finite and not zero. *)
Definition finite (f : float) : bool :=
  match Prim2SF f with
  | S754_finite _ _ _ | S754_zero _ => true
  | _ => false
  end.

Definition regular (f : float) : bool :=
  match Prim2SF f with
  | S754_finite _ _ _ => true
  | _ => false
  end.

Lemma regular_finite x : regular x = true -> finite x = true.
Proof. unfold regular, finite. by destruct (Prim2SF x). Qed.

Lemma sub_diag (x : float) : finite x = true -> Prim2SF (x - x) = S754_zero false.
Proof.
  unfold finite. intros H. rewrite sub_spec. unfold SF64sub, SFsub.
  destruct (Prim2SF x) as [[|]| | |s m e]; try done.
  cbv zeta. rewrite Z.sub_diag. reflexivity.
Qed.

Lemma mul_zero_r (u d : float) s :
  finite u = true -> Prim2SF d = S754_zero s ->
  exists s', Prim2SF (u * d) = S754_zero s'.
Proof.
  unfold finite. intros Hu Hd. rewrite mul_spec, Hd. unfold SF64mul, SFmul.
  destruct (Prim2SF u) as [su| | |su mu eu]; try done; eauto.
Qed.

Lemma mul_zero_l (u d : float) s :
  Prim2SF u = S754_zero s -> finite d = true ->
  exists s', Prim2SF (u * d) = S754_zero s'.
Proof.
  unfold finite. intros Hu Hd. rewrite mul_spec, Hu. unfold SF64mul, SFmul.
  destruct (Prim2SF d) as [sd| | |sd md ed]; try done; eauto.
Qed.

Lemma add_zero_r (x z : float) s :
  regular x = true -> Prim2SF z = S754_zero s -> (x + z)%float = x.
Proof.
  unfold regular. intros Hx Hz. apply Prim2SF_inj.
  rewrite add_spec, Hz. unfold SF64add, SFadd.
  by destruct (Prim2SF x).
Qed.

Lemma ofQ_proper q r : (q == r)%Q -> ofQ q = ofQ r.
Proof. intros H. unfold ofQ. by rewrite (Qred_complete q r H). Qed.

(** A range of one number: the multiplier is that number, whatever is
    drawn. *)
Lemma multiplier_flat a b u :
  regular (ofQ (minMult a b)) = true -> finite (ofQ u) = true ->
  (minMult a b == maxMult a b)%Q ->
  multiplier a b u = ofQ (minMult a b).
Proof.
  intros Hlo Hu Heq. unfold multiplier. cbv zeta.
  rewrite <- (ofQ_proper _ _ Heq).
  destruct (mul_zero_r (ofQ u) (ofQ (minMult a b) - ofQ (minMult a b)) false Hu)
    as [s Hs].
  { apply sub_diag. by apply regular_finite. }
  by apply (add_zero_r _ _ s).
Qed.

(** The draw 0 gives the lower end of the range. *)
Lemma multiplier_first a b u :
  regular (ofQ (minMult a b)) = true ->
  finite (ofQ (maxMult a b) - ofQ (minMult a b)) = true ->
  (u == 0)%Q ->
  multiplier a b u = ofQ (minMult a b).
Proof.
  intros Hlo Hd Hu. unfold multiplier. cbv zeta.
  rewrite (ofQ_proper u 0 Hu).
  destruct (mul_zero_l (ofQ 0) (ofQ (maxMult a b) - ofQ (minMult a b)) false)
    as [s Hs]; [vm_compute; reflexivity|done|].
  by apply (add_zero_r _ _ s).
Qed.

Lemma generated_reward values existing d a b cap labels rnd fuel target id c :
  generateRandomContract values existing d a b cap labels rnd fuel target id
    = Some c ->
  c_reward c = rewardOf (c_value c) a b (rewardDraw rnd) /\
  c_rewardRange c = (minMult a b, maxMult a b).
Proof.
  unfold generateRandomContract. intros H.
  destruct (if negb (Qle_bool (1 # 2) (specialistDraw rnd)) then _ else _)
    as [[cv sel]|]; [|done].
  by injection H as <-.
Qed.


(** Six draws of [Math.random()] for one contract: general mode, always the
    first eligible resource, the first free label. *)
Definition firstChoices (rewardDraw : Q) : randomness :=
  Randomness (3 # 4) 0 [] (fun _ => 0%Q) 0 rewardDraw.

(** [Object.entries(values)] after a reset. *)
Definition freshEntries : list (string * Z) :=
  [("iron", 5); ("coal", 10); ("oil", 5); ("steel", 15); ("plastics", 15);
   ("consumer_goods", 30)]%Z.


(** The two end points are reached at the shipped settings 1 and 1.4: the
    draw 0 gives the multiplier 1, and the greatest draw there is,
    [1 - 2^-53], gives the double 1.4. *)
Example multiplier_end_points :
  multiplier 1 (14 # 10) 0 = ofQ 1 /\
  multiplier 1 (14 # 10) (9007199254740991 # 9007199254740992) = ofQ (14 # 10).
Proof. split; vm_compute; reflexivity. Qed.

(** Double precision matters: 45 times the double 1.4 is just below 63. *)
Example reward_rounding :
  rewardOf (Some 45%Z) 1 (14 # 10) (9007199254740991 # 9007199254740992)
  = Some 62%Z.
Proof. vm_compute. reflexivity. Qed.


(** *** Termination of the accumulation loops *)

Lemma belowTarget_lt v t : belowTarget (Some v) t = true -> (inject_Z v < t)%Q.
Proof.
  unfold belowTarget. intros H. apply negb_true_iff in H.
  apply Qnot_le_lt. intros Hle. apply Qle_bool_iff in Hle. congruence.
Qed.

Lemma aboveTarget_le v t : aboveTarget (Some v) t = false <-> (inject_Z v <= t)%Q.
Proof.
  unfold aboveTarget. rewrite negb_false_iff. apply Qle_bool_iff.
Qed.

Lemma below_ceiling v t : (inject_Z v < t)%Q -> (v < Qceiling t)%Z.
Proof.
  intros H. rewrite Zlt_Qlt.
  eapply Qlt_le_trans; [exact H|apply Qle_ceiling].
Qed.

Lemma entryOf_In (dict : list (string * Z)) n x :
  entryOf dict n = Some x -> In (n, x) dict.
Proof.
  unfold entryOf. intros H.
  destruct (List.find _ dict) as [[k y]|] eqn:E; [|done].
  simpl in H. injection H as ->.
  apply List.find_some in E as [Hin Hk]. simpl in Hk.
  apply bool_decide_eq_true_1 in Hk. by subst.
Qed.

Lemma nth_or_default {A} (l : list A) (d : A) (i : nat) :
  In d l -> In (nth i l d) l.
Proof.
  intros Hd. destruct (Nat.lt_ge_cases i (length l)) as [H|H].
  - by apply nth_In.
  - by rewrite nth_overflow.
Qed.

Section Loops.
Variable values : list (string * Z).
Variable scaledTarget : Q.
Variable maxResources : option nat.
Variable draws : nat -> Q.
Hypothesis positive : Forall (fun e => (0 < snd e)%Z) values.

Lemma specialistLoop_terminates (specialistResource : list string) :
  forall fuel i currentValue selected,
    (forall v, currentValue = Some v ->
       Z.to_nat (Qceiling scaledTarget - v) <= fuel) ->
    exists res,
      specialistLoop values scaledTarget draws specialistResource fuel i
        currentValue selected = Some res /\
      (aboveTarget currentValue scaledTarget = false ->
       aboveTarget res.1 scaledTarget = false).
Proof.
  induction fuel as [|fuel IH]; intros i cv sel Hfuel.
  - simpl. destruct (belowTarget cv scaledTarget) eqn:Hb; [|by eexists].
    destruct cv as [v|]; [|done].
    apply belowTarget_lt, below_ceiling in Hb. specialize (Hfuel v eq_refl). lia.
  - simpl. destruct (belowTarget cv scaledTarget) eqn:Hb; [|by eexists].
    destruct cv as [v|]; [|done].
    apply belowTarget_lt, below_ceiling in Hb. specialize (Hfuel v eq_refl).
    set (resName := nth _ specialistResource "undefined").
    destruct (entryOf values resName) as [x|] eqn:Hx; simpl.
    + destruct (aboveTarget (Some (x + v)%Z) scaledTarget) eqn:Ha;
        [exists (Some v, sel); by split|].
      apply entryOf_In in Hx.
      assert (Hpos : (0 < x)%Z).
      { rewrite Forall_forall in positive.
        apply (positive (resName, x)). by apply list_elem_of_In. }
      destruct (IH (S i) (Some (v + x)%Z) (bump sel resName)) as (res & Hres & Hbound).
      { intros v' [= <-]. lia. }
      exists res. split; [done|]. intros _. apply Hbound.
      by rewrite Z.add_comm.
    + destruct (IH (S i) None (bump sel resName)) as (res & Hres & Hbound); [done|].
      exists res. split; [done|]. intros _. by apply Hbound.
Qed.

Lemma generalLoop_step fuel i v sel :
  generalLoop values scaledTarget maxResources draws (S fuel) i v sel =
  if belowTarget (Some v) scaledTarget then
    match eligible values scaledTarget maxResources v sel with
    | [] => Some (v, sel)
    | (e0 :: _) as resourceEntries =>
        let picked :=
          nth (randomIndex (draws i) (length resourceEntries)) resourceEntries e0 in
        generalLoop values scaledTarget maxResources draws fuel (S i)
          (v + picked.2)%Z (bump sel picked.1)
    end
  else Some (v, sel).
Proof.
  cbn [generalLoop]. destruct (belowTarget (Some v) scaledTarget); [|done].
  destruct (eligible values scaledTarget maxResources v sel) as [|e0 l]; [done|].
  cbv zeta. by destruct (nth _ (e0 :: l) e0).
Qed.

Lemma generalLoop_terminates :
  forall fuel i currentValue selected,
    Z.to_nat (Qceiling scaledTarget - currentValue) <= fuel ->
    exists res,
      generalLoop values scaledTarget maxResources draws fuel i
        currentValue selected = Some res /\
      ((inject_Z currentValue <= scaledTarget)%Q ->
       (inject_Z res.1 <= scaledTarget)%Q).
Proof.
  induction fuel as [|fuel IH]; intros i v sel Hfuel.
  - simpl. destruct (belowTarget (Some v) scaledTarget) eqn:Hb; [|by eexists].
    apply belowTarget_lt, below_ceiling in Hb. lia.
  - rewrite generalLoop_step.
    destruct (belowTarget (Some v) scaledTarget) eqn:Hb; [|by eexists].
    apply belowTarget_lt, below_ceiling in Hb.
    destruct (eligible values scaledTarget maxResources v sel) as [|e0 l] eqn:He;
      [by eexists|].
    cbv zeta.
    generalize (randomIndex (draws i) (length (e0 :: l))). intros idx.
    assert (Hin : In (nth idx (e0 :: l) e0)
                     (eligible values scaledTarget maxResources v sel)).
    { rewrite He. apply nth_or_default. by left. }
    destruct (nth idx (e0 :: l) e0) as [rn rv].
    unfold eligible in Hin. apply List.filter_In in Hin as [Hin Hok].
    apply andb_true_iff in Hok as [Hok _]. apply Qle_bool_iff in Hok.
    assert (Hpos : (0 < rv)%Z).
    { rewrite Forall_forall in positive.
      apply (positive (rn, rv)). by apply list_elem_of_In. }
    simpl in Hok.
    destruct (IH (S i) (v + rv)%Z (bump sel rn)) as (res & Hres & Hbound); [lia|].
    exists res. split; [done|]. intros _. apply Hbound.
    by rewrite Z.add_comm.
Qed.

End Loops.

(** A stock of one resource worth nothing, under a positive target: the
    loop of general mode never ends. *)
Lemma generalLoop_stuck (n : string) (scaledTarget : Q) (draws : nat -> Q) :
  (0 < scaledTarget)%Q ->
  forall fuel i selected,
    generalLoop [(n, 0%Z)] scaledTarget None draws fuel i 0 selected = None.
Proof.
  intros Hpos.
  assert (Hbelow : belowTarget (Some 0%Z) scaledTarget = true).
  { unfold belowTarget. apply negb_true_iff.
    destruct (Qle_bool scaledTarget (inject_Z 0)) eqn:E; [|done].
    apply Qle_bool_iff in E. exfalso. apply (Qlt_irrefl 0).
    eapply Qlt_le_trans; [exact Hpos|exact E]. }
  assert (Helig : forall selected,
            eligible [(n, 0%Z)] scaledTarget None 0 selected = [(n, 0%Z)]).
  { intros selected. unfold eligible, underCap. simpl.
    change (0 + 0)%Z with 0%Z.
    replace (Qle_bool (inject_Z 0) scaledTarget) with true; [done|].
    symmetry. apply Qle_bool_iff. by apply Qlt_le_weak. }
  induction fuel as [|fuel IH]; intros i selected.
  - cbn [generalLoop]. by rewrite Hbelow.
  - rewrite generalLoop_step, Hbelow, Helig. cbv zeta.
    assert (Hnth : forall k, nth k [(n, 0%Z)] (n, 0%Z) = (n, 0%Z)).
    { intros [|[|k]]; reflexivity. }
    rewrite Hnth. simpl. apply IH.
Qed.

(** The same for the loop of specialist mode. *)
Lemma specialistLoop_stuck (n : string) (scaledTarget : Q) (draws : nat -> Q) :
  (0 < scaledTarget)%Q ->
  (forall i, 0 <= draws i /\ draws i < 1)%Q ->
  forall fuel i selected,
    specialistLoop [(n, 0%Z)] scaledTarget draws [n] fuel i (Some 0%Z) selected
    = None.
Proof.
  intros Hpos Hdraws.
  assert (Hbelow : belowTarget (Some 0%Z) scaledTarget = true).
  { unfold belowTarget. apply negb_true_iff.
    destruct (Qle_bool scaledTarget (inject_Z 0)) eqn:E; [|done].
    apply Qle_bool_iff in E. exfalso. apply (Qlt_irrefl 0).
    eapply Qlt_le_trans; [exact Hpos|exact E]. }
  assert (Hidx : forall i, randomIndex (draws i) 1 = 0).
  { intros i. destruct (Hdraws i) as [H0 H1]. unfold randomIndex.
    change (Z.of_nat 1) with 1%Z.
    assert (Hfloor : Qfloor (draws i * inject_Z 1) = 0%Z); [|by rewrite Hfloor].
    assert (Heq : (draws i * inject_Z 1 == draws i)%Q) by (unfold inject_Z; ring).
    apply Z.le_antisymm.
    - assert (Qfloor (draws i * inject_Z 1) < 1)%Z; [|lia].
      rewrite Zlt_Qlt. eapply Qle_lt_trans; [apply Qfloor_le|].
      by rewrite Heq.
    - replace 0%Z with (Qfloor 0) by reflexivity. apply Qfloor_resp_le.
      by rewrite Heq. }
  induction fuel as [|fuel IH]; intros i selected.
  - cbn [specialistLoop]. by rewrite Hbelow.
  - cbn [specialistLoop]. rewrite Hbelow. cbv zeta.
    change (length [n]) with 1. rewrite Hidx.
    change (nth 0 [n] "undefined") with n.
    assert (Hval : entryOf [(n, 0%Z)] n = Some 0%Z).
    { unfold entryOf. simpl. by rewrite bool_decide_eq_true_2. }
    rewrite Hval. simpl Js.add. change (0 + 0)%Z with 0%Z.
    replace (aboveTarget (Some 0%Z) scaledTarget) with false.
    + apply IH.
    + symmetry. apply aboveTarget_le. by apply Qlt_le_weak.
Qed.



(** The exact value of a finite double. *)
Definition exactly (f : float) : option Q :=
  match Prim2SF f with
  | S754_zero _ => Some 0%Q
  | S754_finite s m e =>
      let n := if s then Z.neg m else Z.pos m in
      Some (if (0 <=? e)%Z then inject_Z (n * 2 ^ e)
            else (n # Pos.pow 2 (Z.to_pos (- e))))%Q
  | _ => None
  end.

(** The scaled target is a product of doubles.  At difficulty 0.7 the
    target 50 is scaled to 35, although the double 0.7 lies below seven
    tenths; the loop then fills the contract up to 35, the target it was
    given. *)
Example scaled_target_in_double_precision :
  (exists p q,
     exactly (50 * 0.7)%float = Some p /\ (p == 35)%Q /\
     exactly 0.7%float = Some q /\ (50 * q < 35)%Q) /\
  generalLoop freshEntries 35%Q (Some 6) (fun _ => 0%Q) 35 0 0 []
    = Some (35%Z, [("iron", 7)]).
Proof.
  split; [|vm_compute; reflexivity].
  eexists _, _. split; [vm_compute; reflexivity|]. split; [reflexivity|].
  split; [vm_compute; reflexivity|]. reflexivity.
Qed.

(** X5.  A resource worth nothing: both loops go on for ever, whatever
    bound on the number of iterations is tried. *)
Lemma zero_value_never_terminates (fuel : nat) :
  generateRandomContract [("scrap", 0%Z)] [] 1 1 (14 # 10) None []
    (firstChoices (1 # 2)) fuel 1 7 = None /\
  generateRandomContract [("scrap", 0%Z)] [] 1 1 (14 # 10) None []
    (Randomness (1 # 4) 0 ["scrap"] (fun _ => 0%Q) 0 (1 # 2)) fuel 1 7 = None.
Proof.
  split.
  - unfold generateRandomContract. simpl.
    assert (H : forall i sel,
      generalLoop [("scrap", 0%Z)] (1 * 1) None (fun _ => 0%Q) fuel i 0 sel = None).
    { induction fuel as [|f IH]; intros i sel; [reflexivity|].
      simpl. apply IH. }
    by rewrite H.
  - unfold generateRandomContract. simpl.
    assert (H : forall i sel,
      specialistLoop [("scrap", 0%Z)] (1 * 1) (fun _ => 0%Q) ["scrap"] fuel i
        (Some 0%Z) sel = None).
    { induction fuel as [|f IH]; intros i sel; [reflexivity|].
      simpl. apply IH. }
    by rewrite H.
Qed.

End ContractFacts.


(** ** The catalogue: when tiers derive, and what they are labelled *)

Module CatalogFacts.
Import Graph Catalog GraphFacts.

(** X6.  When no resource and no component is named like a property that
    every object inherits, tier derivation succeeds exactly on the
    configurations in which every listed component is declared and no
    resource depends on itself; on every other configuration it throws. *)
Theorem derivation_succeeds_iff (rs : list resource) :
  ordinaryNames rs ->
  ((exists st, initTiers rs = Ok st) <->
   closed (fromEntries rs) /\ ~ cyclic (fromEntries rs)) /\
  ((exists e, initTiers rs = Throw e) <->
   ~ (closed (fromEntries rs) /\ ~ cyclic (fromEntries rs))).
Proof.
  intros Hord. pose proof (initTiers_spec rs Hord) as H.
  assert (Hok : forall st, initTiers rs = Ok st ->
            closed (fromEntries rs) /\ ~ cyclic (fromEntries rs)).
  { intros st Hst. rewrite Hst in H. destruct H as (cache & _ & Hc & Hall).
    assert (Hcached : forall a r, fromEntries rs !! a = Some r ->
              is_Some (cache !! a)).
    { intros a r Ha. apply fromEntries_lookup_Some in Ha as [Hin <-]. by apply Hall. }
    split.
    + intros a b Hab. pose proof Hab as (r & Hr & _).
      destruct (Hcached _ _ Hr) as [t Ht].
      destruct (consistent_edge _ _ _ _ _ Hc Ht Hab) as (t' & Ht' & _).
      destruct (Hc _ _ Ht') as (r' & Hr' & _). by exists r'.
    + intros [n Hn]. destruct (tc_edge_declared _ _ _ Hn) as [r Hr].
      destruct (Hcached _ _ Hr) as [t Ht].
      by apply (consistent_acyclic _ _ _ _ Hc Ht). }
  assert (Hthrow : forall e, initTiers rs = Throw e ->
            ~ (closed (fromEntries rs) /\ ~ cyclic (fromEntries rs))).
  { intros e He [Hclosed Hacyc]. rewrite He in H. destruct e as [m|m].
    - destruct H as [Hm (a & Ha)]. destruct (Hclosed _ _ Ha) as [x Hx]. congruence.
    - destruct Hacyc. by exists m. }
  split; split.
  - intros [st Hst]. by apply (Hok st).
  - intros Hgood. destruct (initTiers rs) as [st|e|]; [by exists st| |done].
    by destruct (Hthrow e eq_refl).
  - intros [e He]. by apply (Hthrow e).
  - intros Hbad. destruct (initTiers rs) as [st|e|]; [|by exists e|done].
    by destruct (Hbad (Hok st eq_refl)).
Qed.

Lemma derivation_succeeds_iff_witness :
  ((exists st, initTiers rawResources = Ok st) <->
   closed (fromEntries rawResources) /\ ~ cyclic (fromEntries rawResources)) /\
  ((exists e, initTiers rawResources = Throw e) <->
   ~ (closed (fromEntries rawResources) /\ ~ cyclic (fromEntries rawResources))).
Proof. apply (derivation_succeeds_iff rawResources). exact rawResources_ordinary. Defined.

(** Without the condition on names the equivalence fails: a component named
    [toString] is declared nowhere, yet nothing is thrown; the read of
    [tierCache] finds the inherited function and the tier of the resource
    that lists it becomes [NaN]. *)
Example inherited_component_derives :
  ~ closed (fromEntries [Resource "A" "A" ["toString"] None]) /\
  initTiers [Resource "A" "A" ["toString"] None]
  = Ok (TState {[ "A" := NotANumber ]} ∅).
Proof.
  split; [|vm_compute; reflexivity].
  intros Hclosed.
  destruct (Hclosed "A" "toString") as [r Hr]; [|vm_compute in Hr; discriminate].
  exists (Resource "A" "A" ["toString"] None).
  split; [vm_compute; reflexivity|]. apply list_elem_of_here.
Qed.

(** X7.  Once the tiers are derived, and no name is a property that every
    object inherits, every component sits in a strictly lower tier than the
    resource that lists it, and tiers are numbers that start at 1. *)
Theorem components_in_lower_tiers (rs : list resource) (st : tstate) (a b : string) :
  ordinaryNames rs ->
  initTiers rs = Ok st ->
  edge (fromEntries rs) a b ->
  exists ta tb, tierOf st a = Some (Tier ta) /\ tierOf st b = Some (Tier tb) /\
                1 <= tb /\ tb < ta.
Proof.
  intros Hord Hst Hab. pose proof (initTiers_spec rs Hord) as H. rewrite Hst in H.
  destruct H as (cache & Hcache & Hc & Hall). pose proof Hab as (r & Hr & _).
  apply fromEntries_lookup_Some in Hr as [Hin <-].
  destruct (Hall r Hin) as [ta Hta].
  destruct (consistent_edge _ _ _ _ _ Hc Hta Hab) as (tb & Htb & Hlt).
  exists ta, tb.
  split.
  { by rewrite (tierOf_number st cache _ Hcache (ordinary_declared rs r Hord Hin)), Hta. }
  split.
  { by rewrite (tierOf_number st cache _ Hcache
                  (ordinary_component rs (name r) b Hord Hab)), Htb. }
  split; [|done]. by eapply entry_ok_pos, Hc.
Qed.

(** The tiers of the shipped declarations. *)
Definition shippedCache : tstate :=
  TState {[ "iron" := Tier 1; "coal" := Tier 1; "oil" := Tier 1;
            "steel" := Tier 2; "plastics" := Tier 2;
            "consumer_goods" := Tier 3 ]} ∅.

Lemma components_in_lower_tiers_witness :
  exists ta tb,
    tierOf shippedCache "consumer_goods" = Some (Tier ta) /\
    tierOf shippedCache "plastics" = Some (Tier tb) /\
    1 <= tb /\ tb < ta.
Proof.
  apply (components_in_lower_tiers rawResources).
  - exact rawResources_ordinary.
  - vm_compute. reflexivity.
  - exists (Resource "consumer_goods" "Consumer Goods" ["steel"; "plastics"] None).
    split; [vm_compute; reflexivity|].
    simpl. apply list_elem_of_further, list_elem_of_here.
Defined.

Definition labelOf (t : nat) : string :=
  match t with
  | 1 => "Basic"
  | 2 => "Intermediate"
  | 3 => "Advanced"
  | _ => "Tier " +:+ pretty t
  end.

Lemma expandStep_other labels t k :
  k <> t -> expandStep labels t !! k = labels !! k.
Proof.
  intros Hne. unfold expandStep.
  destruct (labels !! t) as [[|? ?]|]; [|done|]; by rewrite lookup_insert_ne.
Qed.

Lemma expandSteps_other l : forall labels k,
  k ∉ l -> foldl expandStep labels l !! k = labels !! k.
Proof.
  induction l as [|t l IH]; intros labels k Hk; [done|].
  simpl. rewrite IH by (intros H; apply Hk; by apply list_elem_of_further).
  apply expandStep_other. intros ->. apply Hk, list_elem_of_here.
Qed.

Lemma expandSteps_fresh l : forall labels k,
  NoDup l -> k ∈ l -> labels !! k = None ->
  foldl expandStep labels l !! k = Some ("Tier " +:+ pretty k).
Proof.
  induction l as [|t l IH]; intros labels k Hnd Hk Hnone.
  - by apply elem_of_nil in Hk.
  - apply NoDup_cons in Hnd as [Ht Hnd]. simpl.
    destruct (decide (k = t)) as [->|Hne].
    + rewrite expandSteps_other by done. unfold expandStep.
      rewrite Hnone. by rewrite lookup_insert_eq.
    + apply IH; [done| |by rewrite expandStep_other].
      apply elem_of_cons in Hk as [?|?]; done.
Qed.

Lemma expandTiers_lookup maxTier t :
  1 <= t -> t <= Nat.max 3 maxTier ->
  expandTiers resourceTiers maxTier !! t = Some (labelOf t).
Proof.
  intros H1 Hmax. unfold expandTiers.
  destruct (decide (t < 4)) as [Hlt|Hge].
  - rewrite expandSteps_other.
    + destruct t as [|[|[|[|t]]]]; try lia; reflexivity.
    + rewrite elem_of_seq. lia.
  - rewrite expandSteps_fresh.
    + destruct t as [|[|[|[|t]]]]; try lia; reflexivity.
    + apply NoDup_seq.
    + rewrite elem_of_seq. lia.
    + unfold resourceTiers. rewrite !lookup_insert_ne by lia.
      apply lookup_singleton_ne. lia.
Qed.

(** When every entry of the cache is a number, so is [maxTier], and no
    entry exceeds it. *)
Lemma maxTier_numbers st cache :
  tierCache st = Tier <$> cache ->
  exists m, maxTier st = Some m /\ forall n t, cache !! n = Some t -> t <= m.
Proof.
  intros Hst. unfold maxTier. rewrite Hst.
  exists (max_list (snd <$> map_to_list cache)). split.
  - rewrite map_to_list_fmap, <- list_fmap_compose.
    change (snd ∘ prod_map id Tier) with (Tier ∘ (snd : string * nat -> nat)).
    rewrite list_fmap_compose.
    by rewrite (mapM_fmap_Some number Tier _ (fun t => eq_refl)).
  - intros n t Hn. apply max_list_elem_of_le.
    apply list_elem_of_fmap. exists (n, t). split; [done|].
    by apply elem_of_map_to_list.
Qed.

(** X8.  When no name is a property that every object inherits, every
    exported resource has a tier that is a number of at least 1, and its
    tier has a label: the declared one for the tiers 1 to 3, [Tier t]
    beyond. *)
Theorem every_tier_labelled (rs : list resource) labels exported r :
  ordinaryNames rs ->
  exports rs = Ok (labels, exported) ->
  r ∈ exported ->
  exists t, r.2 = Some (Tier t) /\ 1 <= t /\ labels !! t = Some (labelOf t).
Proof.
  unfold exports. intros Hord H Hr. pose proof (initTiers_spec rs Hord) as Hspec.
  destruct (initTiers rs) as [st| |]; [|done|done].
  destruct Hspec as (cache & Hst & Hc & Hall).
  destruct (maxTier_numbers st cache Hst) as (m & Hm & Hmax).
  rewrite Hm in H. injection H as <- <-.
  unfold resources in Hr. change (map ?f ?l) with (f <$> l) in Hr.
  apply list_elem_of_fmap in Hr as (r0 & -> & Hr0). simpl.
  destruct (Hall r0 Hr0) as [t Ht]. exists t.
  split.
  { by rewrite (tierOf_number st cache _ Hst (ordinary_declared rs r0 Hord Hr0)), Ht. }
  pose proof (entry_ok_pos _ _ _ _ (Hc _ _ Ht)) as Hpos. split; [done|].
  apply expandTiers_lookup; [done|]. pose proof (Hmax _ _ Ht). lia.
Qed.

(** The shipped resources as the hooks take them. *)
Definition shippedResources : list tiered :=
  map (fun r => Tiered r (tierOf shippedCache (name r) ≫= number)) rawResources.

Example shipped_exports :
  exports rawResources
  = Ok (expandTiers resourceTiers 3, resources rawResources shippedCache) /\
  resources rawResources shippedCache
  = map (fun r => (raw r, Tier <$> tier r)) shippedResources.
Proof. split; vm_compute; reflexivity. Qed.

Lemma every_tier_labelled_witness :
  exists t,
    (Resource "consumer_goods" "Consumer Goods" ["steel"; "plastics"] None,
     Some (Tier 3)).2 = Some (Tier t) /\
    1 <= t /\ expandTiers resourceTiers 3 !! t = Some (labelOf t).
Proof.
  apply (every_tier_labelled rawResources (expandTiers resourceTiers 3)
           (resources rawResources shippedCache)).
  - exact rawResources_ordinary.
  - vm_compute. reflexivity.
  - vm_compute. do 5 apply list_elem_of_further. apply list_elem_of_here.
Defined.

(** A configuration with an inherited name loads as well: the tier exported
    for [constructor] is the inherited function, the one for the product
    made of it is [NaN], and no label is added. *)
Example inherited_exports :
  exports inheritedPair
  = Ok (resourceTiers,
        [ (Resource "constructor" "Constructor" [] None,
           Some (Inherited "constructor"));
          (Resource "gadget" "Gadget" ["constructor"] None, Some NotANumber) ]).
Proof. vm_compute. reflexivity. Qed.

End CatalogFacts.


(** ** Set-up and reset of the values *)

Module SetUpFacts.
Import Graph Engine Catalog Effects EngineFacts.

(** Declarations that list a resource after all of its components, given
    the names [declared] before them. *)
Fixpoint componentsFirst (declared : list string) (rs : list resource) : bool :=
  match rs with
  | [] => true
  | r :: rest =>
      forallb (fun c => bool_decide (c ∈ declared)) (components r)
      && componentsFirst (name r :: declared) rest
  end.

(** One step of the loop of [buildInitial]. *)
Definition initStep (vs : gmap string Z) (r : resource) : gmap string Z :=
  match computeMin r (Some vs) with
  | Some m => <[name r := m]> vs
  | None => vs
  end.

(** One step of the loop of the set-up effect. *)
Definition fillStep (newVals : gmap string Z) (r : resource) : gmap string Z :=
  match newVals !! name r with
  | Some _ => newVals
  | None => initStep newVals r
  end.

Lemma computeMin_defined r (vs : gmap string Z) :
  (forall c, c ∈ components r -> is_Some (vs !! c)) ->
  is_Some (computeMin r (Some vs)).
Proof.
  intros H. destruct (decide (components r = [])) as [E|E].
  - rewrite computeMin_leaf by done. by eexists.
  - rewrite computeMin_sum by done. by eexists.
Qed.

Lemma componentsFirst_head declared r rest c :
  componentsFirst declared (r :: rest) = true -> c ∈ components r -> c ∈ declared.
Proof.
  simpl. intros H Hc. apply andb_true_iff in H as [H _].
  rewrite forallb_forall in H. apply list_elem_of_In in Hc.
  by apply H, bool_decide_eq_true_1 in Hc.
Qed.

Lemma componentsFirst_tail declared r rest :
  componentsFirst declared (r :: rest) = true ->
  componentsFirst (name r :: declared) rest = true.
Proof. simpl. intros H. by apply andb_true_iff in H as [_ H]. Qed.

(** The loop of the set-up effect: it keeps what it finds, and leaves every
    resource declared components-first with a value; a value it writes is
    the minimum of the resource in the final dictionary. *)
Lemma fill_spec rs : forall declared (acc : gmap string Z),
  NoDup (map name rs) ->
  componentsFirst declared rs = true ->
  (forall c, c ∈ declared -> is_Some (acc !! c)) ->
  acc ⊆ foldl fillStep acc rs /\
  (forall r, r ∈ rs -> is_Some (foldl fillStep acc rs !! name r)) /\
  (forall r, r ∈ rs -> acc !! name r = None ->
     foldl fillStep acc rs !! name r = computeMin r (Some (foldl fillStep acc rs))).
Proof.
  induction rs as [|r rs IH]; intros declared acc Hnd Hcf Hdecl.
  { split; [done|]. split; intros r Hr; by apply elem_of_nil in Hr. }
  simpl. simpl in Hnd. apply NoDup_cons in Hnd as [Hfresh0 Hnd].
  assert (Hcomps : forall c, c ∈ components r -> is_Some (acc !! c)).
  { intros c Hc. apply Hdecl. by eapply componentsFirst_head. }
  destruct (computeMin_defined r acc Hcomps) as [m Hm].
  assert (Hstep : acc ⊆ fillStep acc r /\ is_Some (fillStep acc r !! name r) /\
            (acc !! name r = None -> fillStep acc r !! name r = Some m) /\
            (forall k, k <> name r -> fillStep acc r !! k = acc !! k)).
  { unfold fillStep, initStep. destruct (acc !! name r) as [x|] eqn:Hx.
    - split; [done|]. split; [by eexists|done].
    - rewrite Hm. split; [by apply insert_subseteq|].
      rewrite lookup_insert_eq. split; [by eexists|]. split; [done|].
      intros k Hk. by rewrite lookup_insert_ne. }
  destruct Hstep as (Hsub1 & Hhas & Hnew & Hother).
  destruct (IH (name r :: declared) (fillStep acc r)) as (Hsub & Hall & Hfresh);
    [done|by eapply componentsFirst_tail| |].
  { intros c Hc. apply elem_of_cons in Hc as [->|Hc]; [done|].
    destruct (Hdecl c Hc) as [x Hx]. exists x. by eapply lookup_weaken. }
  split; [by etrans|]. split.
  - intros r' Hr'. apply elem_of_cons in Hr' as [->|Hr']; [|by apply Hall].
    destruct Hhas as [x Hx]. exists x. by eapply lookup_weaken.
  - intros r' Hr' Hnone. apply elem_of_cons in Hr' as [->|Hr'].
    + rewrite (lookup_weaken _ _ _ _ (Hnew Hnone) Hsub). rewrite <- Hm.
      apply computeMin_agree. intros c Hc. destruct (Hcomps c Hc) as [x Hx].
      rewrite Hx. symmetry. eapply lookup_weaken; [exact Hx|by etrans].
    + apply Hfresh; [done|]. rewrite Hother; [done|].
      intros E. apply Hfresh0. rewrite <- E.
      change (map name rs) with (name <$> rs). apply list_elem_of_fmap. by exists r'.
Qed.

Lemma names_complete (rs : list resource) (vs : gmap string Z) :
  NoDup (map name rs) ->
  (forall k, is_Some (vs !! k) -> k ∈ map name rs) ->
  size vs = length rs ->
  forall r, r ∈ rs -> is_Some (vs !! name r).
Proof.
  intros Hnd Hsub Hsize r Hr.
  assert (Hdom : dom vs ≡ list_to_set (C := gset string) (map name rs)).
  { apply set_subseteq_size_equiv.
    - intros k Hk. apply elem_of_list_to_set, Hsub. by apply elem_of_dom.
    - rewrite size_list_to_set by done. rewrite size_dom, length_map. lia. }
  apply elem_of_dom. rewrite Hdom. apply elem_of_list_to_set.
  change (map name rs) with (name <$> rs). apply list_elem_of_fmap. by exists r.
Qed.

Section SetUp.
Variable resourceData : list resource.
Hypothesis names_unique : NoDup (map name resourceData).
Hypothesis components_first : componentsFirst [] resourceData = true.


End SetUp.

Lemma fill_fresh rs : forall (acc : gmap string Z),
  NoDup (map name rs) ->
  (forall r, r ∈ rs -> acc !! name r = None) ->
  foldl fillStep acc rs = foldl initStep acc rs.
Proof.
  induction rs as [|r rs IH]; intros acc Hnd Hfresh; [done|].
  simpl in *. apply NoDup_cons in Hnd as [Hr Hnd].
  assert (E : fillStep acc r = initStep acc r).
  { unfold fillStep. by rewrite (Hfresh r (list_elem_of_here _ _)). }
  rewrite E. apply IH; [done|].
  intros r' Hr'. unfold initStep.
  assert (Hne : name r' <> name r).
  { intros Heq. apply Hr. rewrite <- Heq.
    change (map name rs) with (name <$> rs). apply list_elem_of_fmap. by exists r'. }
  destruct (computeMin r (Some acc)); [rewrite lookup_insert_ne by done|];
    apply Hfresh; by apply list_elem_of_further.
Qed.

(** X10.  A first start, with nothing stored, gives every resource the value
    that a reset gives it. *)
Theorem first_start_is_reset (resourceData : list resource) (st : state) :
  NoDup (map name resourceData) ->
  initialValues resourceData ∅ = values (resetResources resourceData st).
Proof.
  intros Hnd. unfold initialValues, resetResources, buildInitial. simpl.
  destruct (decide (size (∅ : gmap string Z) = length resourceData)) as [E|E].
  - rewrite map_size_empty in E. by destruct resourceData.
  - apply (fill_fresh resourceData ∅ Hnd). intros r _. apply lookup_empty.
Qed.


(** *** The shipped declarations *)

Example rawResources_components_first : componentsFirst [] rawResources = true.
Proof. reflexivity. Qed.


Lemma first_start_is_reset_witness :
  initialValues rawResources ∅ = values (resetResources rawResources freshState).
Proof.
  apply (first_start_is_reset rawResources freshState GraphFacts.rawResources_NoDup).
Defined.


End SetUpFacts.


(** ** Enforcing the minimums *)

Module EnforceFacts.
Import Graph Engine Catalog Effects EngineFacts.

Section Enforce.
Variable resourceData : list resource.
Variable rendered : option (gmap string Z).

(** The resource is below the minimum that the rendered snapshot gives. *)
Definition below (vals : gmap string Z) (r : resource) : bool :=
  Js.ltb (vals !! name r) (computeMin r rendered).

Lemma enforceStep_below prev st r :
  below prev r = true ->
  exists m, computeMin r rendered = Some m /\
    values (enforceStep rendered prev st r) = <[name r := m]> (values st) /\
    actionLog (enforceStep rendered prev st r)
      = actionLog st ++ [[Change (name r) (prev !! name r) m false]].
Proof.
  unfold below, enforceStep. intros H.
  destruct (computeMin r rendered) as [m|]; [|by destruct (prev !! name r)].
  rewrite H. by exists m.
Qed.

Lemma enforceStep_not_below prev st r :
  below prev r = false -> enforceStep rendered prev st r = st.
Proof.
  unfold below, enforceStep. intros H.
  destruct (computeMin r rendered) as [m|]; [|done]. by rewrite H.
Qed.

Lemma enforce_fold prev rs : forall st,
  NoDup (map name rs) ->
  let st' := foldl (enforceStep rendered prev) st rs in
  (forall k, k ∉ map name rs -> values st' !! k = values st !! k) /\
  (forall r, r ∈ rs ->
     values st' !! name r =
     if below prev r then computeMin r rendered else values st !! name r) /\
  length (actionLog st')
  = length (actionLog st) + length (filter (fun r => below prev r = true) rs) /\
  actionLog st `prefix_of` actionLog st'.
Proof.
  induction rs as [|r rs IH]; intros st Hnd; simpl.
  { split; [done|]. split; [by intros r ?%elem_of_nil|].
    split; [simpl; lia|done]. }
  simpl in Hnd. apply NoDup_cons in Hnd as [Hr Hnd].
  destruct (IH (enforceStep rendered prev st r) Hnd) as (Hout & Hin & Hlen & Hpre).
  assert (Hstep : forall k, k <> name r ->
            values (enforceStep rendered prev st r) !! k = values st !! k).
  { intros k Hk. destruct (below prev r) eqn:Hb.
    - destruct (enforceStep_below prev st r Hb) as (m & _ & -> & _).
      by rewrite lookup_insert_ne.
    - by rewrite enforceStep_not_below. }
  split; [|split; [|split]].
  - intros k Hk. rewrite Hout.
    + apply Hstep. intros ->. apply Hk, list_elem_of_here.
    + intros Hk'. apply Hk. by apply list_elem_of_further.
  - intros r' Hr'. apply elem_of_cons in Hr' as [->|Hr'].
    + rewrite Hout by done. destruct (below prev r) eqn:Hb.
      * destruct (enforceStep_below prev st r Hb) as (m & -> & -> & _).
        by rewrite lookup_insert_eq.
      * by rewrite enforceStep_not_below.
    + rewrite Hin by done. destruct (below prev r'); [done|].
      apply Hstep. intros E. apply Hr. rewrite <- E.
      change (map name rs) with (name <$> rs). apply list_elem_of_fmap. by exists r'.
  - rewrite Hlen. destruct (below prev r) eqn:Hb.
    + destruct (enforceStep_below prev st r Hb) as (m & _ & _ & ->).
      rewrite filter_cons_True by done. rewrite length_app. simpl. lia.
    + rewrite enforceStep_not_below by done. by rewrite filter_cons_False by congruence.
  - etrans; [|exact Hpre]. destruct (below prev r) eqn:Hb.
    + destruct (enforceStep_below prev st r Hb) as (m & _ & _ & ->).
      by apply prefix_app_r.
    + by rewrite enforceStep_not_below.
Qed.

Lemma enforce_nothing_below prev rs : forall st,
  (forall r, r ∈ rs -> below prev r = false) ->
  foldl (enforceStep rendered prev) st rs = st.
Proof.
  induction rs as [|r rs IH]; intros st H; [done|]. simpl.
  rewrite enforceStep_not_below by apply H, list_elem_of_here.
  apply IH. intros r' Hr'. by apply H, list_elem_of_further.
Qed.


End Enforce.

(** Steel found at 3 and consumer goods at 18 on the shipped resources,
    everything else as after a reset. *)
Definition steelLow : state :=
  State (<["steel" := 3%Z]> (<["consumer_goods" := 18%Z]> (values freshState)))
        (histories freshState) [].


(** The pass raises steel to 15, but measures consumer goods against the
    steel of the snapshot: they stay at 18, below the new sum 30. *)
Example enforce_steelLow :
  let st' := enforceMinimums rawResources false (Some (values steelLow)) steelLow in
  map (fun n => values st' !! n) ["steel"; "plastics"; "consumer_goods"]
  = [Some 15; Some 15; Some 18]%Z /\
  map (map ch_name) (actionLog st') = [["steel"]] /\
  computeMin (Resource "consumer_goods" "Consumer Goods" ["steel"; "plastics"] None)
             (Some (values st')) = Some 30%Z.
Proof. repeat split; vm_compute; reflexivity. Qed.

End EnforceFacts.

(** ** Histories follow the values *)

Module HistoryFacts.
Import Graph Engine Catalog Effects EngineFacts SetUpFacts.

(** The last sample of every history that has one is the present value of
    its resource. *)
Definition historySync (st : state) : Prop :=
  forall n h x, histories st !! n = Some h -> last h = Some x ->
    values st !! n = Some x.

(** What changes the resource state, undo apart. *)
Inductive operation :=
| SetValue (ignoreMin : bool) (rendered : option (gmap string Z))
           (n : string) (arg : valueOrUpdater)
| EnforceMinimums (ignoreMin : bool) (rendered : option (gmap string Z))
| SetUp
| ResetResources.

Section Operations.
Variable resourceData : list resource.

Definition perform (op : operation) (st : state) : option state :=
  match op with
  | SetValue ignoreMin rendered n arg =>
      setResourceValue resourceData ignoreMin rendered n arg st
  | EnforceMinimums ignoreMin rendered =>
      Some (enforceMinimums resourceData ignoreMin rendered st)
  | SetUp =>
      Some (State (initialValues resourceData (values st)) (histories st)
                  (actionLog st))
  | ResetResources => Some (resetResources resourceData st)
  end.

Fixpoint performAll (ops : list operation) (st : state) : option state :=
  match ops with
  | [] => Some st
  | op :: rest =>
      match perform op st with
      | Some st' => performAll rest st'
      | None => None
      end
  end.

Lemma sync_group g : forall vals hist log log',
  historySync (State vals hist log) ->
  historySync (State (replay vals g) (foldl appendHistory hist g) log').
Proof.
  induction g as [|ch g IH]; intros vals hist log log' H; [exact H|].
  simpl. apply (IH _ _ log log'). intros n h x Hh Hl. simpl in *.
  unfold appendHistory in Hh.
  destruct (decide (n = ch_name ch)) as [->|Hne].
  - rewrite lookup_insert_eq in Hh. injection Hh as <-.
    rewrite last_snoc in Hl. injection Hl as <-. by rewrite lookup_insert_eq.
  - rewrite lookup_insert_ne in Hh by done. rewrite lookup_insert_ne by done.
    by eapply (H n h x).
Qed.

Lemma sync_setResourceValue ignoreMin rendered n arg st st' :
  historySync st ->
  setResourceValue resourceData ignoreMin rendered n arg st = Some st' ->
  historySync st'.
Proof.
  intros Hs H.
  destruct (resourceMap resourceData !! n) as [r|] eqn:Hr.
  2:{ destruct (setResourceValue_values _ _ _ _ _ _ _ H) as (_ & _ & Hsame).
      by rewrite (Hsame (or_introl Hr)). }
  destruct (match arg with Direct v => v | Updater f => f (values st !! n) end)
    as [p|] eqn:Hp.
  2:{ destruct (setResourceValue_values _ _ _ _ _ _ _ H) as (_ & _ & Hsame).
      by rewrite (Hsame (or_intror Hp)). }
  destruct (setResourceValue_group _ _ _ _ _ _ _ _ _ Hr Hp H) as (g & Hlog & Hv & _ & Hh).
  destruct st as [v h l], st' as [v' h' l']. simpl in *. subst v' h'.
  by eapply sync_group.
Qed.

Lemma sync_enforceStep rendered prev st r :
  historySync st -> historySync (enforceStep rendered prev st r).
Proof.
  intros Hs. unfold enforceStep.
  destruct (computeMin r rendered) as [m|]; [|done].
  destruct (Js.ltb (prev !! name r) (Some m)); [|done].
  intros n h x Hh Hl. simpl in *.
  destruct (decide (n = name r)) as [->|Hne].
  - rewrite lookup_insert_eq.
    destruct (decide (last (default [] (histories st !! name r)) = Some m)) as [E|E].
    + rewrite Hh in E. simpl in E. congruence.
    + rewrite lookup_insert_eq in Hh. injection Hh as <-.
      rewrite last_snoc in Hl. congruence.
  - rewrite lookup_insert_ne by done. apply (Hs n h x); [|done].
    destruct (decide (last (default [] (histories st !! name r)) = Some m));
      [done|by rewrite lookup_insert_ne in Hh].
Qed.

Lemma sync_enforce ignoreMin rendered st :
  historySync st -> historySync (enforceMinimums resourceData ignoreMin rendered st).
Proof.
  unfold enforceMinimums. destruct ignoreMin; [done|].
  generalize (values st). intros prev. revert st.
  induction resourceData as [|r rs IH]; intros st Hs; [done|].
  simpl. apply IH. by apply sync_enforceStep.
Qed.

Lemma fill_subseteq rs : forall acc : gmap string Z, acc ⊆ foldl fillStep acc rs.
Proof.
  induction rs as [|r rs IH]; intros acc; [done|]. simpl.
  etrans; [|apply IH]. unfold fillStep, initStep.
  destruct (acc !! name r) eqn:E; [done|].
  destruct (computeMin r (Some acc)); [by apply insert_subseteq|done].
Qed.

Lemma initialValues_subseteq (prevVals : gmap string Z) :
  prevVals ⊆ initialValues resourceData prevVals.
Proof.
  unfold initialValues. destruct (decide _); [done|]. apply fill_subseteq.
Qed.

Lemma sync_perform op st st' :
  historySync st -> perform op st = Some st' -> historySync st'.
Proof.
  intros Hs H. destruct op as [ig rendered n arg|ig rendered| |]; simpl in H.
  - by eapply sync_setResourceValue.
  - injection H as <-. by apply sync_enforce.
  - injection H as <-. intros n h x Hh Hl. simpl in *.
    eapply lookup_weaken; [by eapply Hs|apply initialValues_subseteq].
  - injection H as <-. intros n h x Hh Hl.
    unfold resetResources, buildInitial in *. simpl in *.
    rewrite lookup_fmap in Hh.
    destruct (foldl _ ∅ resourceData !! n) as [v|] eqn:E; [|done].
    simpl in Hh. injection Hh as <-. simpl in Hl. congruence.
Qed.

(** X13.  Setting a value (whatever snapshot the call holds, minimums
    respected or not), enforcing the minimums, the set-up effect and a reset
    all keep the histories in step with the values: the last sample of a
    history is the value of its resource. *)
Theorem histories_follow_values (ops : list operation) : forall st st',
  historySync st -> performAll ops st = Some st' -> historySync st'.
Proof.
  induction ops as [|op ops IH]; intros st st' Hs H; simpl in H.
  - by injection H as <-.
  - destruct (perform op st) as [st1|] eqn:E; [|done].
    eapply IH; [|exact H]. by eapply sync_perform.
Qed.

End Operations.

(** Coal raised, minimums enforced, then a reset, on the shipped
    resources. *)
Definition sampleOperations : list operation :=
  [ SetValue false (Some (values freshState)) "coal" (Direct (Some 20%Z));
    EnforceMinimums false None;
    SetValue true None "iron" (Updater (fun prev => Some (default 0 prev - 3)%Z));
    ResetResources ].

Lemma freshState_sync : historySync freshState.
Proof.
  apply (sync_perform rawResources ResetResources (State ∅ ∅ [])); [|reflexivity].
  intros n h x Hh. simpl in Hh. by rewrite lookup_empty in Hh.
Qed.

Lemma histories_follow_values_witness :
  historySync (default freshState (performAll rawResources sampleOperations freshState)).
Proof.
  apply (histories_follow_values rawResources sampleOperations freshState).
  - exact freshState_sync.
  - vm_compute. reflexivity.
Defined.

End HistoryFacts.


(** ** The columns of the display *)

Module ColumnFacts.
Import Graph Engine Catalog Effects EngineFacts.

(** The tier an entry is filed under. *)
Definition tierOfEntry (e : entry) : option nat := tier (e_resource e).

(** The column [a] is enumerated before the column [b]. *)
Definition columnBefore (a b : column) : Prop :=
  keyBefore (col_tier a) (col_tier b) = true.

Lemma keyBefore_trans a b c :
  keyBefore a b = true -> keyBefore b c = true -> keyBefore a c = true.
Proof.
  destruct a as [x|], b as [y|], c as [z|]; simpl; try done.
  rewrite !Nat.ltb_lt. lia.
Qed.

Lemma keyBefore_total a b :
  a <> b -> keyBefore a b = false -> keyBefore b a = true.
Proof.
  destruct a as [x|], b as [y|]; simpl; try done.
  rewrite Nat.ltb_ge, Nat.ltb_lt. intros Hne Hle.
  assert (x <> y) by congruence. lia.
Qed.

Lemma keyBefore_irrefl a : keyBefore a a = false.
Proof. destruct a as [x|]; simpl; [apply Nat.ltb_irrefl|done]. Qed.

Section Columns.
Variable labels : gmap nat string.

(** What holds of the columns built from the entries [es]. *)
Definition filed (es : list entry) (cols : list column) : Prop :=
  StronglySorted columnBefore cols /\
  (forall col, col ∈ cols ->
     col_resources col <> [] /\
     col_resources col = filter (fun e => tierOfEntry e = col_tier col) es /\
     col_label col = col_tier col ≫= fun k => labels !! k) /\
  (forall e, e ∈ es -> exists col, col ∈ cols /\ col_tier col = tierOfEntry e).

Lemma pushEntry_tiers cols e col :
  col ∈ pushEntry labels cols e ->
  col_tier col = tierOfEntry e \/ exists col', col' ∈ cols /\ col_tier col' = col_tier col.
Proof.
  induction cols as [|c cols IH]; simpl.
  - intros H. apply list_elem_of_singleton in H as ->. by left.
  - destruct (decide (col_tier c = tier (e_resource e))) as [E|E].
    + intros H. apply elem_of_cons in H as [->|H].
      * right. exists c. split; [apply list_elem_of_here|done].
      * right. exists col. split; [by apply list_elem_of_further|done].
    + destruct (keyBefore (tier (e_resource e)) (col_tier c)).
      * intros H. apply elem_of_cons in H as [->|H]; [by left|].
        right. by exists col.
      * intros H. apply elem_of_cons in H as [->|H].
        -- right. exists c. split; [apply list_elem_of_here|done].
        -- destruct (IH H) as [?|(c' & Hc' & Ht)]; [by left|].
           right. exists c'. split; [by apply list_elem_of_further|done].
Qed.

Lemma pushEntry_sorted cols e :
  StronglySorted columnBefore cols ->
  StronglySorted columnBefore (pushEntry labels cols e).
Proof.
  induction cols as [|c cols IH]; intros Hs; simpl.
  - repeat constructor.
  - apply StronglySorted_inv in Hs as [Hs Hhead].
    destruct (decide (col_tier c = tier (e_resource e))) as [E|E].
    + constructor; [done|]. exact Hhead.
    + destruct (keyBefore (tier (e_resource e)) (col_tier c)) eqn:Hb.
      * constructor; [by constructor|]. constructor; [exact Hb|].
        eapply Forall_impl; [exact Hhead|]. intros col Hcol.
        unfold columnBefore in *. simpl. by eapply keyBefore_trans.
      * constructor; [by apply IH|]. apply Forall_forall. intros col Hcol.
        destruct (pushEntry_tiers _ _ _ Hcol) as [Ht|(c' & Hc' & Ht)].
        -- unfold columnBefore. rewrite Ht. apply keyBefore_total; [|done].
           unfold tierOfEntry. congruence.
        -- rewrite Forall_forall in Hhead. unfold columnBefore in *.
           rewrite <- Ht. by apply Hhead.
Qed.

Lemma sorted_distinct c cols col :
  Forall (columnBefore c) cols -> col ∈ cols -> col_tier col <> col_tier c.
Proof.
  rewrite Forall_forall. intros H Hcol E. specialize (H col Hcol).
  unfold columnBefore in H. rewrite E, keyBefore_irrefl in H. done.
Qed.

(** Where a column of the object after a push comes from. *)
Lemma pushEntry_column cols e col :
  StronglySorted columnBefore cols ->
  col ∈ pushEntry labels cols e ->
  (col_tier col <> tierOfEntry e /\ col ∈ cols) \/
  (col_tier col = tierOfEntry e /\
   col_label col = (col_tier col ≫= fun k => labels !! k) /\
   col_resources col = [e] /\
   forall c, c ∈ cols -> col_tier c <> tierOfEntry e) \/
  (col_tier col = tierOfEntry e /\
   exists c, c ∈ cols /\ col_tier c = col_tier col /\
             col_label col = col_label c /\
             col_resources col = col_resources c ++ [e]).
Proof.
  induction cols as [|c cols IH]; intros Hs; simpl.
  - intros H. apply list_elem_of_singleton in H as ->. right. left. simpl.
    split; [done|]. split; [done|]. split; [done|]. by intros c ?%elem_of_nil.
  - apply StronglySorted_inv in Hs as [Hs Hhead].
    destruct (decide (col_tier c = tier (e_resource e))) as [E|E].
    + intros H. apply elem_of_cons in H as [->|H].
      * right. right. simpl. split; [done|]. exists c.
        split; [apply list_elem_of_here|done].
      * left. split; [|by apply list_elem_of_further].
        unfold tierOfEntry. rewrite <- E. by eapply sorted_distinct.
    + destruct (keyBefore (tier (e_resource e)) (col_tier c)) eqn:Hb.
      * assert (Hnone : forall c', c' ∈ c :: cols -> col_tier c' <> tierOfEntry e).
        { intros c' Hc' Ht. apply elem_of_cons in Hc' as [->|Hc']; [done|].
          rewrite Forall_forall in Hhead. specialize (Hhead c' Hc').
          unfold columnBefore in Hhead. rewrite Ht in Hhead.
          pose proof (keyBefore_trans _ _ _ Hb Hhead) as Hbad.
          unfold tierOfEntry in Hbad. by rewrite keyBefore_irrefl in Hbad. }
        intros H. apply elem_of_cons in H as [->|H].
        -- right. left. simpl. done.
        -- left. split; [by apply Hnone|done].
      * intros H. apply elem_of_cons in H as [->|H].
        -- left. split; [done|apply list_elem_of_here].
        -- destruct (IH Hs H) as [[Ht Hin]|[(Ht & Hl & Hr & Hnone)|(Ht & c' & Hc' & Hrest)]].
           ++ left. split; [done|by apply list_elem_of_further].
           ++ right. left. split; [done|]. split; [done|]. split; [done|].
              intros c' Hc'. apply elem_of_cons in Hc' as [->|Hc']; [done|by apply Hnone].
           ++ right. right. split; [done|]. exists c'.
              split; [by apply list_elem_of_further|done].
Qed.

Lemma pushEntry_keeps cols e col :
  col ∈ cols -> col_tier col <> tierOfEntry e -> col ∈ pushEntry labels cols e.
Proof.
  induction cols as [|c cols IH]; intros Hcol Ht; [by apply elem_of_nil in Hcol|].
  simpl. apply elem_of_cons in Hcol as [->|Hcol].
  - destruct (decide (col_tier c = tier (e_resource e))) as [E|E]; [done|].
    destruct (keyBefore _ _); [apply list_elem_of_further|]; apply list_elem_of_here.
  - destruct (decide (col_tier c = tier (e_resource e))) as [E|E];
      [by apply list_elem_of_further|].
    destruct (keyBefore _ _); apply list_elem_of_further;
      [by apply list_elem_of_further|by apply IH].
Qed.

Lemma pushEntry_files cols e :
  exists col, col ∈ pushEntry labels cols e /\ col_tier col = tierOfEntry e.
Proof.
  induction cols as [|c cols IH]; simpl.
  - eexists. split; [apply list_elem_of_here|done].
  - destruct (decide (col_tier c = tier (e_resource e))) as [E|E].
    + eexists. split; [apply list_elem_of_here|done].
    + destruct (keyBefore _ _).
      * eexists. split; [apply list_elem_of_here|done].
      * destruct IH as (col & Hcol & Ht). exists col.
        split; [by apply list_elem_of_further|done].
Qed.

Lemma pushEntry_filed es cols e :
  filed es cols -> filed (es ++ [e]) (pushEntry labels cols e).
Proof.
  intros (Hsorted & Hcols & Hall). split; [by apply pushEntry_sorted|]. split.
  - intros col Hcol. rewrite filter_app.
    destruct (pushEntry_column _ _ _ Hsorted Hcol)
      as [[Ht Hin]|[(Ht & Hl & Hr & Hnone)|(Ht & c & Hc & Htc & Hlc & Hrc)]].
    + destruct (Hcols col Hin) as (Hne & Hres & Hlab).
      split; [done|]. split; [|done].
      rewrite filter_cons_False by congruence. rewrite filter_nil, app_nil_r. done.
    + split; [by rewrite Hr|]. split; [|done].
      rewrite filter_cons_True by done. rewrite filter_nil, Hr.
      assert (Hempty : filter (fun e0 => tierOfEntry e0 = col_tier col) es = []).
      { destruct (filter _ es) as [|e0 l] eqn:Ef; [done|]. exfalso.
        assert (He0 : e0 ∈ filter (fun e0 => tierOfEntry e0 = col_tier col) es)
          by (rewrite Ef; apply list_elem_of_here).
        apply list_elem_of_filter in He0 as [Ht0 He0].
        destruct (Hall e0 He0) as (c & Hc & Htc). apply (Hnone c Hc). congruence. }
      by rewrite Hempty.
    + destruct (Hcols c Hc) as (Hne & Hres & Hlab).
      split; [rewrite Hrc; by destruct (col_resources c)|].
      split; [|by rewrite Hlc, Hlab, Htc].
      rewrite filter_cons_True by done. rewrite filter_nil, Hrc, Hres.
      by rewrite Htc.
  - intros e' He'. apply elem_of_app in He' as [He'|He'].
    + destruct (decide (tierOfEntry e' = tierOfEntry e)) as [E|E].
      * rewrite E. apply pushEntry_files.
      * destruct (Hall e' He') as (col & Hcol & Ht). exists col.
        split; [|done]. apply pushEntry_keeps; [done|congruence].
    + apply list_elem_of_singleton in He' as ->. apply pushEntry_files.
Qed.

Lemma pushEntries_filed new : forall es cols,
  filed es cols -> filed (es ++ new) (foldl (pushEntry labels) cols new).
Proof.
  induction new as [|e new IH]; intros es cols H; simpl.
  - by rewrite app_nil_r.
  - replace (es ++ e :: new) with ((es ++ [e]) ++ new) by (by rewrite <- app_assoc).
    apply IH. by apply pushEntry_filed.
Qed.

Lemma pushEntry_flat cols e :
  flatResources (pushEntry labels cols e) ≡ₚ e :: flatResources cols.
Proof.
  unfold flatResources. induction cols as [|c cols IH]; simpl; [done|].
  destruct (decide (col_tier c = tier (e_resource e))) as [E|E]; simpl.
  - rewrite <- app_assoc. simpl. rewrite <- Permutation_middle. done.
  - destruct (keyBefore _ _); simpl; [done|].
    rewrite IH. by rewrite <- Permutation_middle.
Qed.

Lemma pushEntries_flat new : forall cols,
  flatResources (foldl (pushEntry labels) cols new) ≡ₚ flatResources cols ++ new.
Proof.
  induction new as [|e new IH]; intros cols; simpl; [by rewrite app_nil_r|].
  rewrite IH, pushEntry_flat. by rewrite <- Permutation_middle.
Qed.

(** X14.  The columns that the grouping by tier produces.  They come in
    enumeration order of their tiers, each tier once; a column is never
    empty and holds exactly the rendered resources of its tier, in
    declaration order, under the label of that tier; and every resource is
    shown, once, in the column of its tier. *)
Theorem byTier_columns (resourceData : list tiered) (st : state) :
  let es := map (render st) resourceData in
  let cols := byTier labels resourceData st in
  StronglySorted columnBefore cols /\
  (forall col, col ∈ cols ->
     col_resources col <> [] /\
     col_resources col = filter (fun e => tierOfEntry e = col_tier col) es /\
     col_label col = col_tier col ≫= fun k => labels !! k) /\
  (forall e, e ∈ es -> exists col, col ∈ cols /\ col_tier col = tierOfEntry e) /\
  flatResources cols ≡ₚ es.
Proof.
  intros es cols.
  assert (Hf : filed es cols).
  { apply (pushEntries_filed es [] []). split; [constructor|].
    split; [by intros col ?%elem_of_nil|by intros e ?%elem_of_nil]. }
  destruct Hf as (H1 & H2 & H3). split; [done|]. split; [done|]. split; [done|].
  apply (pushEntries_flat es []).
Qed.

End Columns.

(** On the shipped resources the three columns hold iron, coal and oil,
    then steel and plastics, then consumer goods: read column by column,
    the resources come in declaration order, which is the order the noise
    walks through them. *)
Example shipped_columns (st : state) :
  let cols := byTier (expandTiers resourceTiers 3)
                     CatalogFacts.shippedResources st in
  map col_tier cols = [Some 1; Some 2; Some 3] /\
  map col_label cols = [Some "Basic"; Some "Intermediate"; Some "Advanced"] /\
  map toRes (flatResources cols) = Noise.renderResources (values st) rawResources.
Proof. repeat split; reflexivity. Qed.

End ColumnFacts.


(** ** What the cascade computes *)

Module CascadeFacts.
Import Graph Engine EngineFacts.

(** A minimum does not go down when no value does. *)
Lemma computeMin_grows r (a b : gmap string Z) m :
  computeMin r (Some a) = Some m -> grows a b ->
  exists m', computeMin r (Some b) = Some m' /\ (m <= m')%Z.
Proof.
  intros Hm Hg. destruct (decide (components r = [])) as [E|E].
  - rewrite computeMin_leaf in * by done. exists m. split; [done|lia].
  - assert (Ha : forall c, c ∈ components r -> is_Some (a !! c))
      by (intros c Hc; by eapply computeMin_present).
    assert (Hb : forall c, c ∈ components r -> is_Some (b !! c)).
    { intros c Hc. destruct (Ha c Hc) as [x Hx].
      destruct (Hg c x Hx) as (y & Hy & _). by exists y. }
    rewrite computeMin_sum in Hm by done. injection Hm as <-.
    rewrite computeMin_sum by done. eexists. split; [done|].
    apply sumOver_le. intros c Hc. split; [by apply Ha|].
    destruct (Ha c Hc) as [x Hx]. destruct (Hg c x Hx) as (y & Hy & Hle).
    by rewrite Hx, Hy.
Qed.

Section Exact.
Variable resourceData : list resource.
Variable tier : string -> nat.
Hypothesis names_unique : NoDup (map name resourceData).
Hypothesis layered :
  forall r c, r ∈ resourceData -> c ∈ components r -> tier (name r) = S (tier c).

(** Every value is the one the loop started from, or does not exceed the
    present minimum of its resource. *)
Definition bounded (start vals : gmap string Z) : Prop :=
  forall k y, vals !! k = Some y ->
    start !! k = Some y \/
    exists r m, resourceMap resourceData !! k = Some r /\
                computeMin r (Some vals) = Some m /\ (y <= m)%Z.

Lemma bounded_grows start a b :
  bounded start a -> grows a b ->
  (forall k, a !! k <> b !! k ->
     exists r m, resourceMap resourceData !! k = Some r /\
                 computeMin r (Some a) = Some m /\ b !! k = Some m) ->
  (forall k y, b !! k = Some y -> is_Some (a !! k)) ->
  bounded start b.
Proof.
  intros Hb Hg Hch Hdom k y Hy.
  destruct (decide (a !! k = b !! k)) as [E|E].
  - rewrite <- E in Hy. destruct (Hb k y Hy) as [?|(r & m & Hr & Hm & Hle)]; [by left|].
    right. destruct (computeMin_grows _ _ _ _ Hm Hg) as (m' & Hm' & Hle').
    exists r, m'. split; [done|]. split; [done|lia].
  - right. destruct (Hch k E) as (r & m & Hr & Hm & Hbk).
    destruct (computeMin_grows _ _ _ _ Hm Hg) as (m' & Hm' & Hle').
    exists r, m'. split; [done|]. split; [done|]. congruence.
Qed.

Lemma cascadeStep_bounded start cs d :
  bounded start (newVals cs) ->
  bounded start (newVals (cascadeStep resourceData cs d)).
Proof.
  intros Hb. eapply bounded_grows; [exact Hb|apply cascadeStep_grows| |];
    unfold cascadeStep;
    destruct (resourceMap resourceData !! d) as [r|] eqn:Hr; try done;
    destruct (computeMin r (Some (newVals cs))) as [m|] eqn:Hm; try done;
    destruct (newVals cs !! d) as [prev|] eqn:Hprev; simpl; try done;
    destruct (prev <? m)%Z eqn:Hlt; try done; simpl;
    try (by intros k y ->).
  - intros k Hk. destruct (decide (k = d)) as [->|Hne].
    + exists r, m. by rewrite lookup_insert_eq.
    + by rewrite lookup_insert_ne in Hk.
  - intros k y. destruct (decide (k = d)) as [->|Hne].
    + by rewrite Hprev.
    + rewrite lookup_insert_ne by done. by intros ->.
Qed.

Lemma cascadeSteps_bounded start ds : forall cs,
  bounded start (newVals cs) ->
  bounded start (newVals (foldl (cascadeStep resourceData) cs ds)).
Proof.
  induction ds as [|d ds IH]; intros cs H; [done|].
  simpl. by apply IH, cascadeStep_bounded.
Qed.

Lemma cascade_bounded start fuel : forall cs cs',
  cascade resourceData fuel cs = Some cs' ->
  bounded start (newVals cs) -> bounded start (newVals cs').
Proof.
  induction fuel as [|fuel IH]; intros [vals adj q vis] cs' H Hb.
  - destruct q; simpl in H; [|done]. by injection H as <-.
  - destruct q as [|c rest]; simpl in H; [by injection H as <-|].
    eapply IH; [exact H|].
    by apply (cascadeSteps_bounded start _ (CascadeState vals adj rest vis)).
Qed.

(** The loop writes to resources of the tiers above [t0] only. *)
Definition above (t0 : nat) (start : gmap string Z) (cs : cascadeState) : Prop :=
  (forall q, q ∈ queue cs -> t0 <= tier q) /\
  (forall k, tier k <= t0 -> newVals cs !! k = start !! k).

Lemma cascadeStep_above t0 start current cs d :
  t0 <= tier current ->
  d ∈ default [] (dependentsMap resourceData !! current) ->
  above t0 start cs -> above t0 start (cascadeStep resourceData cs d).
Proof.
  intros Hcur Hd [Hq Hv].
  apply dependentsMap_spec in Hd as (rd & Hrd & Hname & Hc).
  assert (Htd : tier d = S (tier current)) by (rewrite <- Hname; by apply layered).
  unfold cascadeStep.
  destruct (resourceMap resourceData !! d) as [r|]; [|done].
  destruct (computeMin r (Some (newVals cs))) as [m|]; [|done].
  destruct (Js.ltb (newVals cs !! d) (Some m)); [|done].
  split; simpl.
  - intros q Hin. destruct (decide (d ∈ visited cs)); [by apply Hq|].
    apply elem_of_app in Hin as [Hin|Hin]; [by apply Hq|].
    apply list_elem_of_singleton in Hin as ->. lia.
  - intros k Hk. rewrite lookup_insert_ne; [by apply Hv|]. intros ->. lia.
Qed.

Lemma cascadeSteps_above t0 start current ds : forall cs,
  t0 <= tier current ->
  (forall d, d ∈ ds -> d ∈ default [] (dependentsMap resourceData !! current)) ->
  above t0 start cs -> above t0 start (foldl (cascadeStep resourceData) cs ds).
Proof.
  induction ds as [|d ds IH]; intros cs Hcur Hds H; [done|].
  simpl. apply IH; [done| |].
  - intros d' Hd'. by apply Hds, list_elem_of_further.
  - eapply cascadeStep_above; [done| |done]. apply Hds, list_elem_of_here.
Qed.

Lemma cascade_above t0 start fuel : forall cs cs',
  cascade resourceData fuel cs = Some cs' ->
  above t0 start cs -> above t0 start cs'.
Proof.
  induction fuel as [|fuel IH]; intros [vals adj q vis] cs' H Ha.
  - destruct q; simpl in H; [|done]. by injection H as <-.
  - destruct q as [|c rest]; simpl in H; [by injection H as <-|].
    eapply IH; [exact H|]. destruct Ha as [Hq Hv]. simpl in *.
    eapply (cascadeSteps_above t0 start c); [apply Hq, list_elem_of_here|done|].
    split; simpl; [|done]. intros q Hin. by apply Hq, list_elem_of_further.
Qed.

(** The loop writes to resources that have components only. *)
Lemma cascadeStep_leaves cs d k :
  d ∈ map name (filter (fun r => components r <> []) resourceData) ->
  k ∉ map name (filter (fun r => components r <> []) resourceData) ->
  newVals (cascadeStep resourceData cs d) !! k = newVals cs !! k.
Proof.
  intros Hd Hk. unfold cascadeStep.
  destruct (resourceMap resourceData !! d) as [r|]; [|done].
  destruct (computeMin r (Some (newVals cs))) as [m|]; [|done].
  destruct (Js.ltb (newVals cs !! d) (Some m)); [|done].
  simpl. rewrite lookup_insert_ne; [done|]. by intros ->.
Qed.

Lemma dependents_have_components current d :
  d ∈ default [] (dependentsMap resourceData !! current) ->
  d ∈ map name (filter (fun r => components r <> []) resourceData).
Proof.
  intros Hd. apply dependentsMap_spec in Hd as (rd & Hrd & Hname & Hc).
  change (map name ?l) with (name <$> l). apply list_elem_of_fmap.
  exists rd. split; [done|]. apply list_elem_of_filter. split; [|done].
  intros E. rewrite E in Hc. by apply elem_of_nil in Hc.
Qed.

Lemma cascadeSteps_leaves current ds k : forall cs,
  (forall d, d ∈ ds -> d ∈ default [] (dependentsMap resourceData !! current)) ->
  k ∉ map name (filter (fun r => components r <> []) resourceData) ->
  newVals (foldl (cascadeStep resourceData) cs ds) !! k = newVals cs !! k.
Proof.
  induction ds as [|d ds IH]; intros cs Hds Hk; [done|].
  simpl. rewrite IH; [|intros d' Hd'; by apply Hds, list_elem_of_further|done].
  apply cascadeStep_leaves; [|done].
  eapply dependents_have_components, Hds, list_elem_of_here.
Qed.

Lemma cascade_leaves k fuel : forall cs cs',
  cascade resourceData fuel cs = Some cs' ->
  k ∉ map name (filter (fun r => components r <> []) resourceData) ->
  newVals cs' !! k = newVals cs !! k.
Proof.
  induction fuel as [|fuel IH]; intros [vals adj q vis] cs' H Hk.
  - destruct q; simpl in H; [|done]. by injection H as <-.
  - destruct q as [|c rest]; simpl in H; [by injection H as <-|].
    rewrite (IH _ _ H Hk).
    by apply (cascadeSteps_leaves c _ k (CascadeState vals adj rest vis)).
Qed.

(** X15.  What a call that respects minimums and sees the current state
    leaves behind, on a layered graph whose floors were respected.  The
    named resource holds the requested value, raised to its minimum if need
    be; any other resource with components holds the larger of its old value
    and the new sum of its components, so a dependent is raised exactly to
    its floor and never beyond; a resource without components other than the
    named one is untouched. *)
Theorem setResourceValue_exact n arg st st' r0 p :
  floorInvariant resourceData (values st) ->
  r0 ∈ resourceData -> name r0 = n ->
  match arg with Direct v => v | Updater f => f (values st !! n) end = Some p ->
  setResourceValue resourceData false (Some (values st)) n arg st = Some st' ->
  (exists m, computeMin r0 (Some (values st)) = Some m /\
             values st' !! n = Some (Z.max p m)) /\
  (forall r, r ∈ resourceData -> name r <> n ->
     if decide (components r = [])
     then values st' !! name r = values st !! name r
     else exists old,
            values st !! name r = Some old /\
            values st' !! name r
            = Some (Z.max old (sumOver (values st') (components r)))).
Proof.
  intros Hfloor Hr0 Hn Hp H.
  pose proof (floor_preserved resourceData tier names_unique layered _ _ _ _ Hfloor H)
    as Hfloor'.
  destruct (setResourceValue_values _ _ _ _ _ _ _ H) as (Hother & _ & _).
  assert (Hmap : resourceMap resourceData !! n = Some r0)
    by (apply resourceMap_spec; [done|by split]).
  assert (Hmin : exists m, computeMin r0 (Some (values st)) = Some m).
  { destruct (decide (components r0 = [])) as [E|E].
    - rewrite computeMin_leaf by done. by eexists.
    - destruct (ok_inv _ _ (Hfloor r0 Hr0 E)) as (x & m & _ & Hm & _).
      by exists m. }
  destruct Hmin as [m Hm].
  unfold setResourceValue in H. rewrite Hmap, Hp, Hm in H. cbn [negb andb] in H.
  set (next := if (p <? m)%Z then m else p) in *.
  assert (Hnext : next = Z.max p m).
  { subst next. destruct (p <? m)%Z eqn:E;
      [apply Z.ltb_lt in E|apply Z.ltb_ge in E]; lia. }
  set (start := <[n := next]> (values st)) in *.
  assert (Hfinal : exists cs,
            values st' = newVals cs /\ bounded start (newVals cs) /\
            above (tier n) start cs /\
            (forall k, k ∉ map name (filter (fun r => components r <> []) resourceData)
                       -> newVals cs !! k = start !! k)).
  { assert (Hb0 : bounded start start) by (intros k y Hy; by left).
    destruct (Js.gtb (Some next) (values st !! n)).
    - destruct (cascade resourceData (S (length resourceData)) _) as [cs|] eqn:Hc;
        [|done].
      injection H as <-. exists cs. split; [done|].
      split; [by apply (cascade_bounded start _ _ _ Hc)|].
      split; [|intros k Hk; by rewrite (cascade_leaves k _ _ _ Hc Hk)].
      apply (cascade_above (tier n) start _ _ _ Hc). split; simpl; [|done].
      intros q Hq. apply list_elem_of_singleton in Hq as ->. lia.
    - injection H as <-. exists (CascadeState start [] [] ∅). simpl.
      split; [done|]. split; [done|]. split; [|done].
      split; simpl; [by intros q ?%elem_of_nil|done]. }
  destruct Hfinal as (cs & Hvals & Hbound & [_ Habove] & Hleaves).
  rewrite Hvals in *. split.
  - exists m. split; [done|]. rewrite Habove by lia.
    unfold start. by rewrite lookup_insert_eq, Hnext.
  - intros r Hr Hne. destruct (decide (components r = [])) as [E|E].
    + rewrite Hleaves.
      * unfold start. by rewrite lookup_insert_ne.
      * change (map name ?l) with (name <$> l). intros Hin.
        apply list_elem_of_fmap in Hin as (r' & Hname & Hr').
        apply list_elem_of_filter in Hr' as [Hcomp Hr'].
        assert (r' = r); [|by subst].
        assert (H1 : resourceMap resourceData !! name r = Some r)
          by (apply resourceMap_spec; [done|by split]).
        assert (H2 : resourceMap resourceData !! name r = Some r')
          by (apply resourceMap_spec; [done|by split]).
        congruence.
    + destruct (ok_inv _ _ (Hfloor r Hr E)) as (old & m0 & Hold & _ & _).
      destruct (ok_inv _ _ (Hfloor' r Hr E)) as (y & m' & Hy & Hm' & Hle).
      exists old. split; [done|]. rewrite Hy. f_equal.
      assert (Hsum : m' = sumOver (newVals cs) (components r)).
      { rewrite computeMin_sum in Hm'; [by injection Hm'|done|].
        intros c Hc. by eapply computeMin_present. }
      rewrite <- Hsum.
      destruct (Hother (name r) Hne old Hold) as (y' & Hy' & Hge).
      assert (y' = y) as -> by congruence.
      destruct (Hbound _ _ Hy) as [Hstart|(r' & m2 & Hr' & Hm2 & Hle2)].
      * unfold start in Hstart. rewrite lookup_insert_ne in Hstart by done.
        assert (old = y) by congruence. lia.
      * assert (r' = r).
        { assert (H1 : resourceMap resourceData !! name r = Some r)
            by (apply resourceMap_spec; [done|by split]).
          congruence. }
        subst r'. assert (m2 = m') by congruence. lia.
Qed.

End Exact.

Lemma setResourceValue_exact_witness :
  (exists m, computeMin (Resource "coal" "Coal" [] (Some 10%Z))
               (Some (values freshState)) = Some m /\
             values coalRaised !! "coal" = Some (Z.max 20 m)) /\
  (forall r, r ∈ rawResources -> name r <> "coal" ->
     if decide (components r = [])
     then values coalRaised !! name r = values freshState !! name r
     else exists old,
            values freshState !! name r = Some old /\
            values coalRaised !! name r
            = Some (Z.max old (sumOver (values coalRaised) (components r)))).
Proof.
  apply (setResourceValue_exact rawResources GraphFacts.shippedRank
           GraphFacts.rawResources_NoDup shipped_layered
           "coal" (Direct (Some 20%Z)) freshState coalRaised
           (Resource "coal" "Coal" [] (Some 10%Z)) 20%Z).
  - exact freshState_floor.
  - apply list_elem_of_further, list_elem_of_here.
  - reflexivity.
  - reflexivity.
  - vm_compute. reflexivity.
Defined.

End CascadeFacts.


(** ** Undo, as many times as there are groups *)

Module UndoFacts.
Import Graph Engine EngineFacts.

(** One call of [setResourceValue]: whether minimums are ignored, the
    snapshot the callback holds, the name and the value or updater. *)
Record call := Call {
  call_ignoreMin : bool;
  call_rendered : option (gmap string Z);
  call_name : string;
  call_arg : valueOrUpdater
}.

Section Calls.
Variable resourceData : list resource.

(** Calls applied one after the other. *)
Fixpoint runCalls (calls : list call) (st : state) : option state :=
  match calls with
  | [] => Some st
  | c :: rest =>
      match setResourceValue resourceData (call_ignoreMin c) (call_rendered c)
              (call_name c) (call_arg c) st with
      | Some st' => runCalls rest st'
      | None => None
      end
  end.

Lemma setResourceValue_log ignoreMin rendered n arg st st' :
  setResourceValue resourceData ignoreMin rendered n arg st = Some st' ->
  st' = st \/
  exists g, actionLog st' = actionLog st ++ [g] /\
            values st' = replay (values st) g /\ traced (values st) g.
Proof.
  intros H.
  destruct (resourceMap resourceData !! n) as [r|] eqn:Hr.
  2:{ left. destruct (setResourceValue_values _ _ _ _ _ _ _ H) as (_ & _ & Hsame).
      apply Hsame. by left. }
  destruct (match arg with Direct v => v | Updater f => f (values st !! n) end)
    as [p|] eqn:Hp.
  2:{ left. destruct (setResourceValue_values _ _ _ _ _ _ _ H) as (_ & _ & Hsame).
      apply Hsame. by right. }
  right. destruct (setResourceValue_group _ _ _ _ _ _ _ _ _ Hr Hp H)
    as (g & Hlog & Hv & Ht & _).
  by exists g.
Qed.

Lemma undo_calls calls : forall st st',
  runCalls calls st = Some st' ->
  exists k,
    length (actionLog st') = length (actionLog st) + k /\
    values (Nat.iter k undoLastChange st') = values st /\
    actionLog (Nat.iter k undoLastChange st') = actionLog st.
Proof.
  induction calls as [|c calls IH]; intros st st' H; simpl in H.
  - injection H as <-. exists 0. split; [lia|done].
  - destruct (setResourceValue _ _ _ _ _ st) as [st1|] eqn:Hc; [|done].
    destruct (IH _ _ H) as (k & Hlen & Hv & Hl).
    destruct (setResourceValue_log _ _ _ _ _ _ Hc) as [->|(g & Hlog & Hvals & Ht)];
      [by exists k|].
    exists (S k). split; [rewrite Hlen, Hlog, length_app; simpl; lia|].
    simpl. destruct (Nat.iter k undoLastChange st') as [v h l]. simpl in *.
    subst v l. rewrite Hlog, undoLastChange_snoc. simpl.
    split; [|done]. rewrite Hvals. by apply revert_replay.
Qed.

(** X16.  Multi-level undo.  After any sequence of calls, undoing once for
    each group the calls logged brings back the values and the log from
    before the calls, whatever snapshots the calls held; and once the log is
    empty a further undo changes nothing. *)
Theorem undo_all (calls : list call) (st st' : state) :
  runCalls calls st = Some st' ->
  let k := length (actionLog st') - length (actionLog st) in
  values (Nat.iter k undoLastChange st') = values st /\
  actionLog (Nat.iter k undoLastChange st') = actionLog st /\
  (actionLog st = [] ->
   undoLastChange (Nat.iter k undoLastChange st') = Nat.iter k undoLastChange st').
Proof.
  intros H k. destruct (undo_calls _ _ _ H) as (k' & Hlen & Hv & Hl).
  assert (k = k') as -> by (unfold k; lia).
  split; [done|]. split; [done|]. intros Hempty.
  set (s := Nat.iter k' undoLastChange st') in *.
  unfold undoLastChange. by rewrite Hl, Hempty.
Qed.

End Calls.

(** Coal raised with minimums respected, then iron set to 1 with minimums
    ignored, on the shipped resources. *)
Definition sampleCalls : list call :=
  [ Call false (Some (values freshState)) "coal" (Direct (Some 20%Z));
    Call true None "iron" (Direct (Some 1%Z)) ].

Lemma undo_all_witness :
  let st' := default freshState (runCalls rawResources sampleCalls freshState) in
  let k := length (actionLog st') - length (actionLog freshState) in
  values (Nat.iter k undoLastChange st') = values freshState /\
  actionLog (Nat.iter k undoLastChange st') = actionLog freshState /\
  (actionLog freshState = [] ->
   undoLastChange (Nat.iter k undoLastChange st') = Nat.iter k undoLastChange st').
Proof.
  apply (undo_all rawResources sampleCalls freshState).
  vm_compute. reflexivity.
Defined.

End UndoFacts.


(** ** The steps of the noise *)

Module NoiseStepFacts.
Import Graph Engine Noise.

Ltac zbool :=
  repeat match goal with
         | |- context [(?a <? ?b)%Z] =>
             let E := fresh "E" in
             destruct (a <? b)%Z eqn:E;
             [apply Z.ltb_lt in E|apply Z.ltb_ge in E]
         | |- context [(?a =? ?b)%Z] =>
             let E := fresh "E" in
             destruct (a =? b)%Z eqn:E;
             [apply Z.eqb_eq in E|apply Z.eqb_neq in E]
         end.

(** X17.  The size of a step of the noise, for a resource whose value and
    minimum are numbers.  Call floor the minimum while minimums are
    respected, and 1 while they are ignored.  The noise proposes nothing, or
    a value that is never more than one below the current one.  When the
    value is at or above the floor, the proposal is at or above the floor
    too and at most one above the value.  When the value is below the
    floor, the proposal is the value itself (no adjustment was drawn) or
    the floor, however far above the value that is. *)
Theorem computeAdjustment_step (ignoreMin : bool) (rand1 rand2 : Q)
    (n : string) (m v : Z) :
  let floor := if ignoreMin then 1%Z else m in
  computeAdjustment ignoreMin rand1 rand2 (Res n (Some m) (Some v)) = None \/
  exists next,
    computeAdjustment ignoreMin rand1 rand2 (Res n (Some m) (Some v))
      = Some (n, Some next) /\
    (v - 1 <= next)%Z /\
    ((floor <= v)%Z -> (floor <= next)%Z /\ (next <= v + 1)%Z) /\
    ((v < floor)%Z -> next = v \/ next = floor).
Proof.
  intros floor. unfold floor, computeAdjustment. simpl.
  destruct (negb (Qle_bool (4 # 10) rand1)).
  { right. exists v. split; [done|]. destruct ignoreMin; lia. }
  destruct ignoreMin.
  - destruct (m <? v)%Z eqn:E0;
      [apply Z.ltb_lt in E0|apply Z.ltb_ge in E0];
      destruct (randBelow rand2 (5 # 10) (4 # 10) (Z.abs (v - m)) m);
      zbool; try (by left); right; eexists; (split; [reflexivity|lia]).
  - destruct (randBelow rand2 (1 # 10) (8 # 10) (v - m) m);
      zbool; try (by left); right; eexists; (split; [reflexivity|lia]).
Qed.

(** Below the floor the step is not bounded by one: a resource worth 16
    under a minimum of 20 is proposed 20, and with minimums ignored a
    resource worth -5 is proposed 1. *)
Example computeAdjustment_jumps :
  computeAdjustment false (1 # 2) (99 # 100) (Res "steel" (Some 20%Z) (Some 16%Z))
    = Some ("steel", Some 20%Z) /\
  computeAdjustment true (1 # 2) (99 # 100) (Res "steel" (Some 20%Z) (Some (-5)%Z))
    = Some ("steel", Some 1%Z).
Proof. split; vm_compute; reflexivity. Qed.

(** X18.  Reversion to the minimum.  While minimums are respected, a
    resource worth at least 2.125 times its minimum goes down by one
    whenever the noise adjusts it, whatever the second draw. *)
Theorem computeAdjustment_reverts (rand1 rand2 : Q) (n : string) (m v : Z) :
  (0 < m)%Z -> (17 * m <= 8 * v)%Z ->
  (4 # 10 <= rand1)%Q -> (rand2 < 1)%Q ->
  computeAdjustment false rand1 rand2 (Res n (Some m) (Some v))
  = Some (n, Some (v - 1)%Z).
Proof.
  intros Hm Hv H1 H2. unfold computeAdjustment. simpl.
  apply Qle_bool_iff in H1. rewrite H1. simpl.
  assert (Hdown : randBelow rand2 (1 # 10) (8 # 10) (v - m) m = true).
  { unfold randBelow. replace (m =? 0)%Z with false by (symmetry; apply Z.eqb_neq; lia).
    apply negb_true_iff. destruct (Qle_bool _ rand2) eqn:E; [|done].
    apply Qle_bool_iff in E. exfalso.
    assert (Hratio : (9 # 8 <= inject_Z (v - m) / inject_Z m)%Q).
    { apply Qle_shift_div_l.
      - replace 0%Q with (inject_Z 0) by done. by rewrite <- Zlt_Qlt.
      - replace (9 # 8)%Q with (inject_Z 9 / inject_Z 8)%Q by done.
        unfold Qdiv. rewrite <- Qmult_assoc, (Qmult_comm (/ inject_Z 8)), Qmult_assoc.
        apply Qle_shift_div_r; [done|].
        rewrite <- !inject_Z_mult, <- Zle_Qle. lia. }
    assert (1 <= (1 # 10) + (8 # 10) * (inject_Z (v - m) / inject_Z m))%Q by nra.
    apply (Qlt_irrefl 1). eapply Qle_lt_trans; [|exact H2].
    eapply Qle_trans; eassumption. }
  rewrite Hdown.
  replace (v + -1 <? m)%Z with false by (symmetry; apply Z.ltb_ge; lia).
  replace (v + -1 =? v)%Z with false by (symmetry; apply Z.eqb_neq; lia).
  done.
Qed.

Lemma computeAdjustment_reverts_witness :
  computeAdjustment false (1 # 2) (99 # 100) (Res "iron" (Some 5%Z) (Some 11%Z))
  = Some ("iron", Some (11 - 1)%Z).
Proof.
  apply (computeAdjustment_reverts (1 # 2) (99 # 100) "iron" 5 11);
    [lia|lia|vm_compute; discriminate|reflexivity].
Defined.

(** A proposal is never more than one below the rendered value. *)
Lemma computeAdjustment_lower ignoreMin rand1 rand2 r k next v :
  computeAdjustment ignoreMin rand1 rand2 r = Some (k, Some next) ->
  res_value r = Some v -> (v - 1 <= next)%Z.
Proof.
  unfold computeAdjustment. intros H Hv. rewrite Hv in H.
  destruct (negb (Qle_bool (4 # 10) rand1)); [injection H as _ <-; lia|].
  destruct (res_min r) as [m|].
  - destruct ignoreMin.
    + revert H. destruct (m <? v)%Z; destruct (randBelow _ _ _ _ _); cbv zeta;
        zbool; intros [= _ <-]; lia.
    + revert H. destruct (randBelow _ _ _ _ _); cbv zeta;
        zbool; intros [= _ <-]; lia.
  - revert H. destruct ignoreMin; cbv zeta; simpl; zbool; intros [= _ <-]; lia.
Qed.

Section Tick.
Variable resourceData : list resource.


End Tick.

Lemma renderResources_value (vals : gmap string Z) (rs : list resource) r :
  r ∈ renderResources vals rs -> res_value r = vals !! res_name r.
Proof.
  unfold renderResources. change (map ?f ?l) with (f <$> l).
  intros H. by apply list_elem_of_fmap in H as (r0 & -> & _).
Qed.


End NoiseStepFacts.


(** ** Bundles: worth and size *)

Module BundleFacts.
Import Graph Engine Contracts ContractCard EngineFacts ContractFacts.

#[local] Arguments aboveTarget : simpl never.
#[local] Arguments belowTarget : simpl never.

(** The worth of a bundle at the values of the generation: quantity times
    value, a name without a value counting for nothing. *)
Definition bundleValue (values : list (string * Z)) (sel : list (string * nat)) : Z :=
  foldr (fun e acc => (default 0 (entryOf values e.1) * Z.of_nat e.2 + acc)%Z) 0%Z sel.

Lemma bundleValue_bump values sel k :
  bundleValue values (bump sel k)
  = (bundleValue values sel + default 0 (entryOf values k))%Z.
Proof.
  induction sel as [|[k' q] sel IH]; simpl; [lia|].
  destruct (decide (k' = k)) as [->|Hne]; simpl; [lia|]. rewrite IH. lia.
Qed.

Lemma bump_keys sel k :
  map fst (bump sel k) = if decide (k ∈ map fst sel) then map fst sel
                         else map fst sel ++ [k].
Proof.
  induction sel as [|[k' q] sel IH]; simpl; [done|].
  destruct (decide (k' = k)) as [->|Hne]; simpl.
  - destruct (decide (k ∈ k :: map fst sel)) as [_|H]; [done|].
    destruct H. apply list_elem_of_here.
  - rewrite IH. destruct (decide (k ∈ map fst sel)) as [Hin|Hin];
      destruct (decide (k ∈ k' :: map fst sel)) as [Hin'|Hin']; try done.
    + destruct Hin'. by apply list_elem_of_further.
    + apply elem_of_cons in Hin' as [?|?]; [congruence|done].
Qed.

Lemma bump_NoDup sel k : NoDup (map fst sel) -> NoDup (map fst (bump sel k)).
Proof.
  intros H. rewrite bump_keys. destruct (decide _) as [Hin|Hin]; [done|].
  apply NoDup_app. split; [done|]. split; [|apply NoDup_singleton].
  intros x Hx Hx'. apply list_elem_of_singleton in Hx' as ->. done.
Qed.

Lemma entryOf_is_Some {A} (dict : list (string * A)) k :
  is_Some (entryOf dict k) <-> k ∈ map fst dict.
Proof.
  unfold entryOf. induction dict as [|[k' x] dict IH]; simpl.
  - split; [by intros [? ?]|by intros ?%elem_of_nil].
  - case_bool_decide as E; simpl in *.
    + subst. split; [intros _; apply list_elem_of_here|by eexists].
    + rewrite IH, elem_of_cons. split; [by right|]. intros [?|?]; [congruence|done].
Qed.

Lemma entryOf_NoDup (values : list (string * Z)) k x :
  NoDup (map fst values) -> In (k, x) values -> entryOf values k = Some x.
Proof.
  unfold entryOf. induction values as [|[k' y] values IH]; intros Hnd Hin; [done|].
  simpl in *. apply NoDup_cons in Hnd as [Hk' Hnd].
  case_bool_decide as E; simpl in *.
  - subst k'. destruct Hin as [[= ->]|Hin]; [done|].
    destruct Hk'. change (map fst values) with (fst <$> values).
    apply list_elem_of_fmap. exists (k, x). split; [done|]. by apply list_elem_of_In.
  - destruct Hin as [[= -> ->]|Hin]; [done|]. by apply IH.
Qed.

Lemma list_to_map_entryOf (values : list (string * Z)) k :
  (list_to_map values : gmap string Z) !! k = entryOf values k.
Proof.
  unfold entryOf. induction values as [|[k' y] values IH]; simpl; [done|].
  case_bool_decide as E; simpl in *.
  - subst. by rewrite lookup_insert_eq.
  - by rewrite lookup_insert_ne.
Qed.

Lemma market_foldl (vs : gmap string Z) l : forall acc,
  foldl (fun sum r => (sum + default 0 (vs !! r.1) * Z.of_nat r.2)%Z) acc l
  = (acc + foldr (fun e a => (default 0 (vs !! e.1) * Z.of_nat e.2 + a)%Z) 0%Z l)%Z.
Proof.
  induction l as [|e l IH]; intros acc; simpl; [lia|]. rewrite IH. lia.
Qed.

Lemma market_perm (vs : gmap string Z) (l l' : list (string * nat)) :
  l ≡ₚ l' ->
  foldr (fun e a => (default 0 (vs !! e.1) * Z.of_nat e.2 + a)%Z) 0%Z l
  = foldr (fun e a => (default 0 (vs !! e.1) * Z.of_nat e.2 + a)%Z) 0%Z l'.
Proof. induction 1; simpl; lia. Qed.

(** What the card shows as market value, at the values of the generation,
    whatever the display order. *)
Lemma market_is_bundleValue values sel shown :
  shown ≡ₚ sel ->
  currentMarketValue (Some (list_to_map values)) shown = bundleValue values sel.
Proof.
  intros Hp. unfold currentMarketValue, bundleValue.
  rewrite market_foldl, (market_perm _ _ _ Hp), Z.add_0_l. clear Hp.
  induction sel as [|e sel IH]; simpl; [done|].
  by rewrite list_to_map_entryOf, IH.
Qed.

Lemma randomIndex_lt rand n :
  (0 <= rand)%Q -> (rand < 1)%Q -> 0 < n -> randomIndex rand n < n.
Proof.
  intros H0 H1 Hn. unfold randomIndex.
  assert (Hpos : (0 < inject_Z (Z.of_nat n))%Q).
  { replace 0%Q with (inject_Z 0) by done. rewrite <- Zlt_Qlt. lia. }
  assert (Hlt : (Qfloor (rand * inject_Z (Z.of_nat n)) < Z.of_nat n)%Z).
  { rewrite Zlt_Qlt. eapply Qle_lt_trans; [apply Qfloor_le|]. nra. }
  assert (Hge : (0 <= Qfloor (rand * inject_Z (Z.of_nat n)))%Z).
  { replace 0%Z with (Qfloor 0) by done. apply Qfloor_resp_le. nra. }
  lia.
Qed.

Section Loops.
Variable values : list (string * Z).
Variable scaledTarget : Q.
Variable maxResources : option nat.
Variable draws : nat -> Q.
Hypothesis keys_unique : NoDup (map fst values).

Lemma generalLoop_value : forall fuel i v sel v' sel',
  generalLoop values scaledTarget maxResources draws fuel i v sel = Some (v', sel') ->
  bundleValue values sel = v -> bundleValue values sel' = v'.
Proof.
  induction fuel as [|fuel IH]; intros i v sel v' sel' H Hv.
  - simpl in H. destruct (belowTarget _ _); [done|]. by injection H as <- <-.
  - rewrite generalLoop_step in H.
    destruct (belowTarget _ _); [|by injection H as <- <-].
    destruct (eligible values scaledTarget maxResources v sel) as [|e0 l] eqn:He;
      [by injection H as <- <-|].
    cbv zeta in H. revert H.
    generalize (randomIndex (draws i) (length (e0 :: l))). intros idx H.
    assert (Hin : In (nth idx (e0 :: l) e0)
                     (eligible values scaledTarget maxResources v sel)).
    { rewrite He. apply nth_or_default. by left. }
    destruct (nth idx (e0 :: l) e0) as [rn rv]. simpl in H.
    unfold eligible in Hin. apply List.filter_In in Hin as [Hin _].
    eapply IH; [exact H|]. rewrite bundleValue_bump.
    by rewrite (entryOf_NoDup _ _ _ keys_unique Hin), Hv.
Qed.

Lemma specialistLoop_value specialistResource : forall fuel i v sel v' sel',
  specialistLoop values scaledTarget draws specialistResource fuel i (Some v) sel
    = Some (Some v', sel') ->
  bundleValue values sel = v -> bundleValue values sel' = v'.
Proof.
  induction fuel as [|fuel IH]; intros i v sel v' sel' H Hv.
  - simpl in H. destruct (belowTarget _ _); [done|]. by injection H as <- <-.
  - simpl in H. destruct (belowTarget _ _); [|by injection H as <- <-].
    set (resName := nth _ specialistResource "undefined") in *.
    destruct (entryOf values resName) as [x|] eqn:Hx; simpl in H.
    + destruct (aboveTarget _ _); [by injection H as <- <-|].
      eapply IH; [exact H|]. rewrite bundleValue_bump, Hx, Hv. done.
    + (* the sum is no longer a number: the loop ends on it *)
      destruct fuel; simpl in H; unfold belowTarget in H; simpl in H; done.
Qed.

End Loops.


(** *** The number of distinct resources of a bundle *)

Lemma bump_length sel k :
  length (bump sel k) = if decide (k ∈ map fst sel) then length sel
                        else S (length sel).
Proof.
  rewrite <- (length_map fst (bump sel k)), bump_keys.
  destruct (decide _); rewrite ?length_app, length_map; simpl; lia.
Qed.

Lemma bump_positive sel k :
  Forall (fun e => 1 <= e.2) sel -> Forall (fun e => 1 <= e.2) (bump sel k).
Proof.
  induction sel as [|[k' q] sel IH]; intros H; simpl.
  - repeat constructor.
  - apply Forall_cons in H as [Hq H]. destruct (decide (k' = k)).
    + constructor; [simpl in *; lia|done].
    + constructor; [done|by apply IH].
Qed.

(** What holds of the bundle while it is built. *)
Definition wellFormed (sel : list (string * nat)) : Prop :=
  NoDup (map fst sel) /\ Forall (fun e => 1 <= e.2) sel.

Lemma bump_wellFormed sel k : wellFormed sel -> wellFormed (bump sel k).
Proof. intros [H1 H2]. split; [by apply bump_NoDup|by apply bump_positive]. Qed.

Section Cap.
Variable values : list (string * Z).
Variable scaledTarget : Q.
Variable draws : nat -> Q.

Lemma generalLoop_cap cap : forall fuel i v sel v' sel',
  generalLoop values scaledTarget (Some cap) draws fuel i v sel = Some (v', sel') ->
  wellFormed sel -> length sel <= cap ->
  wellFormed sel' /\ length sel' <= cap.
Proof.
  induction fuel as [|fuel IH]; intros i v sel v' sel' H Hwf Hlen.
  - simpl in H. destruct (belowTarget _ _); [done|]. by injection H as <- <-.
  - rewrite generalLoop_step in H.
    destruct (belowTarget _ _); [|by injection H as <- <-].
    destruct (eligible values scaledTarget (Some cap) v sel) as [|e0 l] eqn:He;
      [by injection H as <- <-|].
    cbv zeta in H. revert H.
    generalize (randomIndex (draws i) (length (e0 :: l))). intros idx H.
    assert (Hin : In (nth idx (e0 :: l) e0)
                     (eligible values scaledTarget (Some cap) v sel)).
    { rewrite He. apply nth_or_default. by left. }
    destruct (nth idx (e0 :: l) e0) as [rn rv]. simpl in H.
    unfold eligible in Hin. apply List.filter_In in Hin as [_ Hok].
    apply andb_true_iff in Hok as [_ Hok]. simpl in Hok.
    eapply IH; [exact H|by apply bump_wellFormed|].
    rewrite bump_length. destruct (decide (rn ∈ map fst sel)) as [Hk|Hk]; [done|].
    apply orb_true_iff in Hok as [Hok|Hok].
    + apply Nat.ltb_lt in Hok. lia.
    + apply bool_decide_eq_true_1, entryOf_is_Some in Hok. done.
Qed.

Hypothesis draws_in_range : forall i, (0 <= draws i)%Q /\ (draws i < 1)%Q.

(** The names a specialist contract can hold: the chosen ones, or the key
    that reading past the end of an empty choice gives. *)
Definition drawable (specialistResource : list string) : list string :=
  match specialistResource with
  | [] => ["undefined"]
  | _ :: _ => specialistResource
  end.

Lemma specialistLoop_keys specialistResource : forall fuel i cv sel cv' sel',
  specialistLoop values scaledTarget draws specialistResource fuel i cv sel
    = Some (cv', sel') ->
  wellFormed sel -> map fst sel ⊆ drawable specialistResource ->
  wellFormed sel' /\ map fst sel' ⊆ drawable specialistResource.
Proof.
  induction fuel as [|fuel IH]; intros i cv sel cv' sel' H Hwf Hsub.
  - simpl in H. destruct (belowTarget _ _); [done|]. by injection H as <- <-.
  - simpl in H. destruct (belowTarget _ _); [|by injection H as <- <-].
    set (resName := nth _ specialistResource "undefined") in *.
    assert (Hname : resName ∈ drawable specialistResource).
    { subst resName. clear H IH Hsub. destruct specialistResource as [|s0 l].
      - simpl. destruct (randomIndex _ _); apply list_elem_of_here.
      - unfold drawable. apply list_elem_of_In, nth_In.
        destruct (draws_in_range i) as [H0 H1].
        apply randomIndex_lt; [done|done|]. simpl. lia. }
    destruct (aboveTarget _ _); [by injection H as <- <-|].
    eapply IH; [exact H|by apply bump_wellFormed|].
    rewrite bump_keys. destruct (decide _); [done|].
    intros x Hx. apply elem_of_app in Hx as [Hx|Hx]; [by apply Hsub|].
    by apply list_elem_of_singleton in Hx as ->.
Qed.

End Cap.


Lemma freshEntries_keys : NoDup (map fst freshEntries).
Proof. apply (bool_decide_unpack _). vm_compute. reflexivity. Qed.

(** Draws that go round the thirds of the unit interval. *)
Definition thirds (i : nat) : Q := (Z.of_nat (i mod 3) # 3)%Q.

Lemma thirds_in_range i : (0 <= thirds i)%Q /\ (thirds i < 1)%Q.
Proof.
  pose proof (Nat.mod_upper_bound i 3 ltac:(lia)) as H.
  unfold thirds, Qle, Qlt. simpl. lia.
Qed.



End BundleFacts.


(** ** The pool of contracts *)

Module PoolFacts.
Import Graph Engine Contracts Pool EngineFacts ContractFacts.

#[local] Arguments aboveTarget : simpl never.
#[local] Arguments belowTarget : simpl never.

Section Maintained.
Variable values : list (string * Z).
Variable renderedContracts : list contract.
Variable contractDifficulty : Q.
Variable rewardMinMultiplier rewardMaxMultiplier : Q.
Variable maxResources : option nat.
Variable ContractLabels : list string.
Variable now : nat -> Z.
Variable idDraws : nat -> Q.
Variable rnds : nat -> randomness.
Variable fuel : nat.
Variable targetValue : Q.
Hypothesis positive : Forall (fun e => (0 < snd e)%Z) values.
Hypothesis enough : Z.to_nat (Qceiling (targetValue * contractDifficulty)) <= fuel.

(** A contract generated at this render for the target at hand. *)
Definition generatedHere (c : contract) : Prop :=
  exists rnd id,
    generateRandomContract values renderedContracts contractDifficulty
      rewardMinMultiplier rewardMaxMultiplier maxResources ContractLabels
      rnd fuel targetValue id = Some c.

Lemma generate_total rnd id :
  is_Some (generateRandomContract values renderedContracts contractDifficulty
             rewardMinMultiplier rewardMaxMultiplier maxResources ContractLabels
             rnd fuel targetValue id).
Proof.
  unfold generateRandomContract.
  destruct (negb (Qle_bool (1 # 2) (specialistDraw rnd))).
  - destruct (specialistLoop_terminates values (targetValue * contractDifficulty)
                (loopDraws rnd) positive
                (take (match maxResources with
                       | Some cap0 =>
                           Nat.min (if negb (Qle_bool (1 # 2) (countDraw rnd))
                                    then 1 else 2) cap0
                       | None => if negb (Qle_bool (1 # 2) (countDraw rnd))
                                 then 1 else 2
                       end) (shuffled rnd))
                fuel 0 (Some 0%Z) []) as ([cv sel] & Hres & _).
    { intros v [= <-]. by rewrite Z.sub_0_r. }
    rewrite Hres. by eexists.
  - destruct (generalLoop_terminates values (targetValue * contractDifficulty)
                maxResources (loopDraws rnd) positive fuel 0 0%Z [])
      as ([v sel] & Hres & _).
    { by rewrite Z.sub_0_r. }
    rewrite Hres. by eexists.
Qed.

Lemma newContracts_total left : forall i,
  exists new,
    newContracts values renderedContracts contractDifficulty rewardMinMultiplier
      rewardMaxMultiplier maxResources ContractLabels now idDraws rnds fuel
      targetValue i left = Some new /\
    length new = left /\ Forall generatedHere new.
Proof.
  induction left as [|left IH]; intros i; cbn [newContracts].
  - exists []. by repeat split.
  - destruct (generate_total (rnds i)
                (now i + Qfloor (idDraws i * 1000) + Z.of_nat i)%Z) as [c Hc].
    rewrite Hc. destruct (IH (S i)) as (new & Hnew & Hlen & Hall). rewrite Hnew.
    exists (c :: new). split; [done|]. split; [simpl; lia|].
    constructor; [|done]. by eexists _, _.
Qed.



End Maintained.

Lemma freshEntries_positive : Forall (fun e => (0 < snd e)%Z) freshEntries.
Proof.
  unfold freshEntries. repeat (apply Forall_cons_2; [simpl; lia|]).
  apply Forall_nil_2.
Qed.

(** One contract on display, three wanted, on the values of a reset. *)
Definition onDisplay : list contract :=
  [Contract (Some 50%Z) (Some 60%Z) [("coal", 5)] 7 "Contract 8" 1 (1, 14 # 10)%Q
            (Some 6)].

Definition sampleDraws (i : nat) : randomness :=
  Randomness (3 # 4) 0 [] BundleFacts.thirds 0 (1 # 2).



End PoolFacts.


(** ** Generated contracts: label and fill *)

Module GenerationFacts.
Import Graph Engine Contracts EngineFacts ContractFacts BundleFacts.

#[local] Arguments aboveTarget : simpl never.
#[local] Arguments belowTarget : simpl never.

Lemma generated_label values existing d a b cap labels rnd fuel target id c :
  generateRandomContract values existing d a b cap labels rnd fuel target id
    = Some c ->
  c_label c = pickLabel labels existing (labelDraw rnd) id.
Proof.
  unfold generateRandomContract. intros H.
  destruct (if negb (Qle_bool (1 # 2) (specialistDraw rnd)) then _ else _)
    as [[cv sel]|]; [|done].
  by injection H as <-.
Qed.

(** X27.  The label of a generated contract.  As long as one of the
    labels on offer is not worn by a contract on display, the new contract
    gets a label on offer that no contract on display wears, whatever the
    draw; when every label is taken it is called [Contract n], [n] being its
    identifier plus one. *)
Theorem label_not_on_display values existing d a b cap labels rnd fuel target id c :
  generateRandomContract values existing d a b cap labels rnd fuel target id
    = Some c ->
  ((exists l, l ∈ labels /\ l ∉ map c_label existing) ->
   c_label c ∈ labels /\ c_label c ∉ map c_label existing) /\
  ((forall l, l ∈ labels -> l ∈ map c_label existing) ->
   c_label c = "Contract " +:+ pretty (id + 1)%Z).
Proof.
  intros H. rewrite (generated_label _ _ _ _ _ _ _ _ _ _ _ _ H).
  unfold pickLabel.
  set (free := List.filter _ labels).
  assert (Hfree : forall l, In l free <-> l ∈ labels /\ l ∉ map c_label existing).
  { intros l. unfold free. rewrite List.filter_In, negb_true_iff.
    rewrite bool_decide_eq_false, <- list_elem_of_In. done. }
  split.
  - intros (l & Hl & Hnew).
    destruct free as [|l0 rest] eqn:E.
    { exfalso. apply (proj2 (Hfree l)). by split. }
    apply Hfree. rewrite <- E at 2. rewrite E. apply nth_or_default. by left.
  - intros Hall. destruct free as [|l0 rest] eqn:E; [done|].
    exfalso. destruct (proj1 (Hfree l0) ltac:(by left)) as [Hin Hnot].
    by apply Hnot, Hall.
Qed.

(** One contract on display wears the first of two labels. *)
Definition rushOrder : contract :=
  Contract (Some 50%Z) (Some 60%Z) [("coal", 5)] 7 "Rush Order" 1
           (1, 14 # 10)%Q (Some 6).

Lemma label_not_on_display_witness :
  exists c,
    generateRandomContract freshEntries [rushOrder] 1 1 (14 # 10) (Some 6)
      ["Rush Order"; "Bulk Deal"]
      (Randomness (3 # 4) 0 [] thirds (9 # 10) (1 # 2)) 50 50 8 = Some c /\
    c_label c ∈ ["Rush Order"; "Bulk Deal"] /\
    c_label c ∉ map c_label [rushOrder].
Proof.
  eexists. split; [vm_compute; reflexivity|].
  eapply (proj1 (label_not_on_display freshEntries [rushOrder] 1 1 (14 # 10)
                   (Some 6) ["Rush Order"; "Bulk Deal"]
                   (Randomness (3 # 4) 0 [] thirds (9 # 10) (1 # 2)) 50 50 8 _
                   ltac:(vm_compute; reflexivity))).
  exists "Bulk Deal". split.
  - apply list_elem_of_further, list_elem_of_here.
  - simpl. intros H. apply list_elem_of_singleton in H. discriminate.
Defined.

Section Full.
Variable values : list (string * Z).
Variable scaledTarget : Q.
Variable maxResources : option nat.
Variable draws : nat -> Q.
Hypothesis positive : Forall (fun e => (0 < snd e)%Z) values.

(** No resource that the filter of general mode would still let in fits
    under the target. *)
Definition full (v : Z) (sel : list (string * nat)) : Prop :=
  forall n x, In (n, x) values ->
    underCap maxResources sel || bool_decide (is_Some (entryOf sel n)) = true ->
    (scaledTarget < inject_Z (v + x))%Q.

Lemma full_reached v sel :
  belowTarget (Some v) scaledTarget = false -> full v sel.
Proof.
  unfold belowTarget. rewrite negb_false_iff. intros H n x Hin _.
  apply Qle_bool_iff in H. eapply Qle_lt_trans; [exact H|].
  rewrite <- Zlt_Qlt.
  rewrite Forall_forall in positive.
  specialize (positive (n, x) ltac:(by apply list_elem_of_In)). simpl in positive. lia.
Qed.

Lemma generalLoop_full : forall fuel i v sel v' sel',
  generalLoop values scaledTarget maxResources draws fuel i v sel = Some (v', sel') ->
  full v' sel'.
Proof.
  induction fuel as [|fuel IH]; intros i v sel v' sel' H.
  - simpl in H. destruct (belowTarget _ _) eqn:Hb; [done|].
    injection H as <- <-. by apply full_reached.
  - rewrite generalLoop_step in H.
    destruct (belowTarget _ _) eqn:Hb; [|injection H as <- <-; by apply full_reached].
    destruct (eligible values scaledTarget maxResources v sel) as [|e0 l] eqn:He.
    + injection H as <- <-. intros n x Hin Hok.
      destruct (Qlt_le_dec scaledTarget (inject_Z (v + x))) as [?|Hle]; [done|].
      exfalso. assert (Hel : In (n, x) (eligible values scaledTarget maxResources v sel)).
      { unfold eligible. apply List.filter_In. split; [done|]. simpl.
        apply andb_true_iff. split; [|done].
        apply Qle_bool_iff. by rewrite Z.add_comm. }
      by rewrite He in Hel.
    + cbv zeta in H. eapply IH. exact H.
Qed.

End Full.

(** X28.  A contract of general mode is filled to the brim.  When every
    resource value is positive, no resource that the bundle could still
    take (one already in it, or any resource while the bundle holds fewer
    distinct resources than [maxResources]) fits under the target on top of
    the value of the contract. *)
Theorem general_contract_is_full values existing d a b cap labels rnd fuel target id
    c v n x :
  Forall (fun e => (0 < snd e)%Z) values ->
  (1 # 2 <= specialistDraw rnd)%Q ->
  generateRandomContract values existing d a b cap labels rnd fuel target id
    = Some c ->
  c_value c = Some v ->
  In (n, x) values ->
  underCap cap (c_resources c)
  || bool_decide (is_Some (entryOf (c_resources c) n)) = true ->
  (target * d < inject_Z (v + x))%Q.
Proof.
  intros Hpos Hgeneral H Hv Hin Hok. unfold generateRandomContract in H.
  apply Qle_bool_iff in Hgeneral. rewrite Hgeneral in H. simpl in H.
  destruct (generalLoop _ _ _ _ _ _ _ _) as [[cv sel]|] eqn:Hloop; [|done].
  injection H as <-. simpl in *. injection Hv as ->.
  by apply (generalLoop_full _ _ _ _ Hpos _ _ _ _ _ _ Hloop n x).
Qed.

Lemma general_contract_is_full_witness :
  exists c,
    generateRandomContract freshEntries [] 1 1 (14 # 10) (Some 2) []
      (Randomness (3 # 4) 0 [] thirds 0 (1 # 2)) 50 48 7 = Some c /\
    c_value c = Some 45%Z /\
    c_resources c = [("iron", 5); ("oil", 4)] /\
    (48 * 1 < inject_Z (45 + 5))%Q.
Proof.
  eexists. split; [vm_compute; reflexivity|]. split; [reflexivity|].
  split; [reflexivity|].
  eapply (general_contract_is_full freshEntries [] 1 1 (14 # 10) (Some 2) []
            (Randomness (3 # 4) 0 [] thirds 0 (1 # 2)) 50 48 7 _ 45 "iron" 5).
  - exact PoolFacts.freshEntries_positive.
  - vm_compute. discriminate.
  - vm_compute. reflexivity.
  - reflexivity.
  - left. reflexivity.
  - reflexivity.
Defined.

End GenerationFacts.


(** ** Persistence and settings *)

Module StorageFacts.
Import WebStorage.

Lemma append_inj_l (p a b : string) : p +:+ a = p +:+ b -> a = b.
Proof.
  induction p as [|c p IH]; intros H; [exact H|].
  change (String c (p +:+ a) = String c (p +:+ b)) in H.
  injection H as H. by apply IH.
Qed.

Lemma append_length (a b : string) :
  String.length (a +:+ b) = String.length a + String.length b.
Proof.
  induction a as [|c a IH]; [done|].
  change (Datatypes.S (String.length (a +:+ b))
          = Datatypes.S (String.length a + String.length b)).
  by rewrite IH.
Qed.

Lemma append_inj_r (a b s : string) : a +:+ s = b +:+ s -> a = b.
Proof.
  revert b. induction a as [|c a IH]; intros [|c' b] H.
  - done.
  - apply (f_equal String.length) in H. rewrite !append_length in H.
    simpl in H. lia.
  - apply (f_equal String.length) in H. rewrite !append_length in H.
    simpl in H. lia.
  - change (String c (a +:+ s) = String c' (b +:+ s)) in H.
    injection H as -> H. f_equal. by apply IH.
Qed.

(** Under one primary key and one version, two entry keys that differ get
    storage keys that differ. *)
Lemma createStorageKey_inj primaryKey version e1 e2 :
  createStorageKey primaryKey e1 version = createStorageKey primaryKey e2 version ->
  e1 = e2.
Proof.
  unfold createStorageKey. intros H.
  apply append_inj_l, append_inj_l in H.
  by apply (append_inj_r e1 e2 (":" +:+ version)).
Qed.

Section Persistence.
Context {S : Type}.
Variable serializer : S -> string.
Variable deserializer : string -> S.
Hypothesis round_trip : forall x, deserializer (serializer x) = x.

(** X24.  Persistence.  After the setter has been called with a value and
    the effect has written it, a hook that starts on the same entry finds
    that value again, whatever its default; a hook that starts on another
    entry of the same primary key and version finds what it would have found
    before. *)
Theorem stored_value_survives (storage : gmap string string)
    (primaryKey version entryKey : string) (x : S) (old : StorageState)
    (defaultValue : S) :
  let storageKey := createStorageKey primaryKey entryKey version in
  let storage' :=
    propagate serializer storageKey (updateState true (Value x) old) storage in
  value (initialState deserializer storage' storageKey defaultValue) = x /\
  forall otherKey (otherDefault : S),
    otherKey <> entryKey ->
    initialState deserializer storage'
      (createStorageKey primaryKey otherKey version) otherDefault
    = initialState deserializer storage
        (createStorageKey primaryKey otherKey version) otherDefault.
Proof.
  intros storageKey storage'. unfold storage', propagate, initialState.
  cbn [propagateToStorage updateState value]. split.
  - rewrite lookup_insert_eq. simpl. apply round_trip.
  - intros otherKey otherDefault Hne. rewrite lookup_insert_ne; [done|].
    intros E. apply Hne. symmetry. by eapply createStorageKey_inj.
Qed.


End Persistence.

(** The hook on strings kept as they are. *)
Lemma stored_value_survives_witness :
  let storageKey := createStorageKey "defaultKey" "ignoreMin" "1.0.0" in
  let storage' :=
    propagate (fun s : string => s) storageKey
      (updateState true (Value "true") (Stored "false" false))
      {[ createStorageKey "defaultKey" "noiseActive" "1.0.0" := "false" ]} in
  value (initialState (fun s : string => s) storage' storageKey "false") = "true" /\
  forall otherKey (otherDefault : string),
    otherKey <> "ignoreMin" ->
    initialState (fun s : string => s) storage'
      (createStorageKey "defaultKey" otherKey "1.0.0") otherDefault
    = initialState (fun s : string => s)
        {[ createStorageKey "defaultKey" "noiseActive" "1.0.0" := "false" ]}
        (createStorageKey "defaultKey" otherKey "1.0.0") otherDefault.
Proof.
  apply (stored_value_survives (fun s : string => s) (fun s : string => s)
           (fun x => eq_refl)
           {[ createStorageKey "defaultKey" "noiseActive" "1.0.0" := "false" ]}
           "defaultKey" "1.0.0" "ignoreMin" "true" (Stored "false" false) "false").
Defined.


End StorageFacts.

Module SettingsFacts.
Import Settings Contracts.

(** The shape the two handlers maintain. *)
Definition inRange (st : payout) : Prop :=
  (1 # 10 <= minPayoutMult st)%Q /\
  (minPayoutMult st <= maxPayoutMult st)%Q /\
  (maxPayoutMult st <= 6)%Q.

(** A change of one multiplier, made on the render that shows the current
    settings. *)
Inductive adjustment :=
| SetMin (v : Q)
| SetMax (v : Q).

Definition adjust (c : adjustment) (st : payout) : payout :=
  match c with
  | SetMin v => onChangeRewardMinMultiplier st v st
  | SetMax v => onChangeRewardMaxMultiplier st v st
  end.

Lemma clamp_bounds (hi v : Q) :
  (1 # 10 <= hi)%Q ->
  (1 # 10 <= Qmax (1 # 10) (Qmin hi v))%Q /\ (Qmax (1 # 10) (Qmin hi v) <= hi)%Q.
Proof.
  intros H. split; [apply Q.le_max_l|].
  apply Q.max_lub; [done|apply Q.le_min_l].
Qed.

Lemma adjust_inRange c st : inRange st -> inRange (adjust c st).
Proof.
  intros (H1 & H2 & H3). destruct c as [v|v]; simpl.
  - unfold onChangeRewardMinMultiplier.
    destruct (clamp_bounds 5 v) as [Hlo Hhi]; [done|].
    set (clamped := Qmax (1 # 10) (Qmin 5 v)) in *.
    destruct (Qle_bool clamped (maxPayoutMult st)) eqn:E; simpl.
    + apply Qle_bool_iff in E. by repeat split.
    + repeat split; [done|apply Qle_refl|].
      eapply Qle_trans; [exact Hhi|done].
  - unfold onChangeRewardMaxMultiplier.
    destruct (clamp_bounds 6 v) as [Hlo Hhi]; [done|].
    set (clamped := Qmax (1 # 10) (Qmin 6 v)) in *.
    destruct (Qle_bool (minPayoutMult st) clamped) eqn:E; simpl.
    + apply Qle_bool_iff in E. by repeat split.
    + repeat split; [done|apply Qle_refl|done].
Qed.

(** X26.  Whatever values the two handlers are given and in whatever order,
    the settings stay within 0.1 and 6 with the minimum not above the
    maximum; so the multipliers a contract is generated with are the
    settings themselves, and the 0.1 guard of the generation never takes
    effect. *)
Theorem payout_settings_consistent (changes : list adjustment) (st : payout) :
  inRange st ->
  let st' := foldl (fun s c => adjust c s) st changes in
  inRange st' /\
  (minMult (minPayoutMult st') (maxPayoutMult st') == minPayoutMult st')%Q /\
  (maxMult (minPayoutMult st') (maxPayoutMult st') == maxPayoutMult st')%Q.
Proof.
  intros H st'.
  assert (Hr : inRange st').
  { unfold st'. clear st'. revert st H.
    induction changes as [|c cs IH]; intros st H; [done|].
    simpl. by apply IH, adjust_inRange. }
  split; [done|]. destruct Hr as (H1 & H2 & H3).
  assert (Hmin : (minMult (minPayoutMult st') (maxPayoutMult st') == minPayoutMult st')%Q).
  { unfold minMult. rewrite (Q.min_l _ _ H2). by apply Q.max_r. }
  split; [done|]. unfold maxMult. rewrite Hmin. by apply Q.max_r.
Qed.

Lemma payout_settings_consistent_witness :
  let st' := foldl (fun s c => adjust c s) (Payout 1 (14 # 10))
               [SetMin 3; SetMax (1 # 2); SetMin (-4)] in
  inRange st' /\
  (minMult (minPayoutMult st') (maxPayoutMult st') == minPayoutMult st')%Q /\
  (maxMult (minPayoutMult st') (maxPayoutMult st') == maxPayoutMult st')%Q.
Proof.
  apply (payout_settings_consistent [SetMin 3; SetMax (1 # 2); SetMin (-4)]
           (Payout 1 (14 # 10))).
  repeat split; vm_compute; discriminate.
Defined.

End SettingsFacts.
